(** * GameStringer: memory patcher, scanners, translation cache, pipeline and hooks

    A shallow embedding of the native parts of GameStringer:
    - [src/native/src/injector.cc]      (text scan and in-place patch),
    - [src/native/src/memory_utils.cc]  (byte-pattern scan, read and write),
    - [src/unreal-translator/hook-dll/src/{cache,ipc,translator,hooks,utils}.cpp],
    - [src/unity-translator-dll/src/{main.cpp,ipc_client.h}],
    - [src/ue-translator-dll/src/{main.cpp,text_hooks.h}].

    Conventions.  A [char], [uint8_t] or [wchar_t] code unit is a [Z];
    [std::string], [std::wstring] and raw buffers are [list Z].  [wchar_t] is
    two bytes (the code is Windows only) and is laid out little-endian.
    Unsigned machine integers wrap around explicitly ([wrap32], [wrap64]);
    [size_t] is 64 bits wide.  Calls into the operating system are resolved
    by explicit oracle arguments: the functions below are the code of the
    repository, the oracle is the answer of the system.  Code that runs under
    a mutex is one step of the model; what other threads do while a thread
    waits is an argument of the waiting function. *)

From Stdlib Require Import ZArith List Lia Bool.
From stdpp Require Import base tactics option list gmap.

Local Open Scope Z_scope.

(** ** Machine integers and strings *)

Definition wrap32 (z : Z) : Z := z mod 4294967296.
Definition wrap64 (z : Z) : Z := z mod 18446744073709551616.

Definition SPACE : Z := 32.
Definition sizeof_wchar_t : Z := 2.

(** [std::basic_string::c_str()] as seen by a C function: the code units up to
    (and excluding) the first NUL. *)
Fixpoint c_str (s : list Z) : list Z :=
  match s with
  | [] => []
  | c :: s' => if c =? 0 then [] else c :: c_str s'
  end.

(** Little-endian bytes of one [wchar_t] and of a [wchar_t] buffer, as
    [reinterpret_cast<char*>] exposes them. *)
Definition wchar_bytes (c : Z) : list Z := [c mod 256; (c / 256) mod 256].

Definition wbytes (s : list Z) : list Z := flat_map wchar_bytes s.

(** The inverse view, [reinterpret_cast<wchar_t*>] of a byte buffer holding
    [n] whole code units. *)
Fixpoint wunits (n : nat) (bs : list Z) : list Z :=
  match n with
  | O => []
  | S n' =>
      match bs with
      | lo :: hi :: bs' => (lo + 256 * hi) :: wunits n' bs'
      | _ => []
      end
  end.

(** [std::basic_string::find(pattern, pos)]: the lowest index [>= pos] at which
    [pattern] occurs, [None] for [npos].  An empty pattern is found at every
    [pos <= size()]. *)
Fixpoint is_prefix (pat s : list Z) : bool :=
  match pat, s with
  | [], _ => true
  | _ :: _, [] => false
  | a :: pat', b :: s' => (a =? b) && is_prefix pat' s'
  end.

Fixpoint find_at (s pat : list Z) (i : nat) {struct s} : option nat :=
  if is_prefix pat s then Some i
  else match s with
       | [] => None
       | _ :: s' => find_at s' pat (S i)
       end.

Definition find (s pat : list Z) (pos : nat) : option nat :=
  if (pos <=? length s)%nat then find_at (drop pos s) pat pos else None.

(** [wcscpy_s(dest, destsz, src)] / [strcpy_s]: copies [src] through its
    terminating NUL.  When the destination is too small the retail CRT
    stores NUL in [dest[0]] and reports an error, which the callers ignore. *)
Definition strcpy_s (dest : list Z) (src : list Z) : list Z :=
  let body := c_str src ++ [0] in
  if (length body <=? length dest)%nat
  then body ++ drop (length body) dest
  else <[0%nat := 0]> dest.

(** ** The target process (injector.cc) *)

Module Injector.

Definition PAGE_EXECUTE_READWRITE : Z := 64.

(** System calls issued on the target, kept as a ghost trace. *)
Inductive Syscall : Type :=
| SysVirtualProtectEx (address size newProtect : Z)
| SysWriteProcessMemory (address : Z) (data : list Z).

Record Process : Type := mkProcess {
  memory : Z -> Z;              (* byte at each virtual address *)
  syscalls : list Syscall       (* calls issued so far, oldest first *)
}.

(** What the system answers to one patch attempt. *)
Record Oracle : Type := mkOracle {
  protect_result : option Z;    (* [Some oldProtect] when VirtualProtectEx succeeds *)
  write_result : bool;          (* whether WriteProcessMemory succeeds *)
  restore_result : option Z     (* the answer to the restoring VirtualProtectEx *)
}.

Definition write_bytes (mem : Z -> Z) (address : Z) (data : list Z) : Z -> Z :=
  fun a =>
    if (address <=? a) && (a <? address + Z.of_nat (length data))
    then default 0 (data !! Z.to_nat (a - address))
    else mem a.

Definition read_range (mem : Z -> Z) (address : Z) (n : nat) : list Z :=
  map (fun i => mem (address + Z.of_nat i)) (seq 0 n).

Definition VirtualProtectEx (result : option Z) (p : Process)
    (address size newProtect : Z) : option Z * Process :=
  (result,
   mkProcess (memory p) (syscalls p ++ [SysVirtualProtectEx address size newProtect])).

(** A successful WriteProcessMemory transfers the whole buffer. *)
Definition WriteProcessMemory (ok : bool) (p : Process)
    (address : Z) (data : list Z) : bool * Process :=
  let mem' := if ok then write_bytes (memory p) address data else memory p in
  (ok, mkProcess mem' (syscalls p ++ [SysWriteProcessMemory address data])).

(** [for (i = from; i < to; i++) buffer[i] = ' ';] *)
Definition fill_spaces (buffer : list Z) (from to : nat) : list Z :=
  foldl (fun b i => <[i := SPACE]> b) buffer (seq from (to - from)).

(** The scratch buffer of both patch functions (injector.cc:161-167, 197-203). *)
Definition prepare_buffer (original replacement : list Z) : list Z :=
  let buffer := replicate (length original + 1) 0 in
  let buffer := strcpy_s buffer replacement in
  fill_spaces buffer (length replacement) (length original).

(** injector.cc:145-178 *)
Definition ReplaceTextInMemory (os : Oracle) (p : Process) (address : Z)
    (original replacement : list Z) : bool * Process :=
  if (length original <? length replacement)%nat then (false, p)
  else
    let size := Z.of_nat (length original) * sizeof_wchar_t in
    match VirtualProtectEx (protect_result os) p address size PAGE_EXECUTE_READWRITE with
    | (None, p1) => (false, p1)
    | (Some oldProtect, p1) =>
        let buffer := prepare_buffer original replacement in
        let '(success, p2) :=
          WriteProcessMemory (write_result os) p1 address
            (take (Z.to_nat size) (wbytes buffer)) in
        let '(_, p3) := VirtualProtectEx (restore_result os) p2 address size oldProtect in
        (success, p3)
    end.

(** injector.cc:181-214 *)
Definition ReplaceTextInMemoryASCII (os : Oracle) (p : Process) (address : Z)
    (original replacement : list Z) : bool * Process :=
  if (length original <? length replacement)%nat then (false, p)
  else
    let size := Z.of_nat (length original) in
    match VirtualProtectEx (protect_result os) p address size PAGE_EXECUTE_READWRITE with
    | (None, p1) => (false, p1)
    | (Some oldProtect, p1) =>
        let buffer := prepare_buffer original replacement in
        let '(success, p2) :=
          WriteProcessMemory (write_result os) p1 address
            (take (Z.to_nat size) buffer) in
        let '(_, p3) := VirtualProtectEx (restore_result os) p2 address size oldProtect in
        (success, p3)
    end.

Inductive Encoding : Type := UTF16 | ASCII.

(** One element of the [injected] array of the result object. *)
Record InjectedItem : Type := mkInjected {
  inj_address : Z;
  inj_original : list Z;
  inj_translated : list Z;
  inj_encoding : Encoding
}.

(** The two patch loops of [InjectTranslations] for one pair
    (injector.cc:259-269 and 273-283); [os] answers per address. *)
Fixpoint inject_UTF16 (os : Z -> Oracle) (p : Process) (addresses : list Z)
    (originalW translatedW originalUtf8 translatedUtf8 : list Z)
    (injected : list InjectedItem) : list InjectedItem * Process :=
  match addresses with
  | [] => (injected, p)
  | addr :: rest =>
      let '(ok, p') := ReplaceTextInMemory (os addr) p addr originalW translatedW in
      inject_UTF16 os p' rest originalW translatedW originalUtf8 translatedUtf8
        (if ok then injected ++ [mkInjected addr originalUtf8 translatedUtf8 UTF16]
         else injected)
  end.

Fixpoint inject_ASCII (os : Z -> Oracle) (p : Process) (addresses : list Z)
    (originalUtf8 translatedUtf8 : list Z)
    (injected : list InjectedItem) : list InjectedItem * Process :=
  match addresses with
  | [] => (injected, p)
  | addr :: rest =>
      let '(ok, p') := ReplaceTextInMemoryASCII (os addr) p addr originalUtf8 translatedUtf8 in
      inject_ASCII os p' rest originalUtf8 translatedUtf8
        (if ok then injected ++ [mkInjected addr originalUtf8 translatedUtf8 ASCII]
         else injected)
  end.

(** The inner search loop of [FindTextPatternUTF16] / [FindTextPatternASCII]
    on one string view of a region (injector.cc:89-93, 128-132):
    [while ((pos = bufferStr.find(pattern, pos)) != npos) { push; pos += pattern.length(); }].
    [None] means the loop is still running when the fuel is exhausted. *)
Fixpoint find_loop (fuel : nat) (bufferStr pattern : list Z) (pos : nat)
    (found : list nat) : option (list nat) :=
  match fuel with
  | O => None
  | S fuel' =>
      match find bufferStr pattern pos with
      | None => Some found
      | Some pos' =>
          find_loop fuel' bufferStr pattern (pos' + length pattern)%nat (found ++ [pos'])
      end
  end.

(** One committed read-write region whose read succeeded: its base address and
    the [bytesRead] bytes of the snapshot. *)
Definition scan_region_UTF16 (fuel : nat) (addr : Z) (buffer : list Z)
    (pattern : list Z) : option (list Z) :=
  let bufferStr := wunits (length buffer / 2) buffer in
  option_map (map (fun pos => addr + Z.of_nat pos * sizeof_wchar_t))
    (find_loop fuel bufferStr pattern 0 []).

Definition scan_region_ASCII (fuel : nat) (addr : Z) (buffer : list Z)
    (pattern : list Z) : option (list Z) :=
  option_map (map (fun pos => addr + Z.of_nat pos))
    (find_loop fuel buffer pattern 0 []).

End Injector.

(** ** Byte-pattern scan (memory_utils.cc) *)

Module MemoryUtils.

Definition MASK_MATCH : Z := 120.   (* 'x' *)

(** memory_utils.cc:13-20.  The loop is driven by the NUL-terminated mask;
    [data] and [pattern] are dereferenced only under an ['x'].  [None] is a
    read past the end of [data] or [pattern]. *)
Fixpoint ComparePattern (data pattern mask : list Z) : option bool :=
  match mask with
  | [] => Some true
  | m :: mask' =>
      if m =? 0 then Some true
      else if m =? MASK_MATCH then
        match data, pattern with
        | d :: data', q :: pattern' =>
            if d =? q then ComparePattern data' pattern' mask' else Some false
        | _, _ => None
        end
      else ComparePattern (tail data) (tail pattern) mask'
  end.

Inductive ScanResult : Type :=
| ScanDone (matches : list Z)     (* the loop ended with these offsets *)
| ScanOutOfBounds                 (* a read left the snapshot buffer *)
| ScanRunning.                    (* still looping when the fuel ran out *)

(** memory_utils.cc:66-75 on one region snapshot of [bytesRead = length buffer]
    bytes: [for (size_t i = 0; i <= bytesRead - pattern.size(); i++)], the
    bound computed in [size_t]. *)
Fixpoint scan_loop (fuel : nat) (buffer pattern mask : list Z)
    (i bound : Z) (results : list Z) : ScanResult :=
  match fuel with
  | O => ScanRunning
  | S fuel' =>
      if bound <? i then ScanDone results
      else match ComparePattern (drop (Z.to_nat i) buffer) pattern mask with
           | None => ScanOutOfBounds
           | Some hit =>
               scan_loop fuel' buffer pattern mask (wrap64 (i + 1)) bound
                 (if hit then results ++ [i] else results)
           end
  end.

Definition scan_bound (buffer pattern : list Z) : Z :=
  wrap64 (Z.of_nat (length buffer) - Z.of_nat (length pattern)).

(** The pattern array is narrowed to [uint8_t] element by element
    (memory_utils.cc:36-39). *)
Definition to_uint8 (pattern : list Z) : list Z := map (fun b => b mod 256) pattern.

Definition ScanRegion (fuel : nat) (buffer pattern mask : list Z) : ScanResult :=
  let pattern := to_uint8 pattern in
  scan_loop fuel buffer pattern mask 0 (scan_bound buffer pattern) [].

End MemoryUtils.

(** ** Files *)

Definition le32 (z : Z) : list Z :=
  [z mod 256; (z / 256) mod 256; (z / 65536) mod 256; (z / 16777216) mod 256].

Definition le32_decode (bs : list Z) : option Z :=
  match bs with
  | [b0; b1; b2; b3] => Some (b0 + 256 * b1 + 65536 * b2 + 16777216 * b3)
  | _ => None
  end.

(** A file system as the cache code sees it: what each existing file holds and
    which paths can be opened for writing.  Writes to an open stream are taken
    to succeed (the code never checks them). *)
Record FileSystem : Type := mkFS {
  contents : gmap (list Z) (list Z);
  writable : list Z -> bool
}.

(** A binary [std::ifstream]: the bytes not yet consumed and [good()]. *)
Record ifstream : Type := mkStream {
  rest : list Z;
  good : bool
}.

(** [file.read(dst, n)]: the bytes transferred.  A stream that is not good
    transfers nothing; a short read transfers what is left and sets
    eofbit|failbit; an exact read leaves the stream good. *)
Definition stream_read (s : ifstream) (n : nat) : list Z * ifstream :=
  if good s then
    if (n <=? length (rest s))%nat
    then (take n (rest s), mkStream (drop n (rest s)) true)
    else (rest s, mkStream [] false)
  else ([], s).

(** Reading into an uninitialised [uint32_t]: [None] when fewer than four bytes
    arrived, the variable then holds an indeterminate value. *)
Definition read_u32 (s : ifstream) : option Z * ifstream :=
  let '(got, s') := stream_read s 4 in (le32_decode got, s').

(** Reading into a [std::wstring] of [len] NUL code units. *)
Definition read_wstring (s : ifstream) (len : Z) : list Z * ifstream :=
  let n := Z.to_nat len in
  let '(got, s') := stream_read s (2 * n) in
  (wunits n (got ++ replicate (2 * n - length got) 0), s').

(** ** The translation cache (cache.cpp) *)

(** The iteration order of [std::unordered_map] is unspecified: it is a
    parameter, any enumeration of the entries. *)
Class HashOrder : Type := {
  iteration : gmap (list Z) (list Z) -> list (list Z * list Z);
  iteration_perm : forall m, iteration m ≡ₚ map_to_list m
}.

(** One such order, the one [map_to_list] produces. *)
Definition canonical_order : HashOrder :=
  {| iteration := map_to_list; iteration_perm := fun m => reflexivity _ |}.

Module Cache.

Definition CACHE_MAGIC : Z := 1196643395.   (* 0x47535443, "GSTC" *)
Definition CACHE_VERSION : Z := 1.

Record TranslationCache : Type := mkCache {
  m_cache : gmap (list Z) (list Z);
  m_maxSize : Z;
  m_hits : Z;
  m_misses : Z
}.

(** cache.cpp:18-20 *)
Definition new (maxSize : Z) : TranslationCache := mkCache ∅ maxSize 0 0.

Definition with_map (c : TranslationCache) (m : gmap (list Z) (list Z)) : TranslationCache :=
  mkCache m (m_maxSize c) (m_hits c) (m_misses c).

(** cache.cpp:25-37; [Some translated] stands for [true] with the out
    parameter assigned. *)
Definition Get (c : TranslationCache) (original : list Z) :
    option (list Z) * TranslationCache :=
  match m_cache c !! original with
  | Some translated =>
      (Some translated,
       mkCache (m_cache c) (m_maxSize c) (wrap64 (m_hits c + 1)) (m_misses c))
  | None =>
      (None, mkCache (m_cache c) (m_maxSize c) (m_hits c) (wrap64 (m_misses c + 1)))
  end.

Section unordered.
Context `{HashOrder}.

(** cache.cpp:70-76: [m_cache.erase(m_cache.begin())]. *)
Definition EvictOldest (c : TranslationCache) : TranslationCache :=
  match iteration (m_cache c) with
  | [] => c
  | (k, _) :: _ => with_map c (delete k (m_cache c))
  end.

(** cache.cpp:39-48 *)
Definition Put (c : TranslationCache) (original translated : list Z) : TranslationCache :=
  let c := if m_maxSize c <=? Z.of_nat (size (m_cache c)) then EvictOldest c else c in
  with_map c (<[original := translated]> (m_cache c)).

(** cache.cpp:96-107, one entry. *)
Definition entry_bytes (pair : list Z * list Z) : list Z :=
  let origLen := wrap32 (Z.of_nat (length pair.1)) in
  let transLen := wrap32 (Z.of_nat (length pair.2)) in
  le32 origLen ++ wbytes (take (Z.to_nat origLen) pair.1)
  ++ le32 transLen ++ wbytes (take (Z.to_nat transLen) pair.2).

Definition file_bytes (c : TranslationCache) : list Z :=
  le32 CACHE_MAGIC ++ le32 CACHE_VERSION
  ++ le32 (wrap32 (Z.of_nat (size (m_cache c))))
  ++ flat_map entry_bytes (iteration (m_cache c)).

(** cache.cpp:78-111 *)
Definition SaveToFile (c : TranslationCache) (fs : FileSystem) (path : list Z) :
    bool * FileSystem :=
  if writable fs path
  then (true, mkFS (<[path := file_bytes c]> (contents fs)) (writable fs))
  else (false, fs).

End unordered.

(** cache.cpp:55-63 *)
Definition Remove (c : TranslationCache) (original : list Z) : TranslationCache :=
  with_map c (delete original (m_cache c)).

Definition Clear (c : TranslationCache) : TranslationCache := with_map c ∅.

Definition Size (c : TranslationCache) : nat := size (m_cache c).

Definition Contains (c : TranslationCache) (original : list Z) : bool :=
  bool_decide (is_Some (m_cache c !! original)).

(** cache.cpp:135-149: [for (i = 0; i < count && file.good(); i++)].  [None]
    is the use of an indeterminate length after a failed read. *)
Fixpoint load_entries (count : nat) (s : ifstream) (m : gmap (list Z) (list Z)) :
    option (gmap (list Z) (list Z)) :=
  match count with
  | O => Some m
  | S count' =>
      if good s then
        let '(origLen, s1) := read_u32 s in
        match origLen with
        | None => None
        | Some origLen =>
            let '(original, s2) := read_wstring s1 origLen in
            let '(transLen, s3) := read_u32 s2 in
            match transLen with
            | None => None
            | Some transLen =>
                let '(translated, s4) := read_wstring s3 transLen in
                load_entries count' s4
                  (if good s4 then <[original := translated]> m else m)
            end
        end
      else Some m
  end.

Inductive LoadResult : Type :=
| Loaded (ok : bool) (c : TranslationCache)
| Undefined.     (* an uninitialised header or length field was used *)

(** cache.cpp:113-153.  The header test [magic != 0x47535443 || version != 1]
    short-circuits; [count] is first used by the loop condition. *)
Definition LoadFromFile (c : TranslationCache) (fs : FileSystem) (path : list Z) :
    LoadResult :=
  match contents fs !! path with
  | None => Loaded false c
  | Some bytes =>
      let '(magic, s1) := read_u32 (mkStream bytes true) in
      let '(version, s2) := read_u32 s1 in
      let '(count, s3) := read_u32 s2 in
      match magic with
      | None => Undefined
      | Some magic =>
          if negb (magic =? CACHE_MAGIC) then Loaded false c
          else match version with
               | None => Undefined
               | Some version =>
                   if negb (version =? CACHE_VERSION) then Loaded false c
                   else match count with
                        | None => Undefined
                        | Some count =>
                            match load_entries (Z.to_nat count) s3 ∅ with
                            | None => Undefined
                            | Some m => Loaded true (with_map c m)
                            end
                        end
               end
      end
  end.

(** The header fields of a file image, as the format lays them out:
    [magic] at offset 0 and [version] at offset 4, little-endian. *)
Definition header_magic (bytes : list Z) : option Z := le32_decode (take 4 bytes).
Definition header_version (bytes : list Z) : option Z :=
  le32_decode (take 4 (drop 4 bytes)).

(** What the file format can hold: [wchar_t] code units, and lengths and an
    entry count that fit the [uint32_t] fields. *)
Definition storable_string (s : list Z) : Prop :=
  Z.of_nat (length s) < 4294967296 /\ Forall (fun c => 0 <= c < 65536) s.

Definition storable (m : gmap (list Z) (list Z)) : Prop :=
  Z.of_nat (size m) < 4294967296
  /\ forall k v, m !! k = Some v -> storable_string k /\ storable_string v.

Definition storable_entry (kv : list Z * list Z) : Prop :=
  storable_string kv.1 /\ storable_string kv.2.

(** [m_cache[original] = translated] for one decoded entry. *)
Definition put_entry (m : gmap (list Z) (list Z)) (kv : list Z * list Z) :
    gmap (list Z) (list Z) := <[kv.1 := kv.2]> m.

(** The public mutators and the lookup, as a client drives them. *)
Inductive Op : Type :=
| OpPut (original translated : list Z)
| OpGet (original : list Z)
| OpRemove (original : list Z)
| OpClear.

Definition apply `{HashOrder} (c : TranslationCache) (op : Op) : TranslationCache :=
  match op with
  | OpPut original translated => Put c original translated
  | OpGet original => (Get c original).2
  | OpRemove original => Remove c original
  | OpClear => Clear c
  end.

Definition run `{HashOrder} (ops : list Op) (c : TranslationCache) : TranslationCache :=
  foldl apply c ops.

End Cache.

(** [operator==] on strings. *)
Fixpoint str_eqb (a b : list Z) : bool :=
  match a, b with
  | [], [] => true
  | x :: a', y :: b' => (x =? y) && str_eqb a' b'
  | _, _ => false
  end.

(** [s.find(pattern) != npos] *)
Definition contains (s pattern : list Z) : bool :=
  match find s pattern 0 with Some _ => true | None => false end.

(** ** The pipe transport (ipc.cpp) *)

Module IPC.

Definition TRANSLATE_REQUEST : Z := 1.
Definition TRANSLATE_RESPONSE : Z := 101.
Definition CONFIG_UPDATE : Z := 102.
Definition SHUTDOWN : Z := 103.
Definition ERROR_BROKEN_PIPE : Z := 109.
Definition ERROR_PIPE_NOT_CONNECTED : Z := 233.
Definition sizeof_IPCMessage : nat := 12.

Record State : Type := mkIPC {
  g_connected : bool;
  g_hPipe_valid : bool;                      (* g_hPipe != INVALID_HANDLE_VALUE *)
  g_running : bool;
  g_nextRequestId : Z;
  g_pendingResponses : gmap Z (list Z);
  written : list (list Z)                    (* messages handed to WriteFile *)
}.

(** The static initialisers of ipc.cpp:13-22. *)
Definition initial : State := mkIPC false false false 1 ∅ [].

Definition IsConnected (st : State) : bool := g_connected st.

(** ipc.cpp:78-104; [write_ok] is the answer of [WriteFile]. *)
Definition SendTranslateRequest (write_ok : bool) (st : State) (text : list Z) :
    Z * State :=
  if negb (g_connected st) || negb (g_hPipe_valid st) then (0, st)
  else
    let requestId := g_nextRequestId st in
    let textBytes := Z.of_nat (length text) * sizeof_wchar_t in
    let buffer :=
      le32 TRANSLATE_REQUEST ++ le32 requestId ++ le32 (wrap32 textBytes) ++ wbytes text in
    let st' := mkIPC (g_connected st) (g_hPipe_valid st) (g_running st)
                 (wrap32 (requestId + 1)) (g_pendingResponses st)
                 (written st ++ [buffer]) in
    if write_ok then (requestId, st') else (0, st').

(** The critical section of the receive thread (ipc.cpp:178-181):
    [g_pendingResponses[msg->requestId] = translated]. *)
Definition store_response (st : State) (response : Z * list Z) : State :=
  mkIPC (g_connected st) (g_hPipe_valid st) (g_running st) (g_nextRequestId st)
    (<[response.1 := response.2]> (g_pendingResponses st)) (written st).

Definition store_responses (st : State) (responses : list (Z * list Z)) : State :=
  foldl store_response st responses.

(** One [ReadFile] of the receive thread.  The buffer has 65536 bytes
    (ipc.cpp:141): a successful read delivers at most that many, so only
    events [ReadOk buffer bytesRead] with [bytesRead] and the part of the
    buffer that is looked at within 65536 bytes occur; a longer message makes
    [ReadFile] fail. *)
Inductive ReadEvent : Type :=
| ReadFailed (error : Z)
| ReadOk (buffer : list Z) (bytesRead : nat).   (* the 64 KiB buffer after the read *)

(** One turn of the loop of [ReceiveThreadFunc] (ipc.cpp:143-203).  The
    payload length is taken from the header; code units that the buffer does
    not hold are not produced. *)
Definition ReceiveThread_step (st : State) (ev : ReadEvent) : State :=
  match ev with
  | ReadFailed error =>
      if (error =? ERROR_BROKEN_PIPE) || (error =? ERROR_PIPE_NOT_CONNECTED)
      then mkIPC false (g_hPipe_valid st) (g_running st) (g_nextRequestId st)
             (g_pendingResponses st) (written st)
      else st
  | ReadOk buffer bytesRead =>
      if (bytesRead <? sizeof_IPCMessage)%nat then st
      else
        match le32_decode (take 4 buffer),
              le32_decode (take 4 (drop 4 buffer)),
              le32_decode (take 4 (drop 8 buffer)) with
        | Some type, Some requestId, Some dataLength =>
            if type =? TRANSLATE_RESPONSE then
              let translated :=
                wunits (Z.to_nat (dataLength / sizeof_wchar_t)) (drop 12 buffer) in
              store_response st (requestId, translated)
            else if type =? SHUTDOWN then
              mkIPC (g_connected st) (g_hPipe_valid st) false (g_nextRequestId st)
                (g_pendingResponses st) (written st)
            else st
        | _, _, _ => st
        end
  end.

(** ipc.cpp:106-122.  The waiter holds the mutex except inside [wait_until].
    [wakeups] lists, for every wait that ends before the deadline, the
    responses the receive thread stored meanwhile; [final] lists those stored
    during the wait that ends with [cv_status::timeout]. *)
Fixpoint ReceiveTranslateResponse (st : State) (requestId : Z)
    (wakeups : list (list (Z * list Z))) (final : list (Z * list Z)) :
    option (list Z) * State :=
  match g_pendingResponses st !! requestId with
  | Some translatedText =>
      (Some translatedText,
       mkIPC (g_connected st) (g_hPipe_valid st) (g_running st) (g_nextRequestId st)
         (delete requestId (g_pendingResponses st)) (written st))
  | None =>
      match wakeups with
      | [] => (None, store_responses st final)
      | stored :: wakeups' =>
          ReceiveTranslateResponse (store_responses st stored) requestId wakeups' final
      end
  end.




End IPC.

(** ** The translation pipeline (translator.cpp) *)

Module Translator.

Record TranslatorStats : Type := mkStats {
  totalRequests : Z;
  cacheHits : Z;
  cacheMisses : Z;
  translationErrors : Z;
  averageLatencyMs : Z
}.

Record State : Type := mkState {
  g_initialized : bool;
  enabled : bool;                   (* g_config.enabled *)
  g_stats : TranslatorStats;
  globalCache : Cache.TranslationCache;
  ipc : IPC.State
}.

(** What happens around one [Translate] call: the answer of [WriteFile], the
    responses stored by the receive thread while the caller waits, and the two
    readings of the millisecond clock. *)
Record Env : Type := mkEnv {
  write_ok : bool;
  wakeups : list (list (Z * list Z));
  final : list (Z * list Z);
  startTime : Z;
  endTime : Z
}.

Section translate.
Context `{HashOrder}.

(** translator.cpp:39-78 *)
Definition Translate (env : Env) (st : State) (originalText : list Z) :
    list Z * State :=
  if negb (g_initialized st) || negb (enabled st) then (originalText, st)
  else
    let s := g_stats st in
    let s := mkStats (wrap64 (totalRequests s + 1)) (cacheHits s) (cacheMisses s)
               (translationErrors s) (averageLatencyMs s) in
    match Cache.Get (globalCache st) originalText with
    | (Some translated, cache') =>
        let s := mkStats (totalRequests s) (wrap64 (cacheHits s + 1)) (cacheMisses s)
                   (translationErrors s) (averageLatencyMs s) in
        (translated, mkState (g_initialized st) (enabled st) s cache' (ipc st))
    | (None, cache') =>
        let s := mkStats (totalRequests s) (cacheHits s) (wrap64 (cacheMisses s + 1))
                   (translationErrors s) (averageLatencyMs s) in
        if IPC.IsConnected (ipc st) then
          let '(requestId, ipc1) := IPC.SendTranslateRequest (write_ok env) (ipc st) originalText in
          let failed ipc' :=
            let s := mkStats (totalRequests s) (cacheHits s) (cacheMisses s)
                       (wrap64 (translationErrors s + 1)) (averageLatencyMs s) in
            (originalText, mkState (g_initialized st) (enabled st) s cache' ipc') in
          if negb (requestId =? 0) then
            match IPC.ReceiveTranslateResponse ipc1 requestId (wakeups env) (final env) with
            | (Some translated, ipc2) =>
                let latency := wrap64 (endTime env - startTime env) in
                let s := mkStats (totalRequests s) (cacheHits s) (cacheMisses s)
                           (translationErrors s)
                           (wrap64 (averageLatencyMs s + latency) / 2) in
                (translated,
                 mkState (g_initialized st) (enabled st) s
                   (Cache.Put cache' originalText translated) ipc2)
            | (None, ipc2) => failed ipc2
            end
          else failed ipc1
        else (originalText, mkState (g_initialized st) (enabled st) s cache' (ipc st))
    end.

End translate.

End Translator.

(** The translatability filter in the words of the specification: a
    candidate is not empty, has length between 3 and 500, and holds none of
    [/], [\], [{], [<]. *)
Definition spec_translatable (s : list Z) : bool :=
  negb (length s =? 0)%nat
  && (3 <=? length s)%nat && (length s <=? 500)%nat
  && forallb (fun c => negb ((c =? 47) || (c =? 92) || (c =? 123) || (c =? 60))) s.

(** ** The Unreal detour (hooks.cpp, ue_types.h) *)

Module Hooks.

(** [UE::FString]: [Data] is [None] for a null pointer, otherwise the code
    units of the allocation it points to. *)
Record FString : Type := mkFString {
  Data : option (list Z);
  ArrayNum : Z;
  ArrayMax : Z
}.

(** ue_types.h:18 *)
Definition Len (s : FString) : Z := if 0 <? ArrayNum s then ArrayNum s - 1 else 0.

Definition to_int32 (z : Z) : Z := (z + 2147483648) mod 4294967296 - 2147483648.

Definition COLON_COLON : list Z := [58; 58].   (* L"::" *)
Definition SLASH_SLASH : list Z := [47; 47].   (* L"//" *)

(** The guard of hooks.cpp:24-26. *)
Definition passes_guard (originalText : list Z) : bool :=
  (2 <? length originalText)%nat
  && negb (contains originalText COLON_COLON)
  && negb (contains originalText SLASH_SLASH).

Section detour.
Context `{HashOrder}.

(** hooks.cpp:16-44.  [result] is what [Original_FText_ToString] returned
    ([None] for a null pointer). *)
Definition Hooked_FText_ToString (env : Translator.Env) (st : Translator.State)
    (result : option FString) : option FString * Translator.State :=
  match result with
  | None => (None, st)
  | Some r =>
      match Data r with
      | None => (Some r, st)
      | Some data =>
          if 0 <? Len r then
            let originalText := take (Z.to_nat (Len r)) data in
            if passes_guard originalText then
              let '(translated, st') := Translator.Translate env st originalText in
              if negb (str_eqb translated originalText)
                 && negb (length translated =? 0)%nat then
                let len := Z.of_nat (length translated) in
                if len <? wrap64 (ArrayMax r) then
                  let n := Z.to_nat (ArrayMax r) in
                  let data' := strcpy_s (take n data) translated ++ drop n data in
                  (Some (mkFString (Some data') (to_int32 (len + 1)) (ArrayMax r)), st')
                else (Some r, st')
              else (Some r, st')
            else (Some r, st)
          else (Some r, st)
      end
  end.

End detour.

End Hooks.

(** ** The Mono detours (unity-translator-dll/src/main.cpp, ipc_client.h) *)

Module Unity.

Record IPCClient : Type := mkClient {
  m_Connected : bool;
  m_hPipe_valid : bool          (* m_hPipe != INVALID_HANDLE_VALUE *)
}.

(** ipc_client.h:70-72 *)
Definition IsConnected (c : IPCClient) : bool := m_Connected c && m_hPipe_valid c.

(** ipc_client.h:59-65 *)
Definition Disconnect (c : IPCClient) : IPCClient := mkClient false false.

(** What the pipe does during one [RequestTranslation].  [Answer r] is a
    completed exchange; [r] is the string that lines 118-155 extract from the
    reply, [None] when the reply has no ["translated":"..."] field. *)
Inductive PipeIO : Type :=
| WriteFails
| ReadFails
| Answer (result : option (list Z)).

(** ipc_client.h:77-156 *)
Definition RequestTranslation (io : PipeIO) (c : IPCClient) (text : list Z) :
    list Z * IPCClient :=
  if negb (IsConnected c) then (text, c)
  else match io with
       | WriteFails => (text, Disconnect c)
       | ReadFails => (text, Disconnect c)
       | Answer None => (text, c)
       | Answer (Some result) => (result, c)
       end.

Record State : Type := mkState {
  g_TranslationEnabled : bool;
  g_Initialized : bool;
  g_TranslationCache : gmap (list Z) (list Z);
  g_IPCClient : option IPCClient             (* [None] is the null pointer *)
}.

(** main.cpp:18-22 *)
Definition initial : State := mkState true false ∅ None.

(** Which original Mono function a detour ends up calling, and on what. *)
Inductive MonoCall : Type :=
| Original_mono_string_new (text : option (list Z))
| Original_mono_string_new_utf16 (text : option (list Z)) (len : Z).

Definition SLASH : Z := 47.
Definition BACKSLASH : Z := 92.
Definition LBRACE : Z := 123.
Definition LESS : Z := 60.

(** [strchr(text, c) != NULL] and [wtext.find(c) != npos] for a non-NUL [c]. *)
Definition has_char (text : list Z) (c : Z) : bool := existsb (Z.eqb c) text.

Definition looks_like_code (text : list Z) : bool :=
  has_char text SLASH || has_char text BACKSLASH
  || has_char text LBRACE || has_char text LESS.

Definition with_client (st : State) (c : option IPCClient) : State :=
  mkState (g_TranslationEnabled st) (g_Initialized st) (g_TranslationCache st) c.

(** The common tail of both detours (main.cpp:117-136 and 153-172):
    cache lookup, then the request; [fallback] is the call-through. *)
Definition lookup_or_request (io : PipeIO) (st : State) (wtext : list Z)
    (fallback : MonoCall) : MonoCall * State :=
  let request :=
    match g_IPCClient st with
    | Some c =>
        if IsConnected c then
          let '(translated, c') := RequestTranslation io c wtext in
          if negb (length translated =? 0)%nat && negb (str_eqb translated wtext) then
            (Original_mono_string_new_utf16 (Some translated) (Z.of_nat (length translated)),
             mkState (g_TranslationEnabled st) (g_Initialized st)
               (<[wtext := translated]> (g_TranslationCache st)) (Some c'))
          else (fallback, with_client st (Some c'))
        else (fallback, st)
    | None => (fallback, st)
    end in
  match g_TranslationCache st !! wtext with
  | Some second =>
      if negb (length second =? 0)%nat
      then (Original_mono_string_new_utf16 (Some second) (Z.of_nat (length second)), st)
      else request
  | None => request
  end.

Section detours.

(** [MultiByteToWideChar(CP_UTF8, 0, text, -1, ...)] on a NUL-terminated
    string: [None] when it reports [wlen <= 0], otherwise the [wlen - 1] code
    units it produces. *)
Variable MultiByteToWideChar : list Z -> option (list Z).

(** main.cpp:63-137; [text] holds the [strlen(text)] bytes before the NUL.
    The debug output of lines 64-94 is not represented. *)
Definition Hook_mono_string_new (io : PipeIO) (st : State) (text : option (list Z)) :
    MonoCall * State :=
  match text with
  | None => (Original_mono_string_new None, st)
  | Some bytes =>
      let through := (Original_mono_string_new text, st) in
      let len := length bytes in
      if negb (g_TranslationEnabled st) || negb (g_Initialized st) || (len <? 3)%nat
      then through
      else if (500 <? len)%nat then through
      else if looks_like_code bytes then through
      else match MultiByteToWideChar bytes with
           | None => through
           | Some wtext => lookup_or_request io st wtext (Original_mono_string_new text)
           end
  end.

End detours.

(** main.cpp:139-173; [text] holds the code units at the pointer, at least
    [len] of them. *)
Definition Hook_mono_string_new_utf16 (io : PipeIO) (st : State)
    (text : option (list Z)) (len : Z) : MonoCall * State :=
  let through := (Original_mono_string_new_utf16 text len, st) in
  match text with
  | None => through
  | Some units =>
      if negb (g_TranslationEnabled st) || negb (g_Initialized st)
         || (len <? 3) || (500 <? len)
      then through
      else
        let wtext := take (Z.to_nat len) units in
        if looks_like_code wtext then through
        else lookup_or_request io st wtext (Original_mono_string_new_utf16 text len)
  end.

(** Everything that touches the module state. *)
Inductive Event : Type :=
| EvStarted (connected : bool)       (* TranslatorThread reaches line 294 *)
| EvReconnect (connected : bool)     (* main.cpp:299-301 *)
| EvStringNew (io : PipeIO) (text : option (list Z))
| EvStringNewUtf16 (io : PipeIO) (text : option (list Z)) (len : Z)
| EvToggleTranslation
| EvClearCache
| EvCleanup.

Section run.
Variable MultiByteToWideChar : list Z -> option (list Z).

Definition step (st : State) (ev : Event) : State :=
  match ev with
  | EvStarted connected =>
      mkState (g_TranslationEnabled st) true (g_TranslationCache st)
        (Some (mkClient connected connected))
  | EvReconnect connected =>
      match g_IPCClient st with
      | Some c =>
          if IsConnected c then st
          else with_client st (Some (if m_Connected c then c else mkClient connected connected))
      | None => st
      end
  | EvStringNew io text => (Hook_mono_string_new MultiByteToWideChar io st text).2
  | EvStringNewUtf16 io text len => (Hook_mono_string_new_utf16 io st text len).2
  | EvToggleTranslation =>
      mkState (negb (g_TranslationEnabled st)) (g_Initialized st)
        (g_TranslationCache st) (g_IPCClient st)
  | EvClearCache =>
      mkState (g_TranslationEnabled st) (g_Initialized st) ∅ (g_IPCClient st)
  | EvCleanup => mkState (g_TranslationEnabled st) false ∅ None
  end.

Definition run (events : list Event) (st : State) : State := foldl step st events.

End run.

(** What C10 says of the cache: no entry has an empty value or a value equal
    to its key. *)
Definition cache_ok (m : gmap (list Z) (list Z)) : Prop :=
  forall k v, m !! k = Some v -> v <> [] /\ v <> k.

End Unity.

(** ** The JSON text of the Unity client (ipc_client.h) *)

Module Wire.

(** ipc_client.h:90-97, one [char] of [utf8Text]. *)
Definition escape_char (c : Z) : list Z :=
  if c =? 34 then [92; 34]              (* a quote *)
  else if c =? 92 then [92; 92]         (* a backslash *)
  else if c =? 10 then [92; 110]        (* a line feed *)
  else if c =? 13 then [92; 114]        (* a carriage return *)
  else if c =? 9 then [92; 116]         (* a tab *)
  else if negb (c =? 0) then [c]
  else [].

Definition escape (utf8Text : list Z) : list Z := flat_map escape_char utf8Text.

(** ipc_client.h:130-143 *)
Fixpoint unescape (translatedUtf8 : list Z) : list Z :=
  match translatedUtf8 with
  | [] => []
  | c :: rest =>
      if c =? 92 then
        match rest with
        | next :: rest' =>
            if next =? 110 then 10 :: unescape rest'
            else if next =? 114 then 13 :: unescape rest'
            else if next =? 116 then 9 :: unescape rest'
            else if next =? 34 then 34 :: unescape rest'
            else if next =? 92 then 92 :: unescape rest'
            else c :: unescape rest
        | [] => [c]
        end
      else c :: unescape rest
  end.

(** The key searched for in the reply, with the quote that opens its value;
    fourteen characters. *)
Definition TRANSLATED_KEY : list Z :=
  [34; 116; 114; 97; 110; 115; 108; 97; 116; 101; 100; 34; 58; 34].

(** ipc_client.h:116-127 on the [bytesRead] bytes of the reply: [None] stands
    for the two [return text] exits. *)
Definition response_field (buffer : list Z) : option (list Z) :=
  let response := c_str buffer in
  match find response TRANSLATED_KEY 0 with
  | None => None
  | Some pos =>
      let pos := (pos + 14)%nat in
      match find response [34] pos with
      | None => None
      | Some endPos => Some (take (endPos - pos) (drop pos response))
      end
  end.

(** ipc_client.h:116-146: the UTF-8 text that is converted and returned. *)
Definition response_text (buffer : list Z) : option (list Z) :=
  match response_field buffer with
  | None => None
  | Some translatedUtf8 => Some (c_str (unescape translatedUtf8))
  end.

End Wire.

(** ** Utilities of the Unreal module (utils.cpp) *)

Module Utils.

(** [isspace] and the value of a hexadecimal digit in the C locale. *)
Definition isspace (c : Z) : bool := (c =? 32) || ((9 <=? c) && (c <=? 13)).

Definition hex_value (c : Z) : option Z :=
  if (48 <=? c) && (c <=? 57) then Some (c - 48)
  else if (97 <=? c) && (c <=? 102) then Some (c - 87)
  else if (65 <=? c) && (c <=? 70) then Some (c - 55)
  else None.

(** [strtol(byte, nullptr, 16)] on the string of the two non-NUL characters
    [c1 c2]: white space, then an optional sign, then the digits; without a
    digit the result is 0, and ["0x"] without a digit after it is the ["0"]. *)
Definition strtol16 (c1 c2 : Z) : Z :=
  if isspace c1 then default 0 (hex_value c2)
  else if c1 =? 43 then default 0 (hex_value c2)
  else if c1 =? 45 then - default 0 (hex_value c2)
  else match hex_value c1 with
       | Some h1 =>
           match hex_value c2 with
           | Some h2 => 16 * h1 + h2
           | None => h1
           end
       | None => 0
       end.

(** utils.cpp:47-64 on the characters of [signature] before its NUL.  [None]:
    a lone last character is taken as a pair, and [sig += 2] steps over the
    terminator. *)
Fixpoint parse_signature (sig : list Z) : option (list Z) :=
  match sig with
  | [] => Some []
  | c :: sig' =>
      if c =? 32 then parse_signature sig'
      else if c =? 63 then
        match sig' with
        | c2 :: sig'' =>
            if c2 =? 63 then cons (-1) <$> parse_signature sig''
            else cons (-1) <$> parse_signature sig'
        | [] => Some [-1]
        end
      else
        match sig' with
        | c2 :: sig'' => cons (strtol16 c c2) <$> parse_signature sig''
        | [] => None
        end
  end.

(** utils.cpp:73-80, the inner loop at offset [i]; [None] is a read outside
    the [size] bytes of the region. *)
Fixpoint compare_at (data pattern : list Z) (i : nat) : option bool :=
  match pattern with
  | [] => Some true
  | p :: pattern' =>
      if negb (p =? -1) then
        match data !! i with
        | None => None
        | Some d =>
            if negb (d =? p mod 256) then Some false
            else compare_at data pattern' (S i)
        end
      else compare_at data pattern' (S i)
  end.

Inductive PatternResult : Type :=
| Returned (address : Z)
| ReadOutside                  (* a read left the region or the signature *)
| StillScanning.               (* still looping when the fuel ran out *)

(** utils.cpp:72-87: [for (size_t i = 0; i < size - patternSize; i++)]. *)
Fixpoint scan (fuel : nat) (start : Z) (data pattern : list Z) (i bound : Z) :
    PatternResult :=
  match fuel with
  | O => StillScanning
  | S fuel' =>
      if i <? bound then
        match compare_at data pattern (Z.to_nat i) with
        | None => ReadOutside
        | Some true => Returned (wrap64 (start + i))
        | Some false => scan fuel' start data pattern (wrap64 (i + 1)) bound
        end
      else Returned 0
  end.

(** utils.cpp:45-88; [data] holds the [size] bytes at [start]. *)
Definition PatternScanEx (fuel : nat) (start : Z) (data : list Z) (signature : list Z) :
    PatternResult :=
  match parse_signature (c_str signature) with
  | None => ReadOutside
  | Some pattern =>
      match pattern with
      | [] => Returned 0
      | _ :: _ =>
          scan fuel start data pattern 0
            (wrap64 (Z.of_nat (length data) - Z.of_nat (length pattern)))
      end
  end.

(** [std::wstring::find_last_of(chars)]. *)
Fixpoint find_last_of (s chars : list Z) : option nat :=
  match s with
  | [] => None
  | c :: s' =>
      match find_last_of s' chars with
      | Some pos => Some (S pos)
      | None => if existsb (Z.eqb c) chars then Some 0%nat else None
      end
  end.

Definition SEPARATORS : list Z := [92; 47].   (* L"\\/" *)

(** utils.cpp:124-131 and 133-141; [path] is what [GetModulePath] returned. *)
Definition GetGameDirectory (path : list Z) : list Z :=
  match find_last_of path SEPARATORS with
  | Some pos => take pos path
  | None => path
  end.

Definition FNV_OFFSET : Z := 14695981039346656037.
Definition FNV_PRIME : Z := 1099511628211.

(** utils.cpp:218-226 *)
Definition HashString (str : list Z) : Z :=
  foldl (fun hash c => wrap64 (Z.lxor hash c * FNV_PRIME)) FNV_OFFSET str.

End Utils.

(** ** Reading and writing the target (memory_utils.cc) *)

Module MemoryAccess.

(** memory_utils.cc:101-116 once [OpenProcess] has succeeded.  [read] is the
    answer of [ReadProcessMemory]: [None] for failure, otherwise [bytesRead]. *)
Definition ReadMemory (read : option nat) (p : Injector.Process) (address : Z)
    (size : Z) : option (list Z) :=
  match read with
  | Some bytesRead => Some (Injector.read_range (Injector.memory p) address bytesRead)
  | None => None
  end.

(** memory_utils.cc:132-149 once [OpenProcess] has succeeded. *)
Definition WriteMemory (os : Injector.Oracle) (p : Injector.Process) (address : Z)
    (data : list Z) : bool * Injector.Process :=
  let size := Z.of_nat (length data) in
  match Injector.VirtualProtectEx (Injector.protect_result os) p address size
          Injector.PAGE_EXECUTE_READWRITE with
  | (None, p1) => (false, p1)
  | (Some oldProtect, p1) =>
      let '(success, p2) :=
        Injector.WriteProcessMemory (Injector.write_result os) p1 address data in
      let '(_, p3) :=
        Injector.VirtualProtectEx (Injector.restore_result os) p2 address size oldProtect in
      (success, p3)
  end.

End MemoryAccess.

(** ** Start and stop of the pipeline (translator.cpp) *)

Module Session.

(** translator.h:9-16, the fields the code reads. *)
Record TranslatorConfig : Type := mkConfig {
  enabled : bool;
  cacheEnabled : bool;
  cachePath : list Z
}.

Record State : Type := mkSession {
  g_config : TranslatorConfig;
  g_initialized : bool;
  globalCache : Cache.TranslationCache;
  disk : FileSystem
}.

Section session.
Context `{HashOrder}.

(** translator.cpp:97-100 *)
Definition SaveCache (st : State) : bool * State :=
  match cachePath (g_config st) with
  | [] => (false, st)
  | _ :: _ =>
      let '(ok, fs) := Cache.SaveToFile (globalCache st) (disk st) (cachePath (g_config st)) in
      (ok, mkSession (g_config st) (g_initialized st) (globalCache st) fs)
  end.

(** translator.cpp:102-105; [None] when the load used an indeterminate value. *)
Definition LoadCache (st : State) : option (bool * State) :=
  match cachePath (g_config st) with
  | [] => Some (false, st)
  | _ :: _ =>
      match Cache.LoadFromFile (globalCache st) (disk st) (cachePath (g_config st)) with
      | Cache.Loaded ok c =>
          Some (ok, mkSession (g_config st) (g_initialized st) c (disk st))
      | Cache.Undefined => None
      end
  end.

(** translator.cpp:14-26 *)
Definition InitializeTranslator (st : State) (config : TranslatorConfig) :
    option State :=
  let st := mkSession config (g_initialized st) (globalCache st) (disk st) in
  let loaded :=
    if cacheEnabled config && negb (length (cachePath config) =? 0)%nat
    then snd <$> LoadCache st
    else Some st in
  match loaded with
  | Some st => Some (mkSession (g_config st) true (globalCache st) (disk st))
  | None => None
  end.

(** translator.cpp:28-37 *)
Definition ShutdownTranslator (st : State) : State :=
  if negb (g_initialized st) then st
  else
    let st := if cacheEnabled (g_config st) then (SaveCache st).2 else st in
    mkSession (g_config st) false (globalCache st) (disk st).

End session.

End Session.

(** ** The FText detour of the second Unreal module (ue-translator-dll) *)

Module UEText.

Record State : Type := mkState {
  g_TranslationEnabled : bool;
  g_TranslationCache : gmap (list Z) (list Z);
  g_IPCClient : option bool      (* [None]: null pointer; else [IsConnected()] *)
}.

(** main.cpp:25-33 *)
Definition initial : State := mkState true ∅ None.

(** One [RequestTranslation] of this module's client, whose header is not
    among the sources: the string it returns and whether the client is still
    connected afterwards. *)
Record Exchange : Type := mkExchange {
  returned : list Z;
  connected_after : bool
}.

(** main.cpp:38-61 *)
Definition TranslateText (x : Exchange) (st : State) (originalText : list Z) :
    list Z * State :=
  if negb (g_TranslationEnabled st) || (length originalText =? 0)%nat
  then (originalText, st)
  else
    match g_TranslationCache st !! originalText with
    | Some second => (second, st)
    | None =>
        match g_IPCClient st with
        | Some true =>
            let translated := returned x in
            let client := Some (connected_after x) in
            if negb (length translated =? 0)%nat && negb (str_eqb translated originalText)
            then (translated,
                  mkState (g_TranslationEnabled st)
                    (<[originalText := translated]> (g_TranslationCache st)) client)
            else (originalText,
                  mkState (g_TranslationEnabled st) (g_TranslationCache st) client)
        | _ => (originalText, st)
        end
    end.

(** text_hooks.h:35-47.  [str] holds the [wcslen(str)] code units before the
    NUL; the result is the string handed to [Original_FText_FromString]. *)
Definition Hook_FText_FromString (x : Exchange) (st : State) (str : option (list Z)) :
    option (list Z) * State :=
  match str with
  | None => (None, st)
  | Some original =>
      if (0 <? length original)%nat then
        let '(translated, st') := TranslateText x st original in
        if negb (str_eqb translated original)
        then (Some (c_str translated), st')
        else (Some original, st')
      else (Some original, st)
  end.

(** Everything that touches the module state. *)
Inductive Event : Type :=
| EvConnect (connected : bool)       (* main.cpp:114-115 and 130-133 *)
| EvFromString (x : Exchange) (str : option (list Z))
| EvTranslateText (x : Exchange) (originalText : list Z)
| EvToggleTranslation                (* main.cpp:169-176 *)
| EvClearCache                       (* main.cpp:189-193 *)
| EvCleanup.                         (* main.cpp:91-105 *)

Definition step (st : State) (ev : Event) : State :=
  match ev with
  | EvConnect connected =>
      match g_IPCClient st with
      | Some true => st
      | _ => mkState (g_TranslationEnabled st) (g_TranslationCache st) (Some connected)
      end
  | EvFromString x str => (Hook_FText_FromString x st str).2
  | EvTranslateText x originalText => (TranslateText x st originalText).2
  | EvToggleTranslation =>
      mkState (negb (g_TranslationEnabled st)) (g_TranslationCache st) (g_IPCClient st)
  | EvClearCache => mkState (g_TranslationEnabled st) ∅ (g_IPCClient st)
  | EvCleanup => mkState (g_TranslationEnabled st) ∅ None
  end.

Definition run (events : list Event) (st : State) : State := foldl step st events.

End UEText.

(** ** Vocabulary for the scanners *)

(** [pattern] occurs in [s] at index [p]. *)
Definition occurs_at (s pattern : list Z) (p : nat) : bool :=
  (p <=? length s)%nat && is_prefix pattern (drop p s).

(** The indices of [found] are in increasing order, none before [from], each
    at least [gap] after the one before. *)
Fixpoint spaced (gap from : nat) (found : list nat) : Prop :=
  match found with
  | [] => True
  | p :: found' => (from <= p)%nat /\ spaced gap (p + gap) found'
  end.

(** What [ComparePattern] decides when nothing is out of bounds: every
    position whose mask character is ['x'] holds the pattern byte. *)
Fixpoint masked_match (data pattern mask : list Z) {struct mask} : bool :=
  match mask with
  | [] => true
  | m :: mask' =>
      match data, pattern with
      | d :: data', q :: pattern' =>
          (negb (m =? 120) || (d =? q)) && masked_match data' pattern' mask'
      | _, _ => true
      end
  end.

(** ** Vocabulary for the cache *)

(** How many of the operations are lookups. *)
Definition count_gets (ops : list Cache.Op) : nat :=
  length (List.filter (fun op => match op with Cache.OpGet _ => true | _ => false end) ops).

(** The image of a cache file holding [count] in its header and the entries
    of [l] in that order, followed by [tl]. *)
Definition file_image (count : Z) (l : list (list Z * list Z)) (tl : list Z) : list Z :=
  le32 Cache.CACHE_MAGIC ++ le32 Cache.CACHE_VERSION ++ le32 count
  ++ flat_map Cache.entry_bytes l ++ tl.

(** ** Vocabulary for the transport and the pipeline *)

(** Successive calls of [IPC::SendTranslateRequest], each with the answer of
    its [WriteFile]; the request ids they return, in order. *)
Fixpoint sends (st : IPC.State) (requests : list (bool * list Z)) : list Z * IPC.State :=
  match requests with
  | [] => ([], st)
  | (write_ok, text) :: requests' =>
      let '(requestId, st1) := IPC.SendTranslateRequest write_ok st text in
      let '(ids, st2) := sends st1 requests' in
      (requestId :: ids, st2)
  end.

(** Successive calls of [Translate], each in its own environment. *)
Definition translate_all `{HashOrder} (st : Translator.State)
    (calls : list (Translator.Env * list Z)) : Translator.State :=
  foldl (fun st call => (Translator.Translate call.1 st call.2).2) st calls.

(** The statistics of the pipeline agree with each other and with the
    counters of the cache. *)
Definition stats_consistent (st : Translator.State) : Prop :=
  let s := Translator.g_stats st in
  Translator.totalRequests s
  = wrap64 (Translator.cacheHits s + Translator.cacheMisses s)
  /\ Translator.cacheHits s = Cache.m_hits (Translator.globalCache st)
  /\ Translator.cacheMisses s = Cache.m_misses (Translator.globalCache st)
  /\ 0 <= Translator.cacheHits s < 18446744073709551616
  /\ 0 <= Translator.cacheMisses s < 18446744073709551616.

(** ** Vocabulary for the signature scan *)

(** [pattern], in which [-1] stands for any byte, agrees with the bytes of
    [data] from offset [i] on. *)
Fixpoint matches_at (data pattern : list Z) (i : nat) : bool :=
  match pattern with
  | [] => true
  | p :: pattern' =>
      ((p =? -1) || bool_decide (data !! i = Some (p mod 256)))
      && matches_at data pattern' (S i)
  end.

(** A signature as ue_types.h writes them: two upper-case hexadecimal digits
    for a byte, [??] for a wildcard, one space between. *)
Definition hex_digit (d : Z) : Z := if d <? 10 then 48 + d else 55 + d.

Definition print_byte (p : Z) : list Z :=
  if p =? -1 then [63; 63] else [hex_digit (p / 16); hex_digit (p mod 16)].

Fixpoint print_signature (pattern : list Z) : list Z :=
  match pattern with
  | [] => []
  | p :: pattern' =>
      match pattern' with
      | [] => print_byte p
      | _ :: _ => print_byte p ++ 32 :: print_signature pattern'
      end
  end.

Definition signature_element (p : Z) : Prop := p = -1 \/ 0 <= p < 256.

Definition code_unit (c : Z) : Prop := 0 <= c < 65536.

(** One round of the loop of [HashString], and the inverse of the FNV prime
    modulo 2^64. *)
Definition fnv_step (hash c : Z) : Z := wrap64 (Z.lxor hash c * Utils.FNV_PRIME).

Definition FNV_PRIME_INVERSE : Z := 14886173955864302971.

(** ** Sample inputs *)

Module Samples.

(** A target whose memory is all zero, with no call issued yet, and a system
    that grants the protection change and the write. *)
Definition blank_process : Injector.Process := Injector.mkProcess (fun _ => 0) [].
Definition os_grants : Injector.Oracle := Injector.mkOracle (Some 4) true (Some 64).

Definition Start_Game : list Z := [83; 116; 97; 114; 116; 32; 71; 97; 109; 101].
Definition Inizia : list Z := [73; 110; 105; 122; 105; 97].
Definition Hi : list Z := [72; 105].
Definition Ciao : list Z := [67; 105; 97; 111].
Definition abcd : list Z := [97; 98; 99; 100].
Definition a_NUL_b : list Z := [97; 0; 98].

Definition OK : list Z := [79; 75].
Definition Play : list Z := [80; 108; 97; 121].
Definition Gioca : list Z := [71; 105; 111; 99; 97].

(** Three [Put]s into a cache. *)
Definition three_puts : list Cache.Op :=
  [Cache.OpPut Hi Ciao; Cache.OpPut OK OK; Cache.OpPut Play Gioca].

Definition cache_path : list Z := [99; 46; 100; 97; 116].   (* L"c.dat" *)

(** A cache file whose first byte, the low byte of the magic, is zeroed. *)
Definition corrupted_file : list Z :=
  [0; 84; 83; 71; 1; 0; 0; 0; 1; 0; 0; 0;
   2; 0; 0; 0; 79; 0; 75; 0; 2; 0; 0; 0; 79; 0; 75; 0].

Definition disk_with (bytes : list Z) : FileSystem :=
  mkFS {[ cache_path := bytes ]} (fun _ => true).

Definition empty_disk : FileSystem := mkFS ∅ (fun _ => true).

(** A key of 2^32 code units (8 GiB of text), and a cache holding it. *)
Definition giant_key : list Z := replicate (Z.to_nat 4294967296) 0.
Definition giant_cache : Cache.TranslationCache :=
  Cache.mkCache {[ giant_key := [] ]} 10000 0 0.

(** A connected transport with nothing pending, and a translator on it. *)
Definition connected_ipc : IPC.State := IPC.mkIPC true true true 1 ∅ [].

Definition fresh_translator : Translator.State :=
  Translator.mkState true true (Translator.mkStats 0 0 0 0 0)
    (Cache.new 10000) connected_ipc.

(** The request is written, and no response arrives before the deadline. *)
Definition env_timeout : Translator.Env := Translator.mkEnv true [] [] 1000 3000.

(** The request is written, and the receive thread stores the response
    ["Ciao"] for request 1 during the first wait. *)
Definition env_answer_Ciao : Translator.Env :=
  Translator.mkEnv true [[(1, Ciao)]] [] 1000 1040.

(** A reply of the Unity host with the single field [translated], whose
    value is [say "hi"] with a backslash before each of its two quotation
    marks. *)
Definition reply_say_hi : list Z :=
  [123; 34; 116; 114; 97; 110; 115; 108; 97; 116; 101; 100; 34; 58; 34;
   115; 97; 121; 32; 92; 34; 104; 105; 92; 34; 34; 125].

(** The signature [48 ?? 8B], and five bytes of code that end with a match. *)
Definition signature_48_any_8B : list Z := [52; 56; 32; 63; 63; 32; 56; 66].
Definition code_ending_in_match : list Z := [144; 144; 72; 1; 139].


Definition a_slash_b : list Z := [97; 47; 98].      (* L"a/b" *)
Definition x_dash_y : list Z := [120; 45; 121].     (* L"x-y" *)

(** The [FString] holding ["a/b"] in an allocation of eight code units, and a
    translator whose cache maps ["a/b"] to ["x-y"]. *)
Definition fstring_a_slash_b : Hooks.FString :=
  Hooks.mkFString (Some [97; 47; 98; 0; 0; 0; 0; 0]) 4 8.

Definition translator_knowing_a_slash_b : Translator.State :=
  Translator.mkState true true (Translator.mkStats 0 0 0 0 0)
    (Cache.mkCache {[ a_slash_b := x_dash_y ]} 10000 0 0) connected_ipc.

(** A UTF-8 decoder that is good enough for ASCII text. *)
Definition ascii_to_wide (bytes : list Z) : option (list Z) := Some bytes.

Definition Player : list Z := [80; 108; 97; 121; 101; 114].
Definition Giocatore : list Z := [71; 105; 111; 99; 97; 116; 111; 114; 101].

(** Scenario 4 of the specification: the module starts connected and
    [mono_string_new] sees ["Player"], answered by ["Giocatore"]. *)
Definition player_events : list Unity.Event :=
  [Unity.EvStarted true; Unity.EvStringNew (Unity.Answer (Some Giocatore)) (Some Player)].

(** A committed page of zero bytes, and a byte pattern one byte longer with
    an all-['x'] mask. *)
Definition zero_page : list Z := replicate 4096 0.
Definition long_needle : list Z := replicate 4097 0.
Definition long_mask : list Z := replicate 4097 120.

End Samples.

(** * Properties *)

(** ** Strings and buffers *)

Lemma c_str_no_nul (s : list Z) : Forall (fun c => c <> 0) s -> c_str s = s.
Proof.
  induction 1 as [|c s Hc _ IH]; simpl; [reflexivity|].
  destruct (Z.eqb_spec c 0); [contradiction|]. by rewrite IH.
Qed.

Lemma c_str_length (s : list Z) : (length (c_str s) <= length s)%nat.
Proof.
  induction s as [|c s IH]; simpl; [lia|].
  destruct (c =? 0); simpl; lia.
Qed.

Lemma wbytes_app (a b : list Z) : wbytes (a ++ b) = wbytes a ++ wbytes b.
Proof. unfold wbytes. apply flat_map_app. Qed.

Lemma wbytes_length (s : list Z) : length (wbytes s) = (2 * length s)%nat.
Proof. induction s as [|c s IH]; simpl; lia. Qed.

Lemma str_eqb_eq (a b : list Z) : str_eqb a b = true <-> a = b.
Proof.
  revert b. induction a as [|x a IH]; intros [|y b]; simpl; split; try done.
  - intros [Hxy Hab]%andb_true_iff. apply Z.eqb_eq in Hxy. apply IH in Hab. congruence.
  - intros [= -> ->]. rewrite Z.eqb_refl. simpl. by apply IH.
Qed.

Lemma str_eqb_refl (a : list Z) : str_eqb a a = true.
Proof. by apply str_eqb_eq. Qed.

Section PatcherProofs.
Import Injector.

Lemma fill_spaces_run (k : nat) : forall (a rest : list Z),
  foldl (fun b i => <[i := SPACE]> b) (a ++ replicate k 0 ++ rest) (seq (length a) k)
  = a ++ replicate k SPACE ++ rest.
Proof.
  induction k as [|k IH]; intros a rest; simpl; [reflexivity|].
  replace (<[length a := SPACE]> (a ++ 0 :: replicate k 0 ++ rest))
    with ((a ++ [SPACE]) ++ replicate k 0 ++ rest).
  - replace (S (length a)) with (length (a ++ [SPACE])) by (rewrite length_app; simpl; lia).
    rewrite IH. by rewrite <- app_assoc.
  - rewrite <- app_assoc. simpl.
    rewrite insert_app_r_alt by lia.
    by replace (length a - length a)%nat with 0%nat by lia.
Qed.

(** The scratch buffer holds the replacement, the padding, and the final NUL. *)
Lemma prepare_buffer_padded (original replacement : list Z) :
  (length replacement <= length original)%nat ->
  Forall (fun c => c <> 0) replacement ->
  prepare_buffer original replacement
  = replacement ++ replicate (length original - length replacement) SPACE ++ [0].
Proof.
  intros Hlen Hnul. unfold prepare_buffer, strcpy_s, fill_spaces.
  rewrite (c_str_no_nul _ Hnul).
  rewrite length_app, length_replicate. simpl.
  destruct (Nat.leb_spec (length replacement + 1) (length original + 1)); [|lia].
  rewrite drop_replicate.
  replace (length original + 1 - (length replacement + 1))%nat
    with (length original - length replacement)%nat by lia.
  rewrite <- app_assoc. simpl.
  change (0 :: replicate ?k 0) with (replicate (S k) 0).
  rewrite replicate_S_end.
  apply fill_spaces_run.
Qed.

Lemma read_write_bytes (mem : Z -> Z) (address : Z) (data : list Z) :
  read_range (write_bytes mem address data) address (length data) = data.
Proof.
  unfold read_range. apply list_eq. intros i.
  rewrite list_lookup_fmap.
  destruct (data !! i) as [x|] eqn:Hx.
  - pose proof (lookup_lt_Some _ _ _ Hx) as Hi.
    rewrite lookup_seq_lt by lia. simpl. f_equal.
    unfold write_bytes.
    destruct (Z.leb_spec address (address + Z.of_nat i)); [|lia].
    destruct (Z.ltb_spec (address + Z.of_nat i) (address + Z.of_nat (length data))); [|lia].
    simpl. replace (Z.to_nat (address + Z.of_nat i - address)) with i by lia.
    by rewrite Hx.
  - apply lookup_ge_None in Hx. rewrite lookup_seq_ge by lia. reflexivity.
Qed.

Lemma ReplaceTextInMemory_written (os : Oracle) (p : Process) (address : Z)
    (original replacement : list Z) :
  (length replacement <= length original)%nat ->
  (ReplaceTextInMemory os p address original replacement).1 = true ->
  memory (ReplaceTextInMemory os p address original replacement).2
  = write_bytes (memory p) address
      (take (2 * length original) (wbytes (prepare_buffer original replacement))).
Proof.
  intros Hlen. unfold ReplaceTextInMemory, sizeof_wchar_t.
  destruct (Nat.ltb_spec (length original) (length replacement)); [lia|].
  unfold VirtualProtectEx, WriteProcessMemory.
  destruct (protect_result os); simpl; [|discriminate].
  intros ->. simpl. do 2 f_equal. lia.
Qed.

Lemma ReplaceTextInMemoryASCII_written (os : Oracle) (p : Process) (address : Z)
    (original replacement : list Z) :
  (length replacement <= length original)%nat ->
  (ReplaceTextInMemoryASCII os p address original replacement).1 = true ->
  memory (ReplaceTextInMemoryASCII os p address original replacement).2
  = write_bytes (memory p) address
      (take (length original) (prepare_buffer original replacement)).
Proof.
  intros Hlen. unfold ReplaceTextInMemoryASCII.
  destruct (Nat.ltb_spec (length original) (length replacement)); [lia|].
  unfold VirtualProtectEx, WriteProcessMemory.
  destruct (protect_result os); simpl; [|discriminate].
  intros ->. simpl. do 2 f_equal. lia.
Qed.

End PatcherProofs.

(** ** The memory patcher *)

(** C1 (as amended).  When the replacement fits, holds no NUL code unit, and
    the patch reports success, the target range reads back as the replacement
    followed by [len(original) - len(replacement)] spaces: as little-endian
    UTF-16 code units on the wide path, as bytes on the narrow path. *)
Theorem C1_patch_writes_replacement_then_spaces :
  forall (os : Injector.Oracle) (p : Injector.Process) (address : Z)
         (original replacement : list Z),
    (length replacement <= length original)%nat ->
    Forall (fun c => c <> 0) replacement ->
    ((Injector.ReplaceTextInMemory os p address original replacement).1 = true ->
     Injector.read_range
       (Injector.memory (Injector.ReplaceTextInMemory os p address original replacement).2)
       address (2 * length original)
     = wbytes (replacement ++ replicate (length original - length replacement) SPACE))
    /\
    ((Injector.ReplaceTextInMemoryASCII os p address original replacement).1 = true ->
     Injector.read_range
       (Injector.memory (Injector.ReplaceTextInMemoryASCII os p address original replacement).2)
       address (length original)
     = replacement ++ replicate (length original - length replacement) SPACE).
Proof.
  intros os p address original replacement Hlen Hnul.
  pose proof (prepare_buffer_padded original replacement Hlen Hnul) as Hbuf.
  set (padded := replacement ++ replicate (length original - length replacement) SPACE).
  assert (Hpad : length padded = length original).
  { unfold padded. rewrite length_app, length_replicate. lia. }
  assert (Hbuf' : Injector.prepare_buffer original replacement = padded ++ [0]).
  { rewrite Hbuf. unfold padded. by rewrite <- app_assoc. }
  split; intros Hok.
  - rewrite (ReplaceTextInMemory_written _ _ _ _ _ Hlen Hok), Hbuf', wbytes_app.
    rewrite take_app_length' by (rewrite wbytes_length; lia).
    rewrite <- (read_write_bytes (Injector.memory p) address (wbytes padded)) at 2.
    f_equal. rewrite wbytes_length. lia.
  - rewrite (ReplaceTextInMemoryASCII_written _ _ _ _ _ Hlen Hok), Hbuf'.
    rewrite take_app_length' by lia.
    rewrite <- (read_write_bytes (Injector.memory p) address padded) at 2.
    f_equal. lia.
Qed.

(** Scenario 1 of the specification: ["Start Game"] patched with ["Inizia"]
    reads back as ["Inizia    "]. *)
Lemma C1_witness_Start_Game :
  Injector.read_range
    (Injector.memory
       (Injector.ReplaceTextInMemory Samples.os_grants Samples.blank_process 4096
          Samples.Start_Game Samples.Inizia).2)
    4096 (2 * length Samples.Start_Game)
  = wbytes (Samples.Inizia ++ replicate 4 SPACE).
Proof.
  apply (C1_patch_writes_replacement_then_spaces
           Samples.os_grants Samples.blank_process 4096 Samples.Start_Game Samples.Inizia).
  - simpl. lia.
  - repeat (constructor; [lia|]). constructor.
  - reflexivity.
Defined.

(** C1 as stated fails on the narrow path for a replacement with an embedded
    NUL: [strcpy_s] stops at the NUL, so ["a\0b"] over ["abcd"] writes
    [a, NUL, NUL, space], not [a, NUL, b, space]. *)
Lemma C1_counterexample_embedded_NUL :
  let r := Injector.ReplaceTextInMemoryASCII Samples.os_grants Samples.blank_process
             4096 Samples.abcd Samples.a_NUL_b in
  (length Samples.a_NUL_b <= length Samples.abcd)%nat
  /\ r.1 = true
  /\ Injector.read_range (Injector.memory r.2) 4096 (length Samples.abcd) = [97; 0; 0; 32]
  /\ Injector.read_range (Injector.memory r.2) 4096 (length Samples.abcd)
     <> Samples.a_NUL_b
        ++ replicate (length Samples.abcd - length Samples.a_NUL_b) SPACE.
Proof.
  simpl. repeat split; [lia | discriminate].
Qed.

(** C2.  A replacement strictly longer than the original makes the patch
    return failure with the target untouched: the same memory and no system
    call issued (so neither a protection change nor a write), on both paths;
    and the patch loops of [InjectTranslations] add nothing to the [injected]
    list for such a pair. *)
Theorem C2_too_long_replacement_rejected :
  forall (os : Injector.Oracle) (oss : Z -> Injector.Oracle) (p : Injector.Process)
         (address : Z) (original replacement : list Z)
         (addresses : list Z) (originalUtf8 translatedUtf8 : list Z)
         (injected : list Injector.InjectedItem),
    (length original < length replacement)%nat ->
    Injector.ReplaceTextInMemory os p address original replacement = (false, p)
    /\ Injector.ReplaceTextInMemoryASCII os p address original replacement = (false, p)
    /\ Injector.inject_UTF16 oss p addresses original replacement
         originalUtf8 translatedUtf8 injected = (injected, p)
    /\ Injector.inject_ASCII oss p addresses original replacement injected
       = (injected, p).
Proof.
  intros os oss p address original replacement addresses o8 t8 injected Hlong.
  assert (Hw : forall os a, Injector.ReplaceTextInMemory os p a original replacement = (false, p)).
  { intros os' a. unfold Injector.ReplaceTextInMemory.
    by destruct (Nat.ltb_spec (length original) (length replacement)); [|lia]. }
  assert (Ha : forall os a, Injector.ReplaceTextInMemoryASCII os p a original replacement = (false, p)).
  { intros os' a. unfold Injector.ReplaceTextInMemoryASCII.
    by destruct (Nat.ltb_spec (length original) (length replacement)); [|lia]. }
  repeat split; [apply Hw | apply Ha | |].
  - induction addresses as [|a rest IH]; simpl; [reflexivity|]. by rewrite Hw.
  - induction addresses as [|a rest IH]; simpl; [reflexivity|]. by rewrite Ha.
Qed.

(** Scenario 3 of the specification: the pair [("Hi", "Ciao")]. *)
Lemma C2_witness_Hi_Ciao :
  Injector.ReplaceTextInMemory Samples.os_grants Samples.blank_process 4096
    Samples.Hi Samples.Ciao = (false, Samples.blank_process)
  /\ Injector.ReplaceTextInMemoryASCII Samples.os_grants Samples.blank_process 4096
       Samples.Hi Samples.Ciao = (false, Samples.blank_process)
  /\ Injector.inject_UTF16 (fun _ => Samples.os_grants) Samples.blank_process
       [4096; 8192] Samples.Hi Samples.Ciao Samples.Hi Samples.Ciao []
     = ([], Samples.blank_process)
  /\ Injector.inject_ASCII (fun _ => Samples.os_grants) Samples.blank_process
       [4096; 8192] Samples.Hi Samples.Ciao [] = ([], Samples.blank_process).
Proof.
  apply (C2_too_long_replacement_rejected Samples.os_grants (fun _ => Samples.os_grants)
           Samples.blank_process 4096 Samples.Hi Samples.Ciao [4096; 8192]
           Samples.Hi Samples.Ciao []).
  simpl. lia.
Defined.

(** ** The scanners *)

Lemma find_empty_pattern (s : list Z) (pos : nat) :
  (pos <= length s)%nat -> find s [] pos = Some pos.
Proof.
  intros Hpos. unfold find.
  destruct (Nat.leb_spec pos (length s)); [|lia].
  by destruct (drop pos s).
Qed.

Lemma find_loop_empty_pattern (fuel : nat) : forall (s : list Z) (found : list nat),
  Injector.find_loop fuel s [] 0 found = None.
Proof.
  induction fuel as [|fuel IH]; intros s found; simpl; [reflexivity|].
  rewrite find_empty_pattern by lia. simpl. apply IH.
Qed.

Lemma is_prefix_length (pat s : list Z) :
  is_prefix pat s = true -> (length pat <= length s)%nat.
Proof.
  revert s. induction pat as [|a pat IH]; intros [|b s]; simpl; try lia; try discriminate.
  intros [_ Hp]%andb_true_iff. apply IH in Hp. lia.
Qed.

Lemma find_at_too_long (s pat : list Z) (i : nat) :
  (length s < length pat)%nat -> find_at s pat i = None.
Proof.
  revert i. induction s as [|b s IH]; intros i Hlen; simpl.
  - destruct pat; [simpl in Hlen; lia | reflexivity].
  - destruct (is_prefix pat (b :: s)) eqn:Hp.
    + apply is_prefix_length in Hp. simpl in *. lia.
    + apply IH. simpl in Hlen. lia.
Qed.

Lemma wunits_length_le (n : nat) : forall bs : list Z,
  (length (wunits n bs) <= length bs)%nat.
Proof.
  induction n as [|n IH]; intros bs; simpl; [lia|].
  destruct bs as [|lo [|hi bs]]; simpl; try lia.
  specialize (IH bs). lia.
Qed.

(** The part of C8 that the code does satisfy: in the text modes a needle
    longer than the region snapshot yields no match, and the loop ends. *)
Lemma text_scan_needle_longer_than_region (fuel : nat) (addr : Z) (buffer pattern : list Z) :
  (length buffer < length pattern)%nat ->
  Injector.scan_region_ASCII (S fuel) addr buffer pattern = Some []
  /\ Injector.scan_region_UTF16 (S fuel) addr buffer pattern = Some [].
Proof.
  intros Hlen.
  pose proof (wunits_length_le (length buffer / 2) buffer) as Hw.
  unfold Injector.scan_region_ASCII, Injector.scan_region_UTF16.
  remember (wunits (length buffer / 2) buffer) as bufferStr.
  simpl. unfold find. simpl. rewrite !drop_0.
  rewrite (find_at_too_long buffer) by lia.
  rewrite (find_at_too_long bufferStr) by lia. done.
Qed.

(** In the byte-pattern mode an empty pattern with an empty mask matches at
    every offset of every region, the one past the last byte included. *)
Lemma scan_loop_empty_mask (n : nat) :
  forall (fuel : nat) (buffer : list Z) (i bound : Z) (results : list Z),
    0 <= i -> bound + 1 - i = Z.of_nat n -> bound < 18446744073709551615 ->
    (n < fuel)%nat ->
    MemoryUtils.scan_loop fuel buffer [] [] i bound results
    = MemoryUtils.ScanDone (results ++ map (fun k => i + Z.of_nat k) (seq 0 n)).
Proof.
  induction n as [|n IH]; intros fuel buffer i bound results Hi Hn Hbound Hfuel;
    (destruct fuel as [|fuel]; [lia|]); cbn [MemoryUtils.scan_loop].
  - destruct (Z.ltb_spec bound i); [|lia]. by rewrite app_nil_r.
  - destruct (Z.ltb_spec bound i); [lia|]. cbn [MemoryUtils.ComparePattern].
    unfold wrap64. rewrite Z.mod_small by lia.
    rewrite IH by lia. f_equal. rewrite <- app_assoc. f_equal.
    cbn [seq map app]. rewrite Z.add_0_r. f_equal.
    rewrite <- seq_shift, map_map. apply map_ext. intros k. lia.
Qed.

Lemma byte_scan_empty_needle (fuel : nat) (buffer : list Z) :
  Z.of_nat (length buffer) < 18446744073709551615 ->
  (S (length buffer) < fuel)%nat ->
  MemoryUtils.ScanRegion fuel buffer [] []
  = MemoryUtils.ScanDone (map Z.of_nat (seq 0 (S (length buffer)))).
Proof.
  intros Hlen Hfuel. unfold MemoryUtils.ScanRegion, MemoryUtils.scan_bound, wrap64.
  cbn [MemoryUtils.to_uint8 map length]. rewrite Z.sub_0_r, Z.mod_small by lia.
  rewrite (scan_loop_empty_mask (S (length buffer))) by lia.
  reflexivity.
Qed.

(** C8, the code at the boundary inputs.  With an empty needle the text scan
    of any region never leaves its loop (no amount of fuel lets it return).
    The byte-pattern scan of a zeroed 4096-byte region with an empty pattern
    and mask reports 4097 matches, one per offset from 0 to 4096.  With a
    4097-byte pattern and a mask of 4097 ['x'] the byte-pattern scan of that
    region reads past the snapshot: [bytesRead - pattern.size()] wraps around
    and the first comparison runs off the end of the buffer. *)
Theorem C8_scan_boundary_behaviour :
  (forall (fuel : nat) (addr : Z) (buffer : list Z),
      Injector.scan_region_UTF16 fuel addr buffer [] = None
      /\ Injector.scan_region_ASCII fuel addr buffer [] = None)
  /\ MemoryUtils.ScanRegion 4098 Samples.zero_page [] []
     = MemoryUtils.ScanDone (map Z.of_nat (seq 0 4097))
  /\ (forall fuel : nat,
        MemoryUtils.ScanRegion (S fuel) Samples.zero_page
          Samples.long_needle Samples.long_mask
        = MemoryUtils.ScanOutOfBounds).
Proof.
  split; [|split].
  - intros fuel addr buffer.
    unfold Injector.scan_region_UTF16, Injector.scan_region_ASCII.
    by rewrite !find_loop_empty_pattern.
  - vm_compute. reflexivity.
  - intros fuel. vm_compute. reflexivity.
Qed.

(** ** The translation cache *)

Section CacheProofs.
Context `{HashOrder}.
Import Cache.

Lemma iteration_nil (m : gmap (list Z) (list Z)) : iteration m = [] -> m = ∅.
Proof.
  intros Hnil. apply map_to_list_empty_iff, Permutation_nil_r.
  rewrite <- Hnil. symmetry. apply iteration_perm.
Qed.

Lemma iteration_lookup (m : gmap (list Z) (list Z)) (k v : list Z) :
  (k, v) ∈ iteration m <-> m !! k = Some v.
Proof. rewrite iteration_perm. apply elem_of_map_to_list. Qed.

Lemma iteration_length (m : gmap (list Z) (list Z)) : length (iteration m) = size m.
Proof. rewrite iteration_perm. apply length_map_to_list. Qed.

(** [EvictOldest] on a non-empty map erases exactly one present key. *)
Lemma EvictOldest_erases_one (c : TranslationCache) :
  m_cache c <> ∅ ->
  exists victim, is_Some (m_cache c !! victim)
    /\ EvictOldest c = with_map c (delete victim (m_cache c)).
Proof.
  intros Hne. unfold EvictOldest.
  destruct (iteration (m_cache c)) as [|[k v] l] eqn:Hit.
  - by apply iteration_nil in Hit.
  - exists k. split; [|reflexivity].
    exists v. apply iteration_lookup. rewrite Hit. apply list_elem_of_here.
Qed.

Lemma Put_size_bound (c : TranslationCache) (k v : list Z) :
  1 <= m_maxSize c ->
  Z.of_nat (size (m_cache c)) <= m_maxSize c ->
  Z.of_nat (size (m_cache (Put c k v))) <= m_maxSize c
  /\ m_maxSize (Put c k v) = m_maxSize c.
Proof.
  intros Hmax Hsize. unfold Put.
  destruct (Z.leb_spec (m_maxSize c) (Z.of_nat (size (m_cache c)))) as [Hfull|Hroom].
  - assert (Hne : m_cache c <> ∅).
    { intros Hempty. rewrite Hempty, map_size_empty in Hfull. lia. }
    destruct (EvictOldest_erases_one c Hne) as (victim & Hin & ->). simpl.
    split; [|reflexivity].
    pose proof (map_size_delete_Some victim (m_cache c) Hin) as Hdel.
    assert (size (m_cache c) <> 0%nat) by by apply map_size_non_empty_iff.
    rewrite map_size_insert.
    destruct (delete victim (m_cache c) !! k); simpl; lia.
  - simpl. split; [|reflexivity].
    rewrite map_size_insert. destruct (m_cache c !! k); simpl; lia.
Qed.

Lemma apply_size_bound (c : TranslationCache) (op : Op) :
  1 <= m_maxSize c ->
  Z.of_nat (size (m_cache c)) <= m_maxSize c ->
  Z.of_nat (size (m_cache (apply c op))) <= m_maxSize c
  /\ m_maxSize (apply c op) = m_maxSize c.
Proof.
  intros Hmax Hsize. destruct op as [k v|k|k|]; simpl.
  - by apply Put_size_bound.
  - unfold Get. destruct (m_cache c !! k); simpl; done.
  - split; [|reflexivity].
    rewrite map_size_delete. destruct (m_cache c !! k); simpl; lia.
  - rewrite map_size_empty. lia.
Qed.

Lemma run_size_bound (ops : list Op) : forall c : TranslationCache,
  1 <= m_maxSize c ->
  Z.of_nat (size (m_cache c)) <= m_maxSize c ->
  Z.of_nat (size (m_cache (run ops c))) <= m_maxSize c.
Proof.
  induction ops as [|op ops IH]; intros c Hmax Hsize; simpl; [done|].
  destruct (apply_size_bound c op Hmax Hsize) as [Hs Hm].
  unfold run in IH. rewrite <- Hm. apply IH; by rewrite Hm.
Qed.

Lemma apply_maxSize (c : TranslationCache) (op : Op) :
  m_maxSize (apply c op) = m_maxSize c.
Proof.
  destruct op as [k v|k|k|]; simpl; try reflexivity.
  - unfold Put. destruct (_ <=? _); [|reflexivity].
    unfold EvictOldest. by destruct (iteration _) as [|[] ?].
  - unfold Get. by destruct (_ !! _).
Qed.

Lemma run_maxSize (ops : list Op) : forall c : TranslationCache,
  m_maxSize (run ops c) = m_maxSize c.
Proof.
  unfold run. induction ops as [|op ops IH]; intros c; simpl; [done|].
  by rewrite IH, apply_maxSize.
Qed.

End CacheProofs.

(** C9.  Starting from a cache constructed with [maxSize >= 1], after any
    sequence of [Put], [Get], [Remove] and [Clear] the number of entries is at
    most [maxSize].  A [Put] into any cache that is at (or above) its bound
    first erases one entry that was present, then inserts; a [Put] into a
    cache below its bound only inserts.  This holds for every iteration order
    of the underlying hash map. *)
Theorem C9_cache_size_never_exceeds_max :
  forall (order : HashOrder) (maxSize : Z) (ops : list Cache.Op),
    1 <= maxSize ->
    Z.of_nat (Cache.Size (Cache.run ops (Cache.new maxSize))) <= maxSize
    /\ (forall (c : Cache.TranslationCache) (original translated : list Z),
          1 <= Cache.m_maxSize c ->
          Cache.m_maxSize c <= Z.of_nat (Cache.Size c) ->
          exists victim : list Z,
            is_Some (Cache.m_cache c !! victim)
            /\ Cache.m_cache (Cache.Put c original translated)
               = <[original := translated]> (delete victim (Cache.m_cache c)))
    /\ (forall (c : Cache.TranslationCache) (original translated : list Z),
          Z.of_nat (Cache.Size c) < Cache.m_maxSize c ->
          Cache.m_cache (Cache.Put c original translated)
          = <[original := translated]> (Cache.m_cache c)).
Proof.
  intros order maxSize ops Hmax.
  split; [|split].
  - unfold Cache.Size. apply (run_size_bound ops (Cache.new maxSize)); simpl.
    + done.
    + rewrite map_size_empty. lia.
  - intros c original translated Hcap Hfull. unfold Cache.Size in Hfull.
    assert (Hne : Cache.m_cache c <> ∅).
    { intros Hempty. rewrite Hempty, map_size_empty in Hfull. lia. }
    destruct (EvictOldest_erases_one c Hne) as (victim & Hin & Hev).
    exists victim. split; [done|].
    unfold Cache.Put.
    destruct (Z.leb_spec (Cache.m_maxSize c) (Z.of_nat (size (Cache.m_cache c))));
      [|lia].
    by rewrite Hev.
  - intros c original translated Hroom. unfold Cache.Size in Hroom.
    unfold Cache.Put.
    by destruct (Z.leb_spec (Cache.m_maxSize c) (Z.of_nat (size (Cache.m_cache c))));
      [lia|].
Qed.

(** A cache of capacity two is driven through three [Put]s: it never holds
    more than two entries; after the first two it is at its bound, and the
    third [Put] erases one of them before it inserts, so that two remain. *)
Lemma C9_witness_capacity_two :
  let c := @Cache.run canonical_order
             [Cache.OpPut Samples.Hi Samples.Ciao; Cache.OpPut Samples.OK Samples.OK]
             (Cache.new 2) in
  Z.of_nat (Cache.Size (@Cache.run canonical_order Samples.three_puts (Cache.new 2))) <= 2
  /\ Cache.Size c = 2%nat
  /\ Cache.Size (@Cache.Put canonical_order c Samples.Play Samples.Gioca) = 2%nat
  /\ exists victim : list Z,
       is_Some (Cache.m_cache c !! victim)
       /\ Cache.m_cache (@Cache.Put canonical_order c Samples.Play Samples.Gioca)
          = <[Samples.Play := Samples.Gioca]> (delete victim (Cache.m_cache c)).
Proof.
  destruct (C9_cache_size_never_exceeds_max canonical_order 2 Samples.three_puts)
    as (Hsize & Hput & _); [lia|].
  split; [exact Hsize|]. split; [by vm_compute|]. split; [by vm_compute|].
  apply Hput; by vm_compute.
Defined.

(** ** Streams and the file header *)

Lemma read_u32_some (bs : list Z) (z : Z) :
  le32_decode (take 4 bs) = Some z ->
  read_u32 (mkStream bs true) = (Some z, mkStream (drop 4 bs) true).
Proof.
  intros Hz. destruct bs as [|b0 [|b1 [|b2 [|b3 tl]]]]; try discriminate.
  unfold read_u32, stream_read. simpl in *. by rewrite Hz.
Qed.

(** C5.  A file whose header carries a magic other than [0x47535443], or a
    version other than 1, makes [LoadFromFile] return false and hand back the
    cache object exactly as it received it. *)
Theorem C5_bad_header_leaves_cache_untouched :
  forall (c : Cache.TranslationCache) (fs : FileSystem) (path bytes : list Z)
         (magic : Z),
    contents fs !! path = Some bytes ->
    Cache.header_magic bytes = Some magic ->
    (magic <> Cache.CACHE_MAGIC
     \/ exists version : Z,
          Cache.header_version bytes = Some version /\ version <> Cache.CACHE_VERSION) ->
    Cache.LoadFromFile c fs path = Cache.Loaded false c.
Proof.
  intros c fs path bytes magic Hfile Hmagic Hbad.
  unfold Cache.LoadFromFile. rewrite Hfile.
  unfold Cache.header_magic, Cache.header_version in *.
  rewrite (read_u32_some _ _ Hmagic).
  destruct (Z.eqb_spec magic Cache.CACHE_MAGIC) as [Hm|Hm].
  - destruct Hbad as [Hbad|(version & Hversion & Hv)]; [contradiction|].
    rewrite (read_u32_some _ _ Hversion).
    destruct (read_u32 _) as [count s3]. simpl.
    by destruct (Z.eqb_spec version Cache.CACHE_VERSION).
  - destruct (read_u32 _) as [version s2].
    by destruct (read_u32 _) as [count s3].
Qed.

(** Scenario 6 of the specification: the magic byte at offset 0 is zeroed. *)
Lemma C5_witness_corrupted_magic :
  Cache.LoadFromFile (@Cache.run canonical_order Samples.three_puts (Cache.new 10000))
    (Samples.disk_with Samples.corrupted_file) Samples.cache_path
  = Cache.Loaded false (@Cache.run canonical_order Samples.three_puts (Cache.new 10000)).
Proof.
  apply (C5_bad_header_leaves_cache_untouched _
           (Samples.disk_with Samples.corrupted_file) Samples.cache_path
           Samples.corrupted_file 1196643328).
  - apply lookup_singleton_eq.
  - reflexivity.
  - left. unfold Cache.CACHE_MAGIC. lia.
Defined.

(** ** The cache file format *)

Lemma le32_roundtrip (z : Z) :
  0 <= z < 4294967296 -> le32_decode (le32 z) = Some z.
Proof.
  intros Hz. unfold le32, le32_decode. f_equal.
  Z.to_euclidean_division_equations. lia.
Qed.

Lemma wchar_roundtrip (c : Z) :
  0 <= c < 65536 -> c mod 256 + 256 * ((c / 256) mod 256) = c.
Proof. intros Hc. Z.to_euclidean_division_equations. lia. Qed.

Lemma wunits_wbytes (s : list Z) (tl : list Z) :
  Forall (fun c => 0 <= c < 65536) s ->
  wunits (length s) (wbytes s ++ tl) = s.
Proof.
  induction 1 as [|c s Hc _ IH]; simpl; [reflexivity|].
  by rewrite IH, wchar_roundtrip.
Qed.

Lemma stream_read_app (a b : list Z) :
  stream_read (mkStream (a ++ b) true) (length a) = (a, mkStream b true).
Proof.
  unfold stream_read. simpl.
  destruct (Nat.leb_spec (length a) (length (a ++ b))) as [_|Hlt].
  - by rewrite take_app_length, drop_app_length.
  - rewrite length_app in Hlt. lia.
Qed.

Lemma read_u32_le32 (z : Z) (tl : list Z) :
  0 <= z < 4294967296 ->
  read_u32 (mkStream (le32 z ++ tl) true) = (Some z, mkStream tl true).
Proof.
  intros Hz. unfold read_u32.
  change 4%nat with (length (le32 z)). rewrite stream_read_app.
  by rewrite le32_roundtrip.
Qed.

Lemma read_wstring_wbytes (s : list Z) (tl : list Z) :
  Forall (fun c => 0 <= c < 65536) s ->
  read_wstring (mkStream (wbytes s ++ tl) true) (Z.of_nat (length s))
  = (s, mkStream tl true).
Proof.
  intros Hs. unfold read_wstring. rewrite Nat2Z.id.
  rewrite <- wbytes_length, stream_read_app.
  rewrite Nat.sub_diag. simpl.
  by rewrite wunits_wbytes.
Qed.

Section CacheFileProofs.
Context `{HashOrder}.
Import Cache.

Lemma entry_bytes_storable (k v : list Z) :
  storable_string k -> storable_string v ->
  entry_bytes (k, v)
  = le32 (Z.of_nat (length k)) ++ wbytes k ++ le32 (Z.of_nat (length v)) ++ wbytes v.
Proof.
  intros [Hk _] [Hv _]. unfold entry_bytes, wrap32. cbn [fst snd].
  rewrite (Z.mod_small (Z.of_nat (length k))), (Z.mod_small (Z.of_nat (length v))) by lia.
  by rewrite !Nat2Z.id, !firstn_all.
Qed.

Lemma load_entries_S (n : nat) (s : ifstream) (m : gmap (list Z) (list Z)) :
  load_entries (S n) s m
  = if good s then
      let '(origLen, s1) := read_u32 s in
      match origLen with
      | None => None
      | Some origLen =>
          let '(original, s2) := read_wstring s1 origLen in
          let '(transLen, s3) := read_u32 s2 in
          match transLen with
          | None => None
          | Some transLen =>
              let '(translated, s4) := read_wstring s3 transLen in
              load_entries n s4 (if good s4 then <[original := translated]> m else m)
          end
      end
    else Some m.
Proof. reflexivity. Qed.

Lemma load_entries_one (n : nat) (k v tl : list Z) (m : gmap (list Z) (list Z)) :
  storable_string k -> storable_string v ->
  load_entries (S n) (mkStream (entry_bytes (k, v) ++ tl) true) m
  = load_entries n (mkStream tl true) (<[k := v]> m).
Proof.
  intros Hk Hv. rewrite entry_bytes_storable by done.
  destruct Hk as [Hk Hku], Hv as [Hv Hvu].
  rewrite <- !app_assoc. rewrite load_entries_S. cbn [good].
  rewrite read_u32_le32 by lia.
  rewrite read_wstring_wbytes by done.
  rewrite read_u32_le32 by lia.
  rewrite read_wstring_wbytes by done.
  reflexivity.
Qed.

Lemma load_entries_all (l : list (list Z * list Z)) :
  forall (m : gmap (list Z) (list Z)) (tl : list Z),
    Forall storable_entry l ->
    load_entries (length l) (mkStream (flat_map entry_bytes l ++ tl) true) m
    = Some (foldl put_entry m l).
Proof.
  induction l as [|[k v] l IH]; intros m tl Hl; [reflexivity|].
  apply Forall_cons in Hl as [[Hk Hv] Hl].
  cbn [length flat_map foldl]. rewrite <- app_assoc.
  rewrite load_entries_one by done. by apply IH.
Qed.

Lemma foldl_put_entry_lookup (l : list (list Z * list Z)) :
  forall (m : gmap (list Z) (list Z)) (k : list Z),
    NoDup l.*1 ->
    foldl put_entry m l !! k
    = match (list_to_map l : gmap (list Z) (list Z)) !! k with
      | Some v => Some v
      | None => m !! k
      end.
Proof.
  induction l as [|[k0 v0] l IH]; intros m k Hnd; simpl.
  - by rewrite lookup_empty.
  - apply NoDup_cons in Hnd as [Hk0 Hnd].
    rewrite IH by done. unfold put_entry. simpl.
    destruct (decide (k0 = k)) as [->|Hne].
    + rewrite lookup_insert_eq.
      by rewrite (not_elem_of_list_to_map_1 _ _ Hk0), lookup_insert_eq.
    + rewrite !lookup_insert_ne by done. reflexivity.
Qed.

(** Inserting the entries in iteration order rebuilds the map. *)
Lemma foldl_put_entry_iteration (m : gmap (list Z) (list Z)) :
  foldl put_entry ∅ (iteration m) = m.
Proof.
  assert (Hnd : NoDup (iteration m).*1).
  { rewrite iteration_perm. apply NoDup_fst_map_to_list. }
  apply map_eq. intros k. rewrite foldl_put_entry_lookup by done.
  rewrite (list_to_map_proper _ _ Hnd (iteration_perm m)), list_to_map_to_list.
  rewrite lookup_empty. by destruct (m !! k).
Qed.

Lemma LoadFromFile_file_bytes (c c0 : TranslationCache) (fs : FileSystem) (path : list Z) :
  storable (m_cache c) ->
  contents fs !! path = Some (file_bytes c) ->
  LoadFromFile c0 fs path = Loaded true (with_map c0 (m_cache c)).
Proof.
  intros [Hsize Hentries] Hfile. unfold LoadFromFile. rewrite Hfile.
  unfold file_bytes, wrap32. rewrite (Z.mod_small (Z.of_nat _)) by lia.
  rewrite read_u32_le32 by (unfold CACHE_MAGIC; lia).
  rewrite read_u32_le32 by (unfold CACHE_VERSION; lia).
  rewrite <- (app_nil_r (flat_map _ _)).
  rewrite read_u32_le32 by lia.
  rewrite !Z.eqb_refl. simpl negb. cbv iota.
  rewrite Nat2Z.id, <- iteration_length.
  rewrite load_entries_all.
  - by rewrite foldl_put_entry_iteration.
  - apply Forall_forall. intros [k v] Hkv.
    apply iteration_lookup in Hkv. by apply Hentries.
Qed.

End CacheFileProofs.

(** C6 (as amended).  For a cache whose entry count and string lengths fit the
    32-bit fields of the file format, saving to a path that can be opened for
    writing succeeds, and loading that path afterwards, into any cache object,
    succeeds and leaves it holding exactly the mapping that was saved.  This
    holds for every iteration order of the hash map. *)
Theorem C6_save_then_load_restores_mapping :
  forall (order : HashOrder) (c c0 : Cache.TranslationCache) (fs : FileSystem)
         (path : list Z),
    writable fs path = true ->
    Cache.storable (Cache.m_cache c) ->
    (Cache.SaveToFile c fs path).1 = true
    /\ Cache.LoadFromFile c0 (Cache.SaveToFile c fs path).2 path
       = Cache.Loaded true (Cache.with_map c0 (Cache.m_cache c)).
Proof.
  intros order c c0 fs path Hw Hst. unfold Cache.SaveToFile. rewrite Hw. simpl.
  split; [reflexivity|].
  apply LoadFromFile_file_bytes; [done|]. simpl. apply lookup_insert_eq.
Qed.

(** The three sample entries are saved to an empty disk and loaded back. *)
Lemma C6_witness_three_entries :
  let c := @Cache.run canonical_order Samples.three_puts (Cache.new 10000) in
  (@Cache.SaveToFile canonical_order c Samples.empty_disk Samples.cache_path).1 = true
  /\ Cache.LoadFromFile (Cache.new 10000)
       (@Cache.SaveToFile canonical_order c Samples.empty_disk Samples.cache_path).2
       Samples.cache_path
     = Cache.Loaded true (Cache.with_map (Cache.new 10000) (Cache.m_cache c)).
Proof.
  apply (C6_save_then_load_restores_mapping canonical_order
           (@Cache.run canonical_order Samples.three_puts (Cache.new 10000))
           (Cache.new 10000) Samples.empty_disk Samples.cache_path).
  - reflexivity.
  - split; [by vm_compute|].
    intros k v Hkv. apply elem_of_map_to_list in Hkv.
    vm_compute in Hkv.
    repeat (apply elem_of_cons in Hkv as [[= -> ->]|Hkv]);
      [| | |by apply elem_of_nil in Hkv];
      (split; (split; [by vm_compute | repeat (constructor; [lia|]); constructor])).
Defined.

Section GiantKey.
Context `{HashOrder}.
Import Cache.

Lemma iteration_singleton (k v : list Z) : iteration {[ k := v ]} = [(k, v)].
Proof.
  apply Permutation_singleton_r.
  rewrite iteration_perm. by rewrite map_to_list_singleton.
Qed.

(** With a key of length 2^32 the length field wraps to 0: the saved file
    holds an entry with an empty key, and this is what [LoadFromFile] reads. *)
Lemma giant_key_comes_back_empty (k : list Z) (c0 : TranslationCache)
    (fs : FileSystem) (path : list Z) :
  Z.of_nat (length k) = 4294967296 ->
  writable fs path = true ->
  let c := with_map c0 {[ k := [] ]} in
  (SaveToFile c fs path).1 = true
  /\ LoadFromFile c0 (SaveToFile c fs path).2 path
     = Loaded true (with_map c0 {[ [] := [] ]})
  /\ m_cache (with_map c0 {[ [] := [] ]}) <> m_cache c.
Proof.
  intros Hlen Hw c. unfold SaveToFile. rewrite Hw. cbn [fst snd].
  split; [reflexivity|]. split.
  - unfold LoadFromFile. cbn [contents]. rewrite lookup_insert_eq.
    unfold file_bytes, c. cbn [m_cache with_map].
    rewrite map_size_singleton, iteration_singleton.
    cbn [flat_map]. unfold entry_bytes. cbn [fst snd].
    rewrite Hlen.
    change (wrap32 4294967296) with 0.
    change (wrap32 (Z.of_nat (length (@nil Z)))) with 0.
    change (wrap32 (Z.of_nat 1)) with 1.
    change (Z.to_nat 0) with 0%nat. rewrite !take_0.
    change (wbytes []) with (@nil Z). rewrite !app_nil_r.
    rewrite read_u32_le32 by (unfold CACHE_MAGIC; lia).
    rewrite read_u32_le32 by (unfold CACHE_VERSION; lia).
    rewrite read_u32_le32 by lia.
    reflexivity.
  - cbn [m_cache with_map]. unfold c. cbn [m_cache with_map].
    intros Heq. apply (f_equal (fun m => m !! (@nil Z))) in Heq.
    rewrite lookup_singleton_eq, lookup_singleton_ne in Heq; [discriminate|].
    intros ->. simpl in Hlen. discriminate.
Qed.

End GiantKey.

Lemma giant_key_length : Z.of_nat (length Samples.giant_key) = 4294967296.
Proof.
  unfold Samples.giant_key. rewrite length_replicate. apply Z2Nat.id. lia.
Qed.

(** C6 as stated fails for a cache that holds a key of 2^32 code units: the
    save succeeds, the load succeeds, and the loaded mapping has the empty
    string where the key was. *)
Lemma C6_counterexample_giant_key :
  (@Cache.SaveToFile canonical_order Samples.giant_cache Samples.empty_disk
     Samples.cache_path).1 = true
  /\ Cache.LoadFromFile Samples.giant_cache
       (@Cache.SaveToFile canonical_order Samples.giant_cache Samples.empty_disk
          Samples.cache_path).2 Samples.cache_path
     = Cache.Loaded true (Cache.with_map Samples.giant_cache {[ [] := [] ]})
  /\ Cache.m_cache (Cache.with_map Samples.giant_cache {[ [] := [] ]})
     <> Cache.m_cache Samples.giant_cache.
Proof.
  exact (@giant_key_comes_back_empty canonical_order Samples.giant_key
           Samples.giant_cache Samples.empty_disk Samples.cache_path
           giant_key_length eq_refl).
Qed.

(** ** The translation pipeline *)

(** C4.  On an initialised, enabled pipeline and a cache miss: when the
    transport is not connected, or the request cannot be sent (request id 0),
    or the wait for the response times out, [Translate] returns the original
    text itself; the error counter goes up by one exactly when the transport
    was connected (a send was attempted) and is left alone otherwise. *)
Theorem C4_failed_translation_returns_original :
  forall (order : HashOrder) (env : Translator.Env) (st : Translator.State)
         (originalText : list Z),
    Translator.g_initialized st = true ->
    Translator.enabled st = true ->
    Cache.m_cache (Translator.globalCache st) !! originalText = None ->
    (let sent := IPC.SendTranslateRequest (Translator.write_ok env) (Translator.ipc st)
                   originalText in
     IPC.IsConnected (Translator.ipc st) = false
     \/ sent.1 = 0
     \/ (IPC.ReceiveTranslateResponse sent.2 sent.1
           (Translator.wakeups env) (Translator.final env)).1 = None) ->
    (Translator.Translate env st originalText).1 = originalText
    /\ Translator.translationErrors
         (Translator.g_stats (Translator.Translate env st originalText).2)
       = if IPC.IsConnected (Translator.ipc st)
         then wrap64 (Translator.translationErrors (Translator.g_stats st) + 1)
         else Translator.translationErrors (Translator.g_stats st).
Proof.
  intros order env st originalText Hinit Hen Hmiss Hfail.
  unfold Translator.Translate. rewrite Hinit, Hen. simpl negb. cbv iota.
  unfold Cache.Get. rewrite Hmiss.
  destruct (IPC.IsConnected (Translator.ipc st)) eqn:Hconn; [|by simpl].
  destruct (IPC.SendTranslateRequest _ _ _) as [requestId ipc1] eqn:Hsend.
  simpl in Hfail.
  destruct (Z.eqb_spec requestId 0) as [Hz|Hnz]; simpl; [done|].
  destruct Hfail as [Hf|[Hf|Hf]]; [discriminate | contradiction |].
  destruct (IPC.ReceiveTranslateResponse _ _ _ _) as [[translated|] ipc2];
    simpl in *; [discriminate | done].
Qed.

(** A connected pipeline sends the request and no response arrives in time:
    ["Hi"] comes back and one error is counted. *)
Lemma C4_witness_timeout :
  (@Translator.Translate canonical_order Samples.env_timeout Samples.fresh_translator
     Samples.Hi).1 = Samples.Hi
  /\ Translator.translationErrors
       (Translator.g_stats
          (@Translator.Translate canonical_order Samples.env_timeout
             Samples.fresh_translator Samples.Hi).2)
     = 1.
Proof.
  apply (C4_failed_translation_returns_original canonical_order Samples.env_timeout
           Samples.fresh_translator Samples.Hi).
  - reflexivity.
  - reflexivity.
  - reflexivity.
  - right. right. reflexivity.
Defined.

(** ** The pending-response map *)

Section TransportProofs.
Import IPC.







Lemma ReceiveThread_step_response (st : State) (buffer : list Z) (bytesRead : nat)
    (requestId dataLength : Z) :
  (sizeof_IPCMessage <= bytesRead)%nat ->
  le32_decode (take 4 buffer) = Some TRANSLATE_RESPONSE ->
  le32_decode (take 4 (drop 4 buffer)) = Some requestId ->
  le32_decode (take 4 (drop 8 buffer)) = Some dataLength ->
  ReceiveThread_step st (ReadOk buffer bytesRead)
  = store_response st
      (requestId, wunits (Z.to_nat (dataLength / sizeof_wchar_t)) (drop 12 buffer)).
Proof.
  intros Hlen Htype Hid Hdata. unfold ReceiveThread_step.
  destruct (Nat.ltb_spec bytesRead sizeof_IPCMessage); [lia|].
  by rewrite Htype, Hid, Hdata.
Qed.

End TransportProofs.




(** ** The detours and their filters *)

Section FilterProofs.
Import Unity.

Lemma looks_like_code_spec (s : list Z) :
  looks_like_code s
  = negb (forallb (fun c => negb ((c =? 47) || (c =? 92) || (c =? 123) || (c =? 60))) s).
Proof.
  unfold looks_like_code, has_char, SLASH, BACKSLASH, LBRACE, LESS.
  induction s as [|c s IH]; [reflexivity|].
  cbn [existsb forallb].
  rewrite negb_andb, negb_involutive, <- IH.
  rewrite (Z.eqb_sym 47 c), (Z.eqb_sym 92 c), (Z.eqb_sym 123 c), (Z.eqb_sym 60 c).
  destruct (c =? 47), (c =? 92), (c =? 123), (c =? 60),
    (existsb (Z.eqb 47) s), (existsb (Z.eqb 92) s),
    (existsb (Z.eqb 123) s), (existsb (Z.eqb 60) s); reflexivity.
Qed.

(** The guards of both Mono detours amount to the filter of the specification. *)
Lemma mono_guards_spec (s : list Z) :
  negb (length s <? 3)%nat && negb (500 <? length s)%nat && negb (looks_like_code s)
  = spec_translatable s.
Proof.
  unfold spec_translatable. rewrite looks_like_code_spec, negb_involutive.
  destruct (Nat.ltb_spec (length s) 3), (Nat.leb_spec 3 (length s)); try lia;
    destruct (Nat.ltb_spec 500 (length s)), (Nat.leb_spec (length s) 500); try lia;
    destruct (Nat.eqb_spec (length s) 0); try lia; reflexivity.
Qed.

Lemma Hook_mono_string_new_filter (mb : list Z -> option (list Z)) (io : PipeIO)
    (st : State) (bytes : list Z) :
  Hook_mono_string_new mb io st (Some bytes)
  = if g_TranslationEnabled st && g_Initialized st && spec_translatable bytes
    then match mb bytes with
         | Some wtext =>
             lookup_or_request io st wtext (Original_mono_string_new (Some bytes))
         | None => (Original_mono_string_new (Some bytes), st)
         end
    else (Original_mono_string_new (Some bytes), st).
Proof.
  rewrite <- mono_guards_spec. unfold Hook_mono_string_new.
  destruct (g_TranslationEnabled st), (g_Initialized st); simpl; try reflexivity.
  destruct (length bytes <? 3)%nat; simpl; [reflexivity|].
  destruct (500 <? length bytes)%nat; simpl; [reflexivity|].
  by destruct (looks_like_code bytes).
Qed.

Lemma Hook_mono_string_new_utf16_filter (io : PipeIO) (st : State) (units : list Z) :
  Hook_mono_string_new_utf16 io st (Some units) (Z.of_nat (length units))
  = if g_TranslationEnabled st && g_Initialized st && spec_translatable units
    then lookup_or_request io st units
           (Original_mono_string_new_utf16 (Some units) (Z.of_nat (length units)))
    else (Original_mono_string_new_utf16 (Some units) (Z.of_nat (length units)), st).
Proof.
  rewrite <- mono_guards_spec. unfold Hook_mono_string_new_utf16.
  rewrite Nat2Z.id, firstn_all.
  replace (Z.of_nat (length units) <? 3) with (length units <? 3)%nat
    by (destruct (Nat.ltb_spec (length units) 3), (Z.ltb_spec (Z.of_nat (length units)) 3);
        (reflexivity || lia)).
  replace (500 <? Z.of_nat (length units)) with (500 <? length units)%nat
    by (destruct (Nat.ltb_spec 500 (length units)), (Z.ltb_spec 500 (Z.of_nat (length units)));
        (reflexivity || lia)).
  destruct (g_TranslationEnabled st), (g_Initialized st); simpl; try reflexivity.
  destruct (length units <? 3)%nat; simpl; [reflexivity|].
  destruct (500 <? length units)%nat; simpl; [reflexivity|].
  by destruct (looks_like_code units).
Qed.

End FilterProofs.

(** C3 (as amended).  The two Mono detours apply the filter of the
    specification: with translation enabled and initialised, a string that is
    not empty, has length 3 to 500 and holds none of [/ \ { <] goes on to the
    cache lookup and the request (for [mono_string_new], once the UTF-8
    conversion has succeeded); every other string is passed to the original
    function unchanged.  The Unreal detour applies another filter: it leaves
    the result and the pipeline untouched when the string is empty, shorter
    than 3, or contains ["::"] or ["//"], and hands every other string, of any
    length, to [Translate]. *)
Theorem C3_detour_filters :
  (forall (mb : list Z -> option (list Z)) (io : Unity.PipeIO) (st : Unity.State)
          (bytes : list Z),
      Unity.Hook_mono_string_new mb io st (Some bytes)
      = if Unity.g_TranslationEnabled st && Unity.g_Initialized st
           && spec_translatable bytes
        then match mb bytes with
             | Some wtext =>
                 Unity.lookup_or_request io st wtext
                   (Unity.Original_mono_string_new (Some bytes))
             | None => (Unity.Original_mono_string_new (Some bytes), st)
             end
        else (Unity.Original_mono_string_new (Some bytes), st))
  /\ (forall (io : Unity.PipeIO) (st : Unity.State) (units : list Z),
        Unity.Hook_mono_string_new_utf16 io st (Some units) (Z.of_nat (length units))
        = if Unity.g_TranslationEnabled st && Unity.g_Initialized st
             && spec_translatable units
          then Unity.lookup_or_request io st units
                 (Unity.Original_mono_string_new_utf16 (Some units)
                    (Z.of_nat (length units)))
          else (Unity.Original_mono_string_new_utf16 (Some units)
                  (Z.of_nat (length units)), st))
  /\ (forall (order : HashOrder) (env : Translator.Env) (st : Translator.State)
             (data : list Z) (arrayNum arrayMax : Z),
        let r := Hooks.mkFString (Some data) arrayNum arrayMax in
        let originalText := take (Z.to_nat (Hooks.Len r)) data in
        if (0 <? Hooks.Len r) && (3 <=? length originalText)%nat
           && negb (contains originalText Hooks.COLON_COLON)
           && negb (contains originalText Hooks.SLASH_SLASH)
        then (Hooks.Hooked_FText_ToString env st (Some r)).2
             = (Translator.Translate env st originalText).2
        else Hooks.Hooked_FText_ToString env st (Some r) = (Some r, st)).
Proof.
  split; [exact Hook_mono_string_new_filter|].
  split; [exact Hook_mono_string_new_utf16_filter|].
  intros order env st data arrayNum arrayMax r originalText.
  unfold Hooks.Hooked_FText_ToString. cbn [Hooks.Data r].
  fold r. fold originalText. unfold Hooks.passes_guard.
  replace (2 <? length originalText)%nat with (3 <=? length originalText)%nat
    by (destruct (Nat.ltb_spec 2 (length originalText)),
          (Nat.leb_spec 3 (length originalText)); (reflexivity || lia)).
  destruct (0 <? Hooks.Len r), (3 <=? length originalText)%nat,
    (contains originalText Hooks.COLON_COLON),
    (contains originalText Hooks.SLASH_SLASH);
    cbn [andb negb]; try reflexivity.
  destruct (Translator.Translate env st originalText) as [translated st'].
  cbn [snd].
  destruct (negb (str_eqb translated originalText)), (negb (length translated =? 0)%nat);
    cbn [andb]; try reflexivity.
  by destruct (_ <? _).
Qed.

(** C3 as stated fails for the Unreal detour: ["a/b"] holds a [/], yet the
    detour hands it to [Translate] (one request and one cache hit are
    counted) and overwrites the engine buffer with the translation. *)
Lemma C3_counterexample_unreal_slash :
  let r := @Hooks.Hooked_FText_ToString canonical_order Samples.env_timeout
             Samples.translator_knowing_a_slash_b (Some Samples.fstring_a_slash_b) in
  spec_translatable Samples.a_slash_b = false
  /\ r.1 = Some (Hooks.mkFString (Some [120; 45; 121; 0; 0; 0; 0; 0]) 4 8)
  /\ Translator.totalRequests (Translator.g_stats r.2) = 1
  /\ Translator.cacheHits (Translator.g_stats r.2) = 1
  /\ r <> (Some Samples.fstring_a_slash_b, Samples.translator_knowing_a_slash_b).
Proof.
  repeat split. intros Heq. apply (f_equal fst) in Heq. discriminate Heq.
Qed.

(** ** The Unity cache *)

Section UnityProofs.
Import Unity.
Variable MultiByteToWideChar : list Z -> option (list Z).

Lemma cache_ok_empty : cache_ok ∅.
Proof. intros k v Hkv. by rewrite lookup_empty in Hkv. Qed.

Lemma cache_ok_insert (m : gmap (list Z) (list Z)) (k v : list Z) :
  cache_ok m -> v <> [] -> v <> k -> cache_ok (<[k := v]> m).
Proof.
  intros Hm Hv Hk k' v' Hkv.
  destruct (decide (k = k')) as [<-|Hne].
  - rewrite lookup_insert_eq in Hkv. injection Hkv as <-. done.
  - rewrite lookup_insert_ne in Hkv by done. by apply Hm.
Qed.

Lemma lookup_or_request_cache_ok (io : PipeIO) (st : State) (wtext : list Z)
    (fallback : MonoCall) :
  cache_ok (g_TranslationCache st) ->
  cache_ok (g_TranslationCache (lookup_or_request io st wtext fallback).2).
Proof.
  intros Hok. unfold lookup_or_request.
  assert (Hreq :
    cache_ok (g_TranslationCache
      (match g_IPCClient st with
       | Some c =>
           if IsConnected c then
             let '(translated, c') := RequestTranslation io c wtext in
             if negb (length translated =? 0)%nat && negb (str_eqb translated wtext) then
               (Original_mono_string_new_utf16 (Some translated)
                  (Z.of_nat (length translated)),
                mkState (g_TranslationEnabled st) (g_Initialized st)
                  (<[wtext := translated]> (g_TranslationCache st)) (Some c'))
             else (fallback, with_client st (Some c'))
           else (fallback, st)
       | None => (fallback, st)
       end).2)).
  { destruct (g_IPCClient st) as [c|]; [|done].
    destruct (IsConnected c); [|done].
    destruct (RequestTranslation io c wtext) as [translated c'].
    destruct (Nat.eqb_spec (length translated) 0) as [|Hlen]; simpl; [done|].
    destruct (str_eqb translated wtext) eqn:Heq; simpl; [done|].
    apply cache_ok_insert; [done| |].
    - intros ->. by simpl in Hlen.
    - intros ->. by rewrite str_eqb_refl in Heq. }
  destruct (g_TranslationCache st !! wtext) as [second|]; [|exact Hreq].
  destruct (negb (length second =? 0)%nat); [done | exact Hreq].
Qed.

Lemma step_cache_ok (st : State) (ev : Event) :
  cache_ok (g_TranslationCache st) ->
  cache_ok (g_TranslationCache (step MultiByteToWideChar st ev)).
Proof.
  intros Hok.
  destruct ev as [connected|connected|io text|io text len| | |]; simpl;
    try done; try apply cache_ok_empty.
  - destruct (g_IPCClient st) as [c|]; [|done]. by destruct (IsConnected c).
  - unfold Hook_mono_string_new. destruct text as [bytes|]; [|done].
    destruct (_ || _); [done|]. destruct (_ <? _)%nat; [done|].
    destruct (looks_like_code bytes); [done|].
    destruct (MultiByteToWideChar bytes); [|done].
    by apply lookup_or_request_cache_ok.
  - unfold Hook_mono_string_new_utf16. destruct text as [units|]; [|done].
    destruct (_ || _); [done|]. destruct (looks_like_code _); [done|].
    by apply lookup_or_request_cache_ok.
Qed.

Lemma run_cache_ok (events : list Event) : forall st : State,
  cache_ok (g_TranslationCache st) ->
  cache_ok (g_TranslationCache (run MultiByteToWideChar events st)).
Proof.
  unfold run. induction events as [|ev events IH]; intros st Hok; simpl; [done|].
  by apply IH, step_cache_ok.
Qed.

(** A hit in the common tail of the detours substitutes the cached string. *)
Lemma lookup_or_request_hit (io : PipeIO) (st : State) (wtext second : list Z)
    (fallback : MonoCall) :
  cache_ok (g_TranslationCache st) ->
  g_TranslationCache st !! wtext = Some second ->
  lookup_or_request io st wtext fallback
  = (Original_mono_string_new_utf16 (Some second) (Z.of_nat (length second)), st)
  /\ second <> wtext.
Proof.
  intros Hok Hhit. destruct (Hok _ _ Hhit) as [Hne Hdiff]. split; [|done].
  unfold lookup_or_request. rewrite Hhit.
  destruct second; [done|reflexivity].
Qed.

End UnityProofs.

(** C10.  In every state the Unity module can reach, each entry of the
    translation cache has a non-empty value that differs from its key.
    Hence, when either detour finds the (converted) intercepted string in the
    cache, it calls [mono_string_new_utf16] on the cached string, and that
    string differs from the intercepted one. *)
Theorem C10_unity_cache_entries_differ_from_keys :
  forall (mb : list Z -> option (list Z)) (events : list Unity.Event),
    let st := Unity.run mb events Unity.initial in
    Unity.cache_ok (Unity.g_TranslationCache st)
    /\ (forall (io : Unity.PipeIO) (units second : list Z),
          Unity.g_TranslationEnabled st = true ->
          Unity.g_Initialized st = true ->
          spec_translatable units = true ->
          Unity.g_TranslationCache st !! units = Some second ->
          Unity.Hook_mono_string_new_utf16 io st (Some units) (Z.of_nat (length units))
          = (Unity.Original_mono_string_new_utf16 (Some second)
               (Z.of_nat (length second)), st)
          /\ second <> units)
    /\ (forall (io : Unity.PipeIO) (bytes wtext second : list Z),
          Unity.g_TranslationEnabled st = true ->
          Unity.g_Initialized st = true ->
          spec_translatable bytes = true ->
          mb bytes = Some wtext ->
          Unity.g_TranslationCache st !! wtext = Some second ->
          Unity.Hook_mono_string_new mb io st (Some bytes)
          = (Unity.Original_mono_string_new_utf16 (Some second)
               (Z.of_nat (length second)), st)
          /\ second <> wtext).
Proof.
  intros mb events st.
  assert (Hok : Unity.cache_ok (Unity.g_TranslationCache st)).
  { apply run_cache_ok. apply cache_ok_empty. }
  split; [exact Hok|]. split.
  - intros io units second Hen Hinit Hfilter Hhit.
    rewrite Hook_mono_string_new_utf16_filter, Hen, Hinit, Hfilter. simpl.
    by apply lookup_or_request_hit.
  - intros io bytes wtext second Hen Hinit Hfilter Hconv Hhit.
    rewrite Hook_mono_string_new_filter, Hen, Hinit, Hfilter, Hconv. simpl.
    by apply lookup_or_request_hit.
Qed.

(** Scenario 4 of the specification: after ["Player"] was answered by
    ["Giocatore"], the next [mono_string_new("Player")] is a cache hit and
    yields ["Giocatore"], whatever the pipe would do. *)
Lemma C10_witness_Player :
  let st := Unity.run Samples.ascii_to_wide Samples.player_events Unity.initial in
  Unity.Hook_mono_string_new Samples.ascii_to_wide Unity.WriteFails st (Some Samples.Player)
  = (Unity.Original_mono_string_new_utf16 (Some Samples.Giocatore) 9, st)
  /\ Samples.Giocatore <> Samples.Player.
Proof.
  apply (C10_unity_cache_entries_differ_from_keys Samples.ascii_to_wide
           Samples.player_events).
  - reflexivity.
  - reflexivity.
  - reflexivity.
  - reflexivity.
  - reflexivity.
Defined.

(** * Further properties of the code *)

(** ** The patcher: what stays untouched, and the order of the system calls *)

Section PatcherFrame.
Import Injector.

Lemma write_bytes_outside (mem : Z -> Z) (address : Z) (data : list Z) (a : Z) :
  a < address \/ address + Z.of_nat (length data) <= a ->
  write_bytes mem address data a = mem a.
Proof.
  intros Hout. unfold write_bytes.
  destruct (Z.leb_spec address a), (Z.ltb_spec a (address + Z.of_nat (length data)));
    simpl; try reflexivity; lia.
Qed.

Lemma WriteProcessMemory_outside (ok : bool) (p : Process) (address : Z)
    (data : list Z) (a : Z) :
  a < address \/ address + Z.of_nat (length data) <= a ->
  memory (WriteProcessMemory ok p address data).2 a = memory p a.
Proof.
  intros Hout. unfold WriteProcessMemory. simpl.
  destruct ok; [by apply write_bytes_outside | reflexivity].
Qed.

End PatcherFrame.

(** X1.  Whatever the lengths of the two strings and whatever the system
    answers, neither patch function changes a byte outside
    [[address, address + len(original) * unit)]. *)
Theorem patch_leaves_other_bytes_alone :
  forall (os : Injector.Oracle) (p : Injector.Process) (address : Z)
         (original replacement : list Z) (a : Z),
    (a < address \/ address + 2 * Z.of_nat (length original) <= a ->
     Injector.memory (Injector.ReplaceTextInMemory os p address original replacement).2 a
     = Injector.memory p a)
    /\ (a < address \/ address + Z.of_nat (length original) <= a ->
        Injector.memory
          (Injector.ReplaceTextInMemoryASCII os p address original replacement).2 a
        = Injector.memory p a).
Proof.
  intros os p address original replacement a. split; intros Hout.
  - unfold Injector.ReplaceTextInMemory, sizeof_wchar_t.
    destruct (_ <? _)%nat; [reflexivity|].
    unfold Injector.VirtualProtectEx at 1.
    destruct (Injector.protect_result os); [|reflexivity].
    destruct (Injector.WriteProcessMemory _ _ _ _) as [success p2] eqn:Hw.
    simpl. change p2 with (success, p2).2. rewrite <- Hw.
    rewrite WriteProcessMemory_outside; [reflexivity|].
    pose proof (firstn_le_length (Z.to_nat (Z.of_nat (length original) * 2))
                  (wbytes (Injector.prepare_buffer original replacement))).
    lia.
  - unfold Injector.ReplaceTextInMemoryASCII.
    destruct (_ <? _)%nat; [reflexivity|].
    unfold Injector.VirtualProtectEx at 1.
    destruct (Injector.protect_result os); [|reflexivity].
    destruct (Injector.WriteProcessMemory _ _ _ _) as [success p2] eqn:Hw.
    simpl. change p2 with (success, p2).2. rewrite <- Hw.
    rewrite WriteProcessMemory_outside; [reflexivity|].
    pose proof (firstn_le_length (Z.to_nat (Z.of_nat (length original)))
                  (Injector.prepare_buffer original replacement)).
    lia.
Qed.

(** The byte after ["Start Game"] keeps its value when the text is patched. *)
Lemma patch_leaves_other_bytes_alone_witness :
  Injector.memory
    (Injector.ReplaceTextInMemory Samples.os_grants Samples.blank_process 4096
       Samples.Start_Game Samples.Inizia).2 4116
  = Injector.memory Samples.blank_process 4116.
Proof.
  apply (patch_leaves_other_bytes_alone Samples.os_grants Samples.blank_process 4096
           Samples.Start_Game Samples.Inizia 4116).
  right. simpl. lia.
Defined.

(** X2.  When the replacement fits and the protection change is granted, each
    patch function issues exactly three system calls on the range: the change
    to PAGE_EXECUTE_READWRITE, the write, and the change back to the
    protection the first call reported; it returns the outcome of the write.
    The protection is put back also when the write fails. *)
Theorem patch_brackets_the_write :
  forall (os : Injector.Oracle) (p : Injector.Process) (address : Z)
         (original replacement : list Z) (oldProtect : Z),
    (length replacement <= length original)%nat ->
    Injector.protect_result os = Some oldProtect ->
    (let r := Injector.ReplaceTextInMemory os p address original replacement in
     let size := 2 * Z.of_nat (length original) in
     r.1 = Injector.write_result os
     /\ exists data,
          Injector.syscalls r.2
          = Injector.syscalls p
            ++ [Injector.SysVirtualProtectEx address size Injector.PAGE_EXECUTE_READWRITE;
                Injector.SysWriteProcessMemory address data;
                Injector.SysVirtualProtectEx address size oldProtect]
          /\ Z.of_nat (length data) = size)
    /\ (let r := Injector.ReplaceTextInMemoryASCII os p address original replacement in
        let size := Z.of_nat (length original) in
        r.1 = Injector.write_result os
        /\ exists data,
             Injector.syscalls r.2
             = Injector.syscalls p
               ++ [Injector.SysVirtualProtectEx address size Injector.PAGE_EXECUTE_READWRITE;
                   Injector.SysWriteProcessMemory address data;
                   Injector.SysVirtualProtectEx address size oldProtect]
             /\ Z.of_nat (length data) = size).
Proof.
  intros os p address original replacement oldProtect Hlen Hprot.
  assert (Hbuf : length (Injector.prepare_buffer original replacement)
                 = S (length original)).
  { unfold Injector.prepare_buffer, Injector.fill_spaces.
    generalize (seq (length replacement) (length original - length replacement)).
    assert (Hs : length (strcpy_s (replicate (length original + 1) 0) replacement)
                 = S (length original)).
    { unfold strcpy_s. pose proof (c_str_length replacement).
      rewrite length_app, length_replicate. simpl.
      destruct (Nat.leb_spec (length (c_str replacement) + 1) (length original + 1)).
      - rewrite length_app, length_app, length_drop, length_replicate. simpl. lia.
      - rewrite length_insert, length_replicate. lia. }
    revert Hs. generalize (strcpy_s (replicate (length original + 1) 0) replacement).
    intros b Hb l. revert b Hb.
    induction l as [|i l IH]; intros b Hb; simpl; [done|].
    apply IH. by rewrite length_insert. }
  split.
  - unfold Injector.ReplaceTextInMemory, sizeof_wchar_t.
    destruct (Nat.ltb_spec (length original) (length replacement)); [lia|].
    unfold Injector.VirtualProtectEx, Injector.WriteProcessMemory.
    rewrite Hprot. simpl. split; [reflexivity|].
    eexists. split.
    + rewrite <- !app_assoc. simpl.
      replace (Z.of_nat (length original) * 2) with (2 * Z.of_nat (length original)) by lia.
      reflexivity.
    + rewrite length_take, wbytes_length, Hbuf. lia.
  - unfold Injector.ReplaceTextInMemoryASCII.
    destruct (Nat.ltb_spec (length original) (length replacement)); [lia|].
    unfold Injector.VirtualProtectEx, Injector.WriteProcessMemory.
    rewrite Hprot. simpl. split; [reflexivity|].
    eexists. split.
    + rewrite <- !app_assoc. simpl. reflexivity.
    + rewrite length_take, Hbuf. lia.
Qed.

(** ["Start Game"] is patched with ["Inizia"] on a system that grants
    everything: the call reports the outcome of the write. *)
Lemma patch_brackets_the_write_witness :
  (Injector.ReplaceTextInMemory Samples.os_grants Samples.blank_process 4096
     Samples.Start_Game Samples.Inizia).1 = true.
Proof.
  refine (proj1 (proj1 (patch_brackets_the_write Samples.os_grants Samples.blank_process
                          4096 Samples.Start_Game Samples.Inizia 4 _ _))).
  - simpl. lia.
  - reflexivity.
Defined.

(** ** The text scan *)

Lemma find_at_spec (s pat : list Z) : forall i : nat,
  match find_at s pat i with
  | Some p =>
      exists k, p = (i + k)%nat /\ (k <= length s)%nat
                /\ is_prefix pat (drop k s) = true
                /\ forall j, (j < k)%nat -> is_prefix pat (drop j s) = false
  | None => forall j, (j <= length s)%nat -> is_prefix pat (drop j s) = false
  end.
Proof.
  induction s as [|b s IH]; intros i; simpl.
  - destruct (is_prefix pat []) eqn:Hp.
    + exists 0%nat. repeat split; [lia | lia | done | lia].
    + intros j Hj. by replace j with 0%nat by lia.
  - destruct (is_prefix pat (b :: s)) eqn:Hp.
    + exists 0%nat. repeat split; [lia | lia | done | lia].
    + specialize (IH (S i)). destruct (find_at s pat (S i)) as [p|].
      * destruct IH as (k & -> & Hk & Hocc & Hmin).
        exists (S k). repeat split; [lia | lia | done |].
        intros [|j] Hj; [done|]. apply Hmin. lia.
      * intros [|j] Hj; [done|]. apply IH. lia.
Qed.

Lemma find_spec (s pat : list Z) (pos : nat) :
  match find s pat pos with
  | Some p =>
      (pos <= p)%nat /\ occurs_at s pat p = true
      /\ forall q, (pos <= q < p)%nat -> occurs_at s pat q = false
  | None => forall q, (pos <= q)%nat -> occurs_at s pat q = false
  end.
Proof.
  unfold find, occurs_at.
  destruct (Nat.leb_spec pos (length s)) as [Hpos|Hpos].
  - pose proof (find_at_spec (drop pos s) pat pos) as H.
    rewrite length_drop in H.
    destruct (find_at (drop pos s) pat pos) as [p|].
    + destruct H as (k & -> & Hk & Hocc & Hmin).
      rewrite drop_drop in Hocc. split; [lia|]. split.
      * destruct (Nat.leb_spec (pos + k) (length s)); [|lia].
        done.
      * intros q Hq. replace (drop q s) with (drop (q - pos) (drop pos s))
          by (rewrite drop_drop; f_equal; lia).
        rewrite Hmin by lia. apply andb_false_r.
    + intros q Hq. destruct (Nat.leb_spec q (length s)); [|done]. simpl.
      replace (drop q s) with (drop (q - pos) (drop pos s))
        by (rewrite drop_drop; f_equal; lia).
      apply H. lia.
  - intros q Hq. by destruct (Nat.leb_spec q (length s)); [lia|].
Qed.

Lemma occurs_at_fits (s pat : list Z) (p : nat) :
  occurs_at s pat p = true -> (p + length pat <= length s)%nat.
Proof.
  unfold occurs_at. intros [Hp Hpre]%andb_true_iff.
  apply Nat.leb_le in Hp. apply is_prefix_length in Hpre.
  rewrite length_drop in Hpre. lia.
Qed.

Lemma find_loop_greedy (fuel : nat) : forall (s pat : list Z) (pos : nat) (found : list nat),
  pat <> [] ->
  (S (length s) - pos < fuel)%nat ->
  exists new,
    Injector.find_loop fuel s pat pos found = Some (found ++ new)
    /\ spaced (length pat) pos new
    /\ Forall (fun p => occurs_at s pat p = true) new
    /\ forall q, (pos <= q)%nat -> occurs_at s pat q = true ->
         exists p, p ∈ new /\ (p <= q < p + length pat)%nat.
Proof.
  induction fuel as [|fuel IH]; intros s pat pos found Hne Hfuel; [lia|].
  simpl. pose proof (find_spec s pat pos) as Hfind.
  destruct (find s pat pos) as [p|].
  - destruct Hfind as (Hpos & Hocc & Hmin).
    pose proof (occurs_at_fits _ _ _ Hocc) as Hfit.
    assert (Hlen : (0 < length pat)%nat) by (destruct pat; [done | simpl; lia]).
    destruct (IH s pat (p + length pat)%nat (found ++ [p]) Hne ltac:(lia))
      as (new & Hrun & Hsp & Hall & Hcov).
    exists (p :: new). rewrite Hrun, <- app_assoc. simpl.
    split; [done|]. split; [done|]. split; [by constructor|].
    intros q Hq Hoq.
    destruct (Nat.lt_ge_cases q p) as [Hlt|Hge].
    + rewrite Hmin in Hoq by lia. discriminate.
    + destruct (Nat.lt_ge_cases q (p + length pat)) as [Hin|Hout].
      * exists p. split; [apply list_elem_of_here | lia].
      * destruct (Hcov q Hout Hoq) as (p' & Hp' & Hrange).
        exists p'. split; [by apply list_elem_of_further | done].
  - exists []. rewrite app_nil_r. split; [done|]. split; [done|]. split; [done|].
    intros q Hq Hoq. rewrite Hfind in Hoq by done. discriminate.
Qed.

(** X3.  With a non-empty needle the search loop of [FindTextPatternUTF16] /
    [FindTextPatternASCII] ends on every region.  The indices it reports are
    occurrences of the needle, in increasing order and never overlapping; and
    every occurrence of the needle in the region starts inside a reported
    match (an occurrence is dropped only when it overlaps an earlier reported
    one). *)
Theorem text_scan_reports_greedy_matches :
  forall (fuel : nat) (bufferStr pattern : list Z),
    pattern <> [] ->
    (S (length bufferStr) < fuel)%nat ->
    exists found,
      Injector.find_loop fuel bufferStr pattern 0 [] = Some found
      /\ spaced (length pattern) 0 found
      /\ Forall (fun p => occurs_at bufferStr pattern p = true) found
      /\ forall q, occurs_at bufferStr pattern q = true ->
           exists p, p ∈ found /\ (p <= q < p + length pattern)%nat.
Proof.
  intros fuel bufferStr pattern Hne Hfuel.
  destruct (find_loop_greedy fuel bufferStr pattern 0 [] Hne ltac:(lia))
    as (new & Hrun & Hsp & Hall & Hcov).
  exists new. repeat split; try done.
  intros q Hq. apply Hcov; [lia | done].
Qed.

(** Scenario 2 of the specification: ["OK"] twice in a region. *)
Lemma text_scan_reports_greedy_matches_witness :
  exists found,
    Injector.find_loop 12 [79; 75; 0; 0; 79; 75; 0; 0] Samples.OK 0 [] = Some found
    /\ spaced 2 0 found.
Proof.
  destruct (text_scan_reports_greedy_matches 12 [79; 75; 0; 0; 79; 75; 0; 0] Samples.OK)
    as (found & Hrun & Hsp & _).
  - discriminate.
  - simpl. lia.
  - exists found. split; [exact Hrun | exact Hsp].
Defined.

Lemma find_loop_sound (fuel : nat) : forall (s pat : list Z) (pos : nat) (found res : list nat),
  Injector.find_loop fuel s pat pos found = Some res ->
  exists new, res = found ++ new /\ Forall (fun p => occurs_at s pat p = true) new.
Proof.
  induction fuel as [|fuel IH]; intros s pat pos found res Hrun; [discriminate|].
  simpl in Hrun. pose proof (find_spec s pat pos) as Hfind.
  destruct (find s pat pos) as [p|].
  - destruct (IH _ _ _ _ _ Hrun) as (new & -> & Hall).
    exists (p :: new). rewrite <- app_assoc. split; [done|].
    constructor; [apply Hfind | done].
  - injection Hrun as <-. exists []. by rewrite app_nil_r.
Qed.

Lemma wunits_length_half (n : nat) : forall bs : list Z,
  (2 * length (wunits n bs) <= length bs)%nat.
Proof.
  induction n as [|n IH]; intros bs; simpl; [lia|].
  destruct bs as [|lo [|hi bs]]; simpl; try lia.
  specialize (IH bs). lia.
Qed.

(** X4.  Every address the wide scan of a region reports is aligned to the
    two-byte code unit relative to the region base, and the whole match lies
    inside the bytes that were read. *)
Theorem wide_scan_addresses_aligned_and_inside :
  forall (fuel : nat) (addr : Z) (buffer pattern : list Z) (addresses : list Z),
    Injector.scan_region_UTF16 fuel addr buffer pattern = Some addresses ->
    Forall (fun a =>
              (a - addr) mod 2 = 0
              /\ addr <= a
              /\ a + 2 * Z.of_nat (length pattern) <= addr + Z.of_nat (length buffer))
           addresses.
Proof.
  intros fuel addr buffer pattern addresses Hscan.
  unfold Injector.scan_region_UTF16 in Hscan.
  destruct (Injector.find_loop _ _ _ _ _) as [found|] eqn:Hrun; [|discriminate].
  injection Hscan as <-.
  destruct (find_loop_sound _ _ _ _ _ _ Hrun) as (new & -> & Hall).
  simpl. apply Forall_fmap. eapply Forall_impl; [exact Hall|].
  intros p Hocc. simpl. apply occurs_at_fits in Hocc.
  pose proof (wunits_length_half (length buffer / 2) buffer).
  unfold sizeof_wchar_t. repeat split; [|lia|lia].
  replace (addr + Z.of_nat p * 2 - addr) with (Z.of_nat p * 2) by lia.
  apply Z.mod_mul. lia.
Qed.

(** The wide text ["OK"] at byte offset 4 of a region based at 4096. *)
Lemma wide_scan_addresses_aligned_and_inside_witness :
  Forall (fun a => (a - 4096) mod 2 = 0 /\ 4096 <= a /\ a + 2 * 2 <= 4096 + 10)
    [4100].
Proof.
  apply (wide_scan_addresses_aligned_and_inside 12 4096
           [0; 0; 0; 0; 79; 0; 75; 0; 0; 0] Samples.OK [4100]).
  reflexivity.
Defined.

(** ** The byte-pattern scan *)

Lemma ComparePattern_masked (mask : list Z) : forall (data pattern : list Z),
  Forall (fun m => m <> 0) mask ->
  (length mask <= length data)%nat ->
  (length mask <= length pattern)%nat ->
  MemoryUtils.ComparePattern data pattern mask
  = Some (masked_match data pattern mask).
Proof.
  induction mask as [|m mask IH]; intros data pattern Hnz Hd Hp; [reflexivity|].
  apply Forall_cons in Hnz as [Hm Hnz].
  destruct data as [|d data]; [simpl in Hd; lia|].
  destruct pattern as [|q pattern]; [simpl in Hp; lia|].
  simpl in Hd, Hp. cbn [MemoryUtils.ComparePattern masked_match tail].
  destruct (Z.eqb_spec m 0); [contradiction|].
  unfold MemoryUtils.MASK_MATCH.
  destruct (m =? 120); simpl.
  - destruct (d =? q); simpl; [apply IH; (done || lia) | reflexivity].
  - apply IH; (done || lia).
Qed.

Lemma scan_loop_masked (n : nat) :
  forall (fuel : nat) (buffer pattern mask : list Z) (i bound : Z) (results : list Z),
    Forall (fun m => m <> 0) mask ->
    (length mask <= length pattern)%nat ->
    bound + Z.of_nat (length mask) = Z.of_nat (length buffer) ->
    0 <= i -> bound + 1 - i = Z.of_nat n -> bound < 18446744073709551615 ->
    (n < fuel)%nat ->
    MemoryUtils.scan_loop fuel buffer pattern mask i bound results
    = MemoryUtils.ScanDone
        (results
         ++ List.filter (fun k => masked_match (drop (Z.to_nat k) buffer) pattern mask)
              (map (fun k => i + Z.of_nat k) (seq 0 n))).
Proof.
  induction n as [|n IH];
    intros fuel buffer pattern mask i bound results Hnz Hp Hb Hi Hn Hbound Hfuel;
    (destruct fuel as [|fuel]; [lia|]); cbn [MemoryUtils.scan_loop].
  - destruct (Z.ltb_spec bound i); [|lia]. by rewrite app_nil_r.
  - destruct (Z.ltb_spec bound i); [lia|].
    rewrite ComparePattern_masked; [|done|rewrite length_drop; lia|done].
    unfold wrap64. rewrite Z.mod_small by lia.
    rewrite (IH fuel buffer pattern mask (i + 1) bound) by (done || lia).
    f_equal. cbn [seq map List.filter]. rewrite Z.add_0_r.
    rewrite <- seq_shift, map_map.
    rewrite (map_ext (fun k => i + Z.of_nat (S k)) (fun k => i + 1 + Z.of_nat k))
      by (intros k; lia).
    destruct (masked_match (drop (Z.to_nat i) buffer) pattern mask);
      [by rewrite <- app_assoc | reflexivity].
Qed.

(** X5.  For a mask without NUL that is as long as the pattern, and a pattern
    no longer than the region, the byte-pattern scan of a region ends and
    reports exactly the offsets [0 .. bytesRead - pattern.size()] at which
    every ['x'] position of the mask holds the pattern byte, in increasing
    order and overlapping matches included. *)
Theorem byte_scan_reports_all_masked_matches :
  forall (fuel : nat) (buffer pattern mask : list Z),
    Forall (fun m => m <> 0) mask ->
    length mask = length pattern ->
    (length pattern <= length buffer)%nat ->
    Z.of_nat (length buffer) < 18446744073709551615 ->
    (S (length buffer - length pattern) < fuel)%nat ->
    MemoryUtils.ScanRegion fuel buffer pattern mask
    = MemoryUtils.ScanDone
        (List.filter
           (fun i => masked_match (drop (Z.to_nat i) buffer)
                       (MemoryUtils.to_uint8 pattern) mask)
           (map Z.of_nat (seq 0 (S (length buffer - length pattern))))).
Proof.
  intros fuel buffer pattern mask Hnz Hlen Hfit Hsize Hfuel.
  unfold MemoryUtils.ScanRegion, MemoryUtils.scan_bound, wrap64.
  assert (Hu : length (MemoryUtils.to_uint8 pattern) = length pattern)
    by apply length_map.
  rewrite Hu, Z.mod_small by lia.
  rewrite (scan_loop_masked (S (length buffer - length pattern))); try done; lia.
Qed.

(** The pattern [41 ?? 41] in the region [41 42 41 43 41]: offsets 0 and 2,
    which overlap. *)
Lemma byte_scan_reports_all_masked_matches_witness :
  MemoryUtils.ScanRegion 5 [65; 66; 65; 67; 65] [65; 0; 65] [120; 63; 120]
  = MemoryUtils.ScanDone [0; 2].
Proof.
  apply (byte_scan_reports_all_masked_matches 5 [65; 66; 65; 67; 65] [65; 0; 65]
           [120; 63; 120]).
  - repeat (constructor; [lia|]). constructor.
  - reflexivity.
  - simpl. lia.
  - simpl. lia.
  - simpl. lia.
Defined.

(** ** The cache: lookups after insertions, counters, damaged files *)

Section CacheAlgebra.
Context `{HashOrder}.
Import Cache.

Lemma EvictOldest_counters (c : TranslationCache) :
  m_hits (EvictOldest c) = m_hits c /\ m_misses (EvictOldest c) = m_misses c
  /\ m_maxSize (EvictOldest c) = m_maxSize c.
Proof. unfold EvictOldest. by destruct (iteration _) as [|[] ?]. Qed.

Lemma Put_lookup_same (c : TranslationCache) (k v : list Z) :
  m_cache (Put c k v) !! k = Some v.
Proof. unfold Put. simpl. apply lookup_insert_eq. Qed.

Lemma Put_counters (c : TranslationCache) (k v : list Z) :
  m_hits (Put c k v) = m_hits c /\ m_misses (Put c k v) = m_misses c.
Proof.
  unfold Put. simpl. destruct (_ <=? _); [|done].
  by destruct (EvictOldest_counters c) as (-> & -> & _).
Qed.

End CacheAlgebra.

Lemma Get_counters (c : Cache.TranslationCache) (k : list Z) :
  0 <= Cache.m_hits c < 18446744073709551616 ->
  0 <= Cache.m_misses c < 18446744073709551616 ->
  let c' := (Cache.Get c k).2 in
  wrap64 (Cache.m_hits c' + Cache.m_misses c')
  = wrap64 (Cache.m_hits c + Cache.m_misses c + 1)
  /\ 0 <= Cache.m_hits c' < 18446744073709551616
  /\ 0 <= Cache.m_misses c' < 18446744073709551616.
Proof.
  intros Hh Hm. unfold Cache.Get, wrap64.
  destruct (_ !! _); simpl.
  - split; [|split; [apply Z.mod_pos_bound; lia | done]].
    rewrite Z.add_mod_idemp_l by lia. f_equal. lia.
  - split; [|split; [done | apply Z.mod_pos_bound; lia]].
    rewrite Z.add_mod_idemp_r by lia. f_equal. lia.
Qed.

(** X6.  A [Put] is seen by the next [Get] of the same key, whatever the
    capacity and the fill of the cache: the lookup returns the value just
    stored and counts one hit.  While the cache is below its capacity the
    [Put] changes no other key. *)
Theorem Put_then_Get_returns_the_value :
  forall (order : HashOrder) (c : Cache.TranslationCache) (original translated : list Z),
    (Cache.Get (Cache.Put c original translated) original).1 = Some translated
    /\ Cache.m_hits (Cache.Get (Cache.Put c original translated) original).2
       = wrap64 (Cache.m_hits c + 1)
    /\ Cache.m_misses (Cache.Get (Cache.Put c original translated) original).2
       = Cache.m_misses c
    /\ (Z.of_nat (Cache.Size c) < Cache.m_maxSize c ->
        forall other, other <> original ->
          Cache.m_cache (Cache.Put c original translated) !! other
          = Cache.m_cache c !! other).
Proof.
  intros order c k v.
  destruct (Put_counters c k v) as [Hh Hm].
  unfold Cache.Get. rewrite Put_lookup_same.
  cbn [fst snd Cache.m_hits Cache.m_misses]. rewrite Hh, Hm.
  repeat split. intros Hroom other Hne.
  unfold Cache.Put, Cache.Size in *.
  destruct (Z.leb_spec (Cache.m_maxSize c) (Z.of_nat (size (Cache.m_cache c)))); [lia|].
  simpl. by rewrite lookup_insert_ne.
Qed.

(** Below capacity, storing ["Play"] leaves ["Hi"] where it was. *)
Lemma Put_then_Get_returns_the_value_witness :
  let c := @Cache.Put canonical_order (Cache.new 10) Samples.Hi Samples.Ciao in
  Cache.m_cache (@Cache.Put canonical_order c Samples.Play Samples.Gioca) !! Samples.Hi
  = Cache.m_cache c !! Samples.Hi.
Proof.
  refine (proj2 (proj2 (proj2 (Put_then_Get_returns_the_value canonical_order
            (@Cache.Put canonical_order (Cache.new 10) Samples.Hi Samples.Ciao)
            Samples.Play Samples.Gioca))) _ Samples.Hi _).
  - by vm_compute.
  - discriminate.
Defined.

(** X7.  Storing a new value for a key that is already present, in a cache
    that has reached its capacity, still erases the entry [begin()] points
    to: unless that entry is the key itself, it is lost and the cache ends up
    one entry smaller. *)
Theorem Put_of_present_key_in_full_cache_loses_an_entry :
  forall (order : HashOrder) (c : Cache.TranslationCache)
         (original translated victim old first_value : list Z)
         (others : list (list Z * list Z)),
    Cache.m_maxSize c <= Z.of_nat (Cache.Size c) ->
    Cache.m_cache c !! original = Some old ->
    iteration (Cache.m_cache c) = (victim, first_value) :: others ->
    victim <> original ->
    Cache.m_cache (Cache.Put c original translated) !! victim = None
    /\ Cache.m_cache (Cache.Put c original translated) !! original = Some translated
    /\ Cache.Size (Cache.Put c original translated) = (Cache.Size c - 1)%nat.
Proof.
  intros order c k v victim old fv others Hfull Hk Hit Hne.
  assert (Hvic : Cache.m_cache c !! victim = Some fv).
  { apply iteration_lookup. rewrite Hit. apply list_elem_of_here. }
  unfold Cache.Put, Cache.Size in *.
  destruct (Z.leb_spec (Cache.m_maxSize c) (Z.of_nat (size (Cache.m_cache c)))); [|lia].
  unfold Cache.EvictOldest. rewrite Hit. simpl.
  split; [|split].
  - rewrite lookup_insert_ne by done. apply lookup_delete_eq.
  - apply lookup_insert_eq.
  - rewrite map_size_insert_Some.
    + rewrite map_size_delete_Some by (by eexists). lia.
    + rewrite lookup_delete_ne by done. by eexists.
Qed.

(** X8.  From a new cache, after any sequence of operations, the hit and miss
    counters together have counted every [Get] (modulo 2^64), and each
    counter is a 64-bit value. *)
Theorem cache_counters_count_the_lookups :
  forall (order : HashOrder) (maxSize : Z) (ops : list Cache.Op),
    let c := Cache.run ops (Cache.new maxSize) in
    wrap64 (Cache.m_hits c + Cache.m_misses c) = wrap64 (Z.of_nat (count_gets ops))
    /\ 0 <= Cache.m_hits c < 18446744073709551616
    /\ 0 <= Cache.m_misses c < 18446744073709551616.
Proof.
  intros order maxSize ops.
  assert (Hgen : forall c n,
    wrap64 (Cache.m_hits c + Cache.m_misses c) = wrap64 (Z.of_nat n) ->
    0 <= Cache.m_hits c < 18446744073709551616 ->
    0 <= Cache.m_misses c < 18446744073709551616 ->
    let c' := Cache.run ops c in
    wrap64 (Cache.m_hits c' + Cache.m_misses c')
    = wrap64 (Z.of_nat (n + count_gets ops))
    /\ 0 <= Cache.m_hits c' < 18446744073709551616
    /\ 0 <= Cache.m_misses c' < 18446744073709551616).
  { unfold Cache.run, count_gets.
    induction ops as [|op ops IH]; intros c n Hsum Hh Hm; simpl.
    - by rewrite Nat.add_0_r.
    - destruct op as [k v|k|k|]; simpl.
      + destruct (Put_counters c k v) as [Eh Em].
        apply IH; by rewrite ?Eh, ?Em.
      + replace (n + S (length (List.filter _ ops)))%nat
          with (S n + length (List.filter
                                (fun op => match op with Cache.OpGet _ => true | _ => false end)
                                ops))%nat by lia.
        destruct (Get_counters c k Hh Hm) as (Hs & Hh' & Hm').
        apply IH; [|done|done].
        rewrite Hs. unfold wrap64 in *.
        rewrite <- Z.add_mod_idemp_l, Hsum, Z.add_mod_idemp_l by lia.
        f_equal. lia.
      + by apply IH.
      + by apply IH. }
  simpl. apply (Hgen (Cache.new maxSize) 0%nat); simpl; [reflexivity | lia | lia].
Qed.

(** A full cache of two entries whose [begin()] is ["Hi"]: storing a new
    value for ["OK"] drops ["Hi"]. *)
Lemma Put_of_present_key_in_full_cache_loses_an_entry_witness :
  let c := @Cache.run canonical_order
             [Cache.OpPut Samples.Hi Samples.Ciao; Cache.OpPut Samples.OK Samples.OK]
             (Cache.new 2) in
  Cache.m_cache (@Cache.Put canonical_order c Samples.OK Samples.Gioca) !! Samples.Hi = None
  /\ Cache.m_cache (@Cache.Put canonical_order c Samples.OK Samples.Gioca) !! Samples.OK
     = Some Samples.Gioca
  /\ Cache.Size (@Cache.Put canonical_order c Samples.OK Samples.Gioca) = 1%nat.
Proof.
  apply (Put_of_present_key_in_full_cache_loses_an_entry canonical_order
           (@Cache.run canonical_order
              [Cache.OpPut Samples.Hi Samples.Ciao; Cache.OpPut Samples.OK Samples.OK]
              (Cache.new 2))
           Samples.OK Samples.Gioca Samples.Hi Samples.OK Samples.Ciao
           [(Samples.OK, Samples.OK)]).
  - by vm_compute.
  - by vm_compute.
  - by vm_compute.
  - discriminate.
Defined.

Section DamagedFiles.
Import Cache.

Lemma load_entries_stopped (n : nat) (bytes : list Z) (m : gmap (list Z) (list Z)) :
  load_entries n (mkStream bytes false) m = Some m.
Proof. by destruct n. Qed.

Lemma load_entries_prefix (l : list (list Z * list Z)) :
  forall (n : nat) (m : gmap (list Z) (list Z)) (tl : list Z),
    Forall storable_entry l ->
    load_entries (length l + n) (mkStream (flat_map entry_bytes l ++ tl) true) m
    = load_entries n (mkStream tl true) (foldl put_entry m l).
Proof.
  induction l as [|[k v] l IH]; intros n m tl Hl; [reflexivity|].
  apply Forall_cons in Hl as [[Hk Hv] Hl].
  cbn [length flat_map foldl Nat.add]. rewrite <- app_assoc.
  rewrite load_entries_one by done. by apply IH.
Qed.

Lemma load_entries_cut (n : nat) (k v cut : list Z) (declared : Z)
    (m : gmap (list Z) (list Z)) :
  storable_string k ->
  0 <= declared < 4294967296 ->
  Z.of_nat (length cut) < 2 * declared ->
  load_entries (S n)
    (mkStream (le32 (Z.of_nat (length k)) ++ wbytes k ++ le32 declared ++ cut) true) m
  = Some m.
Proof.
  intros [Hk Hku] Hd Hcut. rewrite load_entries_S. cbn [good].
  rewrite read_u32_le32 by lia.
  rewrite read_wstring_wbytes by done.
  rewrite read_u32_le32 by lia.
  unfold read_wstring, stream_read. cbn [good rest].
  destruct (Nat.leb_spec (2 * Z.to_nat declared) (length cut)); [lia|].
  apply load_entries_stopped.
Qed.

End DamagedFiles.

(** X9.  A cache file that ends inside the text of a translation (fewer bytes
    follow the length field than it announces) is loaded with success: the
    entries before the damaged one replace the contents of the cache, and the
    damaged entry and the shortfall against the header count go unreported. *)
Theorem truncated_file_loads_the_entries_before_the_cut :
  forall (c : Cache.TranslationCache) (fs : FileSystem) (path : list Z)
         (entries : list (list Z * list Z)) (k cut : list Z) (declared count : Z),
    Forall Cache.storable_entry entries ->
    Cache.storable_string k ->
    0 <= declared < 4294967296 ->
    Z.of_nat (length cut) < 2 * declared ->
    Z.of_nat (length entries) < count < 4294967296 ->
    contents fs !! path
    = Some (file_image count entries
              (le32 (Z.of_nat (length k)) ++ wbytes k ++ le32 declared ++ cut)) ->
    Cache.LoadFromFile c fs path
    = Cache.Loaded true (Cache.with_map c (foldl Cache.put_entry ∅ entries)).
Proof.
  intros c fs path entries k cut declared count Hl Hk Hd Hcut Hcount Hfile.
  unfold Cache.LoadFromFile. rewrite Hfile. unfold file_image.
  rewrite read_u32_le32 by (unfold Cache.CACHE_MAGIC; lia).
  rewrite read_u32_le32 by (unfold Cache.CACHE_VERSION; lia).
  rewrite read_u32_le32 by lia.
  rewrite !Z.eqb_refl. simpl negb. cbv iota.
  replace (Z.to_nat count)
    with (length entries + S (Z.to_nat count - length entries - 1))%nat by lia.
  rewrite load_entries_prefix by done.
  by rewrite load_entries_cut.
Qed.

(** A file announcing two entries: ["Hi" -> "Ciao"] is complete, the text of
    the second translation stops after one of its two code units. *)
Lemma truncated_file_loads_the_entries_before_the_cut_witness :
  Cache.LoadFromFile (Cache.new 10000)
    (Samples.disk_with
       (file_image 2 [(Samples.Hi, Samples.Ciao)]
          (le32 2 ++ wbytes Samples.OK ++ le32 2 ++ [79; 0])))
    Samples.cache_path
  = Cache.Loaded true
      (Cache.with_map (Cache.new 10000) {[ Samples.Hi := Samples.Ciao ]}).
Proof.
  apply (truncated_file_loads_the_entries_before_the_cut (Cache.new 10000)
           (Samples.disk_with
              (file_image 2 [(Samples.Hi, Samples.Ciao)]
                 (le32 2 ++ wbytes Samples.OK ++ le32 2 ++ [79; 0])))
           Samples.cache_path [(Samples.Hi, Samples.Ciao)] Samples.OK [79; 0] 2 2).
  - repeat constructor; simpl; lia.
  - repeat constructor; simpl; lia.
  - lia.
  - simpl. lia.
  - simpl. lia.
  - apply lookup_singleton_eq.
Defined.

(** ** The transport: request ids, framing, routing *)

Section TransportMore.
Import IPC.

Lemma SendTranslateRequest_connected (ok : bool) (st : State) (text : list Z) :
  g_connected st = true -> g_hPipe_valid st = true ->
  (SendTranslateRequest ok st text).1 = (if ok then g_nextRequestId st else 0)
  /\ g_nextRequestId (SendTranslateRequest ok st text).2
     = wrap32 (g_nextRequestId st + 1)
  /\ g_connected (SendTranslateRequest ok st text).2 = true
  /\ g_hPipe_valid (SendTranslateRequest ok st text).2 = true
  /\ g_pendingResponses (SendTranslateRequest ok st text).2 = g_pendingResponses st.
Proof.
  intros Hc Hv. unfold SendTranslateRequest. rewrite Hc, Hv. by destruct ok.
Qed.

Lemma sends_ids (requests : list (bool * list Z)) : forall (st : State) (g : Z),
  g_connected st = true -> g_hPipe_valid st = true ->
  g_nextRequestId st = wrap32 g ->
  (sends st requests).1
  = imap (fun (k : nat) (request : bool * list Z) =>
            if request.1 then wrap32 (g + Z.of_nat k) else 0) requests
  /\ g_nextRequestId (sends st requests).2 = wrap32 (g + Z.of_nat (length requests)).
Proof.
  induction requests as [|[ok text] requests IH]; intros st g Hc Hv Hg.
  - simpl. by rewrite Z.add_0_r.
  - cbn [sends].
    destruct (SendTranslateRequest_connected ok st text Hc Hv)
      as (Hid & Hnext & Hc' & Hv' & _).
    destruct (SendTranslateRequest ok st text) as [requestId st1].
    cbn [fst snd] in *.
    assert (Hg' : g_nextRequestId st1 = wrap32 (g + 1)).
    { rewrite Hnext, Hg. unfold wrap32. by rewrite Z.add_mod_idemp_l by lia. }
    destruct (IH st1 (g + 1) Hc' Hv' Hg') as (Hids & Hn).
    destruct (sends st1 requests) as [ids st2]. cbn [fst snd length imap] in *.
    split.
    + rewrite Hid, Hg, Hids, Z.add_0_r. f_equal.
      apply imap_ext. intros k [ok' t] _. cbn [fst].
      by replace (g + 1 + Z.of_nat k) with (g + Z.of_nat (S k)) by lia.
    + rewrite Hn. f_equal. lia.
Qed.

End TransportMore.

(** X10.  On a connected transport every call of [SendTranslateRequest] uses
    up the next request id, also when its write fails: the k-th call returns
    the counter plus k (modulo 2^32) if its write succeeded and 0 otherwise,
    and the counter ends up advanced by the number of calls. *)
Theorem request_ids_are_consecutive :
  forall (st : IPC.State) (requests : list (bool * list Z)),
    IPC.g_connected st = true ->
    IPC.g_hPipe_valid st = true ->
    0 <= IPC.g_nextRequestId st < 4294967296 ->
    (sends st requests).1
    = imap (fun (k : nat) (request : bool * list Z) =>
              if request.1 then wrap32 (IPC.g_nextRequestId st + Z.of_nat k) else 0)
        requests
    /\ IPC.g_nextRequestId (sends st requests).2
       = wrap32 (IPC.g_nextRequestId st + Z.of_nat (length requests)).
Proof.
  intros st requests Hc Hv Hg.
  apply sends_ids; [done | done |].
  unfold wrap32. by rewrite Z.mod_small.
Qed.

(** Three requests on a fresh connection, the second write failing: ids 1 and
    3 are returned, id 2 is lost. *)
Lemma request_ids_are_consecutive_witness :
  (sends Samples.connected_ipc
     [(true, Samples.Hi); (false, Samples.OK); (true, Samples.Play)]).1
  = [1; 0; 3].
Proof.
  apply (request_ids_are_consecutive Samples.connected_ipc
           [(true, Samples.Hi); (false, Samples.OK); (true, Samples.Play)]).
  - reflexivity.
  - reflexivity.
  - simpl. lia.
Defined.

Section Framing.
Import IPC.

Lemma le32_length (z : Z) : length (le32 z) = 4%nat.
Proof. reflexivity. Qed.

Lemma take_le32_app (z : Z) (tl : list Z) : take 4 (le32 z ++ tl) = le32 z.
Proof. reflexivity. Qed.

Lemma drop_le32_app (z : Z) (tl : list Z) : drop 4 (le32 z ++ tl) = tl.
Proof. reflexivity. Qed.

(** The receive thread reads a frame laid out as [SendTranslateRequest] lays
    out its own: header, then the UTF-16LE text. *)
Lemma ReceiveThread_step_frame (st : State) (requestId : Z) (text junk : list Z)
    (bytesRead : nat) :
  0 <= requestId < 4294967296 ->
  2 * Z.of_nat (length text) < 4294967296 ->
  Forall (fun c => 0 <= c < 65536) text ->
  (sizeof_IPCMessage <= bytesRead)%nat ->
  ReceiveThread_step st
    (ReadOk (le32 TRANSLATE_RESPONSE ++ le32 requestId
             ++ le32 (2 * Z.of_nat (length text)) ++ wbytes text ++ junk) bytesRead)
  = store_response st (requestId, text).
Proof.
  intros Hid Hlen Hu Hb.
  assert (Hdec : le32_decode (le32 (2 * Z.of_nat (length text)))
                 = Some (2 * Z.of_nat (length text))) by (apply le32_roundtrip; lia).
  rewrite (ReceiveThread_step_response st _ bytesRead requestId
             (2 * Z.of_nat (length text)) Hb).
  - unfold sizeof_wchar_t.
    replace (drop 12 _) with (wbytes text ++ junk) by reflexivity.
    replace (2 * Z.of_nat (length text) / 2) with (Z.of_nat (length text))
      by (rewrite Z.mul_comm, Z.div_mul; lia).
    by rewrite Nat2Z.id, wunits_wbytes.
  - reflexivity.
  - rewrite drop_le32_app, take_le32_app. by apply le32_roundtrip.
  - exact Hdec.
Qed.

End Framing.

(** X11.  The frame that [SendTranslateRequest] writes carries everything the
    receive thread needs, as long as it fits the 65536-byte receive buffer:
    when the server answers with the same frame, its type field set to
    TRANSLATE_RESPONSE, and the twelve-byte header, the text and whatever
    follows them in the buffer are at most 65536 bytes, the wait for the
    request id returns the very text that was sent. *)
Theorem request_frame_echo_returns_the_text :
  forall (st : IPC.State) (text junk : list Z)
         (wakeups : list (list (Z * list Z))) (final : list (Z * list Z)),
    IPC.g_connected st = true ->
    IPC.g_hPipe_valid st = true ->
    0 < IPC.g_nextRequestId st < 4294967296 ->
    12 + 2 * Z.of_nat (length text) + Z.of_nat (length junk) <= 65536 ->
    Forall (fun c => 0 <= c < 65536) text ->
    let sent := IPC.SendTranslateRequest true st text in
    exists frame,
      IPC.written sent.2 = IPC.written st ++ [frame]
      /\ Z.of_nat (length (le32 IPC.TRANSLATE_RESPONSE ++ drop 4 frame ++ junk)) <= 65536
      /\ (IPC.ReceiveTranslateResponse
            (IPC.ReceiveThread_step sent.2
               (IPC.ReadOk (le32 IPC.TRANSLATE_RESPONSE ++ drop 4 frame ++ junk)
                  (length frame)))
            sent.1 wakeups final).1
         = Some text.
Proof.
  intros st text junk wakeups final Hc Hv Hg Hfit Hu sent.
  assert (Hlen : 2 * Z.of_nat (length text) < 4294967296) by lia.
  unfold sent, IPC.SendTranslateRequest. rewrite Hc, Hv.
  cbn [negb orb fst snd IPC.written]. eexists. split; [reflexivity|].
  rewrite drop_le32_app.
  split.
  { rewrite !length_app, !le32_length, wbytes_length. lia. }
  unfold sizeof_wchar_t, wrap32.
  rewrite (Z.mul_comm (Z.of_nat (length text)) 2).
  rewrite (Z.mod_small (2 * Z.of_nat (length text))) by lia.
  rewrite <- !app_assoc.
  rewrite ReceiveThread_step_frame; try done; try lia.
  - destruct wakeups; simpl; by rewrite lookup_insert_eq.
  - unfold IPC.sizeof_IPCMessage. rewrite !length_app, !le32_length. lia.
Qed.

(** ["Hi"] is sent as request 1 and echoed back in a frame of 16 bytes. *)
Lemma request_frame_echo_returns_the_text_witness :
  exists frame,
    IPC.written (IPC.SendTranslateRequest true Samples.connected_ipc Samples.Hi).2
    = [frame]
    /\ Z.of_nat (length (le32 IPC.TRANSLATE_RESPONSE ++ drop 4 frame ++ [])) <= 65536
    /\ (IPC.ReceiveTranslateResponse
          (IPC.ReceiveThread_step
             (IPC.SendTranslateRequest true Samples.connected_ipc Samples.Hi).2
             (IPC.ReadOk (le32 IPC.TRANSLATE_RESPONSE ++ drop 4 frame ++ []) (length frame)))
          1 [] []).1
       = Some Samples.Hi.
Proof.
  apply (request_frame_echo_returns_the_text Samples.connected_ipc Samples.Hi [] [] []).
  - reflexivity.
  - reflexivity.
  - simpl. lia.
  - simpl. lia.
  - repeat (constructor; [lia|]). constructor.
Defined.

Section Routing.
Import IPC.

Lemma store_response_other (st : State) (response : Z * list Z) (requestId : Z) :
  response.1 <> requestId ->
  g_pendingResponses (store_response st response) !! requestId
  = g_pendingResponses st !! requestId.
Proof. intros Hne. unfold store_response. simpl. by rewrite lookup_insert_ne. Qed.

Lemma store_responses_agree (responses : list (Z * list Z)) :
  forall (st1 st2 : State) (requestId : Z),
    g_pendingResponses st1 !! requestId = g_pendingResponses st2 !! requestId ->
    g_pendingResponses (store_responses st1 responses) !! requestId
    = g_pendingResponses (store_responses st2 responses) !! requestId.
Proof.
  unfold store_responses.
  induction responses as [|r responses IH]; intros st1 st2 requestId Hag; simpl; [done|].
  apply IH. unfold store_response. simpl.
  destruct (decide (r.1 = requestId)) as [->|Hne].
  - by rewrite !lookup_insert_eq.
  - by rewrite !lookup_insert_ne.
Qed.

(** The outcome of a wait depends on the map only through its own key. *)
Lemma ReceiveTranslateResponse_agree (wakeups : list (list (Z * list Z))) :
  forall (st1 st2 : State) (requestId : Z) (final : list (Z * list Z)),
    g_pendingResponses st1 !! requestId = g_pendingResponses st2 !! requestId ->
    (ReceiveTranslateResponse st1 requestId wakeups final).1
    = (ReceiveTranslateResponse st2 requestId wakeups final).1.
Proof.
  induction wakeups as [|stored wakeups IH]; intros st1 st2 requestId final Hag; simpl.
  - rewrite Hag. by destruct (g_pendingResponses st2 !! requestId).
  - rewrite Hag. destruct (g_pendingResponses st2 !! requestId) eqn:H2; [done|].
    apply IH. apply store_responses_agree. congruence.
Qed.

End Routing.

(** X12.  Responses are routed by request id.  A wait for an id whose
    response has been stored returns that text at once and erases the entry;
    and responses stored under other ids never change what a wait returns. *)
Theorem responses_are_routed_by_id :
  forall (st : IPC.State) (requestId : Z) (text : list Z)
         (others : list (Z * list Z))
         (wakeups : list (list (Z * list Z))) (final : list (Z * list Z)),
    Forall (fun r => r.1 <> requestId) others ->
    (IPC.ReceiveTranslateResponse
       (IPC.store_responses (IPC.store_response st (requestId, text)) others)
       requestId wakeups final).1 = Some text
    /\ IPC.g_pendingResponses
         (IPC.ReceiveTranslateResponse
            (IPC.store_responses (IPC.store_response st (requestId, text)) others)
            requestId wakeups final).2 !! requestId = None
    /\ (IPC.ReceiveTranslateResponse (IPC.store_responses st others)
          requestId wakeups final).1
       = (IPC.ReceiveTranslateResponse st requestId wakeups final).1.
Proof.
  intros st requestId text others wakeups final Hothers.
  assert (Hkeep : forall s,
    IPC.g_pendingResponses (IPC.store_responses s others) !! requestId
    = IPC.g_pendingResponses s !! requestId).
  { unfold IPC.store_responses. induction Hothers as [|r others Hr _ IH]; intros s; simpl.
    - done.
    - rewrite IH. by apply store_response_other. }
  assert (Hin : IPC.g_pendingResponses
                  (IPC.store_responses (IPC.store_response st (requestId, text)) others)
                !! requestId = Some text).
  { rewrite Hkeep. unfold IPC.store_response. simpl. apply lookup_insert_eq. }
  split; [|split].
  - destruct wakeups; simpl; by rewrite Hin.
  - destruct wakeups; simpl; rewrite Hin; simpl; apply lookup_delete_eq.
  - apply ReceiveTranslateResponse_agree, Hkeep.
Qed.

(** Scenario 5 of the specification: requests 7 and 8 are outstanding and the
    server answers 8 first; the waiter of 7 still gets the text for 7. *)
Lemma responses_are_routed_by_id_witness :
  (IPC.ReceiveTranslateResponse
     (IPC.store_responses (IPC.store_response Samples.connected_ipc (7, Samples.Ciao))
        [(8, Samples.Gioca)])
     7 [] []).1 = Some Samples.Ciao.
Proof.
  apply (responses_are_routed_by_id Samples.connected_ipc 7 Samples.Ciao
           [(8, Samples.Gioca)] [] []).
  repeat constructor. simpl. lia.
Defined.

(** ** The pipeline: statistics, caching of answers, a lost connection *)

Section PipelineMore.
Context `{HashOrder}.
Import Translator.

Lemma Translate_stats_consistent (env : Env) (st : State) (text : list Z) :
  stats_consistent st -> stats_consistent (Translate env st text).2.
Proof.
  intros (Htot & Hh & Hm & Rh & Rm). unfold Translate.
  destruct (negb (g_initialized st) || negb (enabled st)); [done|].
  unfold Cache.Get.
  destruct (Cache.m_cache (globalCache st) !! text) as [translated|].
  - unfold stats_consistent. cbn. rewrite <- Hh, <- Hm, Htot.
    unfold wrap64. repeat split; try lia; try (apply Z.mod_pos_bound; lia).
    rewrite Z.add_mod_idemp_l, Z.add_mod_idemp_l by lia. f_equal. lia.
  - assert (Hgoal : forall (e : Z) (lat : Z) (c : Cache.TranslationCache) (i : IPC.State),
      Cache.m_hits c = Cache.m_hits (globalCache st) ->
      Cache.m_misses c = wrap64 (Cache.m_misses (globalCache st) + 1) ->
      stats_consistent
        (mkState (g_initialized st) (enabled st)
           (mkStats (wrap64 (totalRequests (g_stats st) + 1)) (cacheHits (g_stats st))
              (wrap64 (cacheMisses (g_stats st) + 1)) e lat) c i)).
    { intros e lat c i Ec Em. unfold stats_consistent. cbn.
      rewrite Ec, Em, <- Hh, <- Hm, Htot. unfold wrap64.
      repeat split; try lia; try (apply Z.mod_pos_bound; lia).
      rewrite Z.add_mod_idemp_l, Z.add_mod_idemp_r by lia. f_equal. lia. }
    destruct (IPC.IsConnected (ipc st)); [|by apply Hgoal].
    destruct (IPC.SendTranslateRequest _ _ _) as [requestId ipc1].
    destruct (negb (requestId =? 0)); [|by apply Hgoal].
    destruct (IPC.ReceiveTranslateResponse _ _ _ _) as [[translated|] ipc2];
      [|by apply Hgoal].
    match goal with
    | |- context [Cache.Put ?c text translated] =>
        destruct (Put_counters c text translated) as [E1 E2]
    end.
    apply Hgoal; [by rewrite E1 | by rewrite E2].
Qed.

End PipelineMore.

(** X13.  Whatever happens on the pipe, the statistics of the pipeline stay
    consistent through any sequence of [Translate] calls: the request count is
    the sum of hits and misses (modulo 2^64), and the hit and miss counts are
    those of the cache itself. *)
Theorem pipeline_statistics_stay_consistent :
  forall (order : HashOrder) (st : Translator.State)
         (calls : list (Translator.Env * list Z)),
    stats_consistent st ->
    stats_consistent (translate_all st calls).
Proof.
  intros order st calls. unfold translate_all. revert st.
  induction calls as [|[env text] calls IH]; intros st Hst; simpl; [done|].
  by apply IH, Translate_stats_consistent.
Qed.

(** Two requests for ["Hi"], both timing out, on a fresh pipeline. *)
Lemma pipeline_statistics_stay_consistent_witness :
  stats_consistent
    (@translate_all canonical_order Samples.fresh_translator
       [(Samples.env_timeout, Samples.Hi); (Samples.env_timeout, Samples.Hi)]).
Proof.
  apply (pipeline_statistics_stay_consistent canonical_order Samples.fresh_translator
           [(Samples.env_timeout, Samples.Hi); (Samples.env_timeout, Samples.Hi)]).
  unfold stats_consistent. simpl. repeat split; lia.
Defined.

(** X14.  An answer received over the pipe is cached: when a [Translate] call
    on a cache miss gets its response, it returns the translation, and every
    later [Translate] of the same text returns it again as a cache hit,
    without writing to the pipe, whatever the pipe would do then. *)
Theorem answered_translation_is_served_from_cache :
  forall (order : HashOrder) (env env' : Translator.Env) (st : Translator.State)
         (originalText translated : list Z),
    Translator.g_initialized st = true ->
    Translator.enabled st = true ->
    Cache.m_cache (Translator.globalCache st) !! originalText = None ->
    IPC.IsConnected (Translator.ipc st) = true ->
    (let sent := IPC.SendTranslateRequest (Translator.write_ok env) (Translator.ipc st)
                   originalText in
     sent.1 <> 0
     /\ (IPC.ReceiveTranslateResponse sent.2 sent.1
           (Translator.wakeups env) (Translator.final env)).1 = Some translated) ->
    let first := Translator.Translate env st originalText in
    let second := Translator.Translate env' first.2 originalText in
    first.1 = translated
    /\ second.1 = translated
    /\ IPC.written (Translator.ipc second.2) = IPC.written (Translator.ipc first.2)
    /\ Translator.cacheHits (Translator.g_stats second.2)
       = wrap64 (Translator.cacheHits (Translator.g_stats first.2) + 1).
Proof.
  intros order env env' st text translated Hinit Hen Hmiss Hconn Hsent first second.
  assert (Hfirst : first.1 = translated
                   /\ Translator.g_initialized first.2 = true
                   /\ Translator.enabled first.2 = true
                   /\ Cache.m_cache (Translator.globalCache first.2) !! text
                      = Some translated).
  { unfold first, Translator.Translate. rewrite Hinit, Hen. simpl negb. cbv iota.
    unfold Cache.Get. rewrite Hmiss, Hconn.
    destruct (IPC.SendTranslateRequest _ _ _) as [requestId ipc1].
    cbn [fst snd] in Hsent. destruct Hsent as [Hid Hrecv].
    destruct (Z.eqb_spec requestId 0); [done|]. simpl negb. cbv iota.
    destruct (IPC.ReceiveTranslateResponse _ _ _ _) as [[t|] ipc2];
      cbn [fst] in Hrecv; [|discriminate].
    injection Hrecv as ->.
    cbn [fst snd Translator.g_initialized Translator.enabled Translator.globalCache].
    repeat split. apply Put_lookup_same. }
  destruct Hfirst as (H1 & Hi1 & He1 & Hc1).
  split; [exact H1|].
  unfold second, Translator.Translate. rewrite Hi1, He1. simpl negb. cbv iota.
  unfold Cache.Get. rewrite Hc1. cbn. repeat split.
Qed.

(** The fresh pipeline asks for ["Hi"], is answered ["Ciao"], and is asked
    again while no response would arrive. *)
Lemma answered_translation_is_served_from_cache_witness :
  let first := @Translator.Translate canonical_order Samples.env_answer_Ciao
                 Samples.fresh_translator Samples.Hi in
  let second := @Translator.Translate canonical_order Samples.env_timeout first.2
                  Samples.Hi in
  first.1 = Samples.Ciao
  /\ second.1 = Samples.Ciao
  /\ IPC.written (Translator.ipc second.2) = IPC.written (Translator.ipc first.2)
  /\ Translator.cacheHits (Translator.g_stats second.2)
     = wrap64 (Translator.cacheHits (Translator.g_stats first.2) + 1).
Proof.
  apply (answered_translation_is_served_from_cache canonical_order
           Samples.env_answer_Ciao Samples.env_timeout Samples.fresh_translator
           Samples.Hi Samples.Ciao); try reflexivity.
  split; [discriminate | reflexivity].
Defined.

(** X15.  Nothing reconnects the transport: once the receive thread has seen
    [ReadFile] fail with a broken or unconnected pipe, no later [Translate]
    call writes to the pipe, counts a translation error, or changes the cache
    contents, and the transport stays disconnected. *)
Theorem broken_pipe_silences_the_pipeline :
  forall (order : HashOrder) (st : Translator.State) (error : Z)
         (calls : list (Translator.Env * list Z)),
    error = IPC.ERROR_BROKEN_PIPE \/ error = IPC.ERROR_PIPE_NOT_CONNECTED ->
    let st0 := Translator.mkState (Translator.g_initialized st) (Translator.enabled st)
                 (Translator.g_stats st) (Translator.globalCache st)
                 (IPC.ReceiveThread_step (Translator.ipc st) (IPC.ReadFailed error)) in
    let st' := translate_all st0 calls in
    IPC.IsConnected (Translator.ipc st') = false
    /\ IPC.written (Translator.ipc st') = IPC.written (Translator.ipc st)
    /\ Translator.translationErrors (Translator.g_stats st')
       = Translator.translationErrors (Translator.g_stats st)
    /\ Cache.m_cache (Translator.globalCache st')
       = Cache.m_cache (Translator.globalCache st).
Proof.
  intros order st error calls Herr st0 st'.
  assert (H0 : IPC.IsConnected (Translator.ipc st0) = false
               /\ IPC.written (Translator.ipc st0) = IPC.written (Translator.ipc st)
               /\ Translator.translationErrors (Translator.g_stats st0)
                  = Translator.translationErrors (Translator.g_stats st)
               /\ Cache.m_cache (Translator.globalCache st0)
                  = Cache.m_cache (Translator.globalCache st)).
  { unfold st0. cbn [Translator.ipc Translator.g_stats Translator.globalCache].
    unfold IPC.ReceiveThread_step.
    destruct Herr as [-> | ->]; by cbn. }
  unfold st'. clearbody st0. clear st'. revert st0 H0. unfold translate_all.
  induction calls as [|[env text] calls IH]; intros st0 H0; [exact H0|].
  simpl foldl. apply IH. destruct H0 as (Hc & Hw & He & Hm).
  cbn [fst snd]. unfold Translator.Translate.
  destruct (negb _ || negb _); [done|].
  unfold Cache.Get.
  destruct (Cache.m_cache (Translator.globalCache st0) !! text); rewrite ?Hc; by cbn.
Qed.

(** The pipe breaks (error 109) under the fresh pipeline, which is then
    asked for ["Hi"] twice. *)
Lemma broken_pipe_silences_the_pipeline_witness :
  let st0 := Translator.mkState true true (Translator.mkStats 0 0 0 0 0)
               (Cache.new 10000)
               (IPC.ReceiveThread_step Samples.connected_ipc (IPC.ReadFailed 109)) in
  let st' := @translate_all canonical_order st0
               [(Samples.env_timeout, Samples.Hi); (Samples.env_timeout, Samples.Hi)] in
  IPC.IsConnected (Translator.ipc st') = false
  /\ IPC.written (Translator.ipc st') = []
  /\ Translator.translationErrors (Translator.g_stats st') = 0
  /\ Cache.m_cache (Translator.globalCache st') = ∅.
Proof.
  apply (broken_pipe_silences_the_pipeline canonical_order Samples.fresh_translator 109
           [(Samples.env_timeout, Samples.Hi); (Samples.env_timeout, Samples.Hi)]).
  left. reflexivity.
Defined.

(** ** The JSON text of the Unity client *)

Section WireProofs.
Import Wire.

Lemma escape_char_no_nul (c : Z) : Forall (fun x => x <> 0) (escape_char c).
Proof.
  unfold escape_char.
  repeat (match goal with |- context [?a =? ?b] => destruct (Z.eqb_spec a b) end;
          simpl; try (repeat constructor; lia)).
Qed.

Lemma escape_no_nul (s : list Z) : Forall (fun x => x <> 0) (escape s).
Proof.
  induction s as [|c s IH]; simpl; [constructor|].
  apply Forall_app. split; [apply escape_char_no_nul | exact IH].
Qed.

Lemma escape_char_no_quote (c : Z) :
  c <> 34 -> Forall (fun x => x <> 34) (escape_char c).
Proof.
  intros Hc. unfold escape_char.
  repeat (match goal with |- context [?a =? ?b] => destruct (Z.eqb_spec a b) end;
          simpl; try (repeat constructor; lia)).
Qed.

Lemma escape_no_quote (s : list Z) :
  Forall (fun x => x <> 34) s -> Forall (fun x => x <> 34) (escape s).
Proof.
  induction 1 as [|c s Hc _ IH]; simpl; [constructor|].
  apply Forall_app. split; [by apply escape_char_no_quote | exact IH].
Qed.

Lemma unescape_escape_char (c : Z) (rest : list Z) :
  unescape (escape_char c ++ rest)
  = (if c =? 0 then [] else [c]) ++ unescape rest.
Proof.
  unfold escape_char.
  destruct (Z.eqb_spec c 34) as [->|]; [reflexivity|].
  destruct (Z.eqb_spec c 92) as [->|]; [reflexivity|].
  destruct (Z.eqb_spec c 10) as [->|]; [reflexivity|].
  destruct (Z.eqb_spec c 13) as [->|]; [reflexivity|].
  destruct (Z.eqb_spec c 9) as [->|]; [reflexivity|].
  destruct (Z.eqb_spec c 0) as [->|]; [reflexivity|].
  simpl. destruct (Z.eqb_spec c 92); [contradiction|reflexivity].
Qed.

Lemma unescape_no_quote (n : nat) : forall s : list Z,
  (length s <= n)%nat ->
  Forall (fun x => x <> 34) s -> Forall (fun x => x <> 34) (unescape s).
Proof.
  induction n as [|n IH]; intros s Hn Hs.
  - destruct s; [constructor | simpl in Hn; lia].
  - destruct s as [|c rest]; [constructor|].
    apply Forall_cons in Hs as [Hc Hrest]. simpl in Hn.
    assert (Hplain : Forall (fun x => x <> 34) (c :: unescape rest)).
    { constructor; [exact Hc | apply IH; [lia | exact Hrest]]. }
    cbn [unescape]. fold (unescape rest).
    destruct (c =? 92); [|exact Hplain].
    destruct rest as [|next rest']; [by repeat constructor|].
    apply Forall_cons in Hrest as [Hnext Hrest']. simpl in Hn.
    assert (Htail : Forall (fun x => x <> 34) (unescape rest'))
      by (apply IH; [lia | exact Hrest']).
    destruct (next =? 110); [constructor; [lia | exact Htail]|].
    destruct (next =? 114); [constructor; [lia | exact Htail]|].
    destruct (next =? 116); [constructor; [lia | exact Htail]|].
    destruct (Z.eqb_spec next 34); [contradiction|].
    destruct (next =? 92); [constructor; [lia | exact Htail]|].
    exact Hplain.
Qed.

Lemma c_str_Forall (P : Z -> Prop) (s : list Z) : Forall P s -> Forall P (c_str s).
Proof.
  induction 1 as [|c s Hc _ IH]; simpl; [constructor|].
  destruct (c =? 0); by constructor.
Qed.

Lemma c_str_app (a b : list Z) :
  Forall (fun c => c <> 0) a -> c_str (a ++ b) = a ++ c_str b.
Proof.
  induction 1 as [|c a Hc _ IH]; simpl; [reflexivity|].
  destruct (Z.eqb_spec c 0); [contradiction|]. by rewrite IH.
Qed.

Lemma is_prefix_app (pat rest : list Z) : is_prefix pat (pat ++ rest) = true.
Proof. induction pat as [|a pat IH]; simpl; [reflexivity|]. by rewrite Z.eqb_refl. Qed.

Lemma find_first (s pat : list Z) (pos p : nat) :
  (pos <= p)%nat ->
  occurs_at s pat p = true ->
  (forall q, (pos <= q < p)%nat -> occurs_at s pat q = false) ->
  find s pat pos = Some p.
Proof.
  intros Hpos Hocc Hmin. pose proof (find_spec s pat pos) as Hspec.
  destruct (find s pat pos) as [p'|].
  - destruct Hspec as (Hp' & Hocc' & Hmin'). f_equal.
    destruct (Nat.lt_trichotomy p' p) as [Hlt | [-> | Hgt]]; [|reflexivity|].
    + rewrite Hmin in Hocc' by lia. discriminate.
    + rewrite Hmin' in Hocc by lia. discriminate.
  - rewrite Hspec in Hocc by lia. discriminate.
Qed.

(** The field between the key and the next quote holds no quote. *)
Lemma response_field_no_quote (buffer raw : list Z) :
  response_field buffer = Some raw -> Forall (fun x => x <> 34) raw.
Proof.
  unfold response_field. set (response := c_str buffer).
  destruct (find response TRANSLATED_KEY 0) as [pos|]; [|discriminate].
  pose proof (find_spec response [34] (pos + 14)) as Hspec.
  destruct (find response [34] (pos + 14)) as [endPos|]; [|discriminate].
  intros [= <-]. destruct Hspec as (Hle & _ & Hmin).
  apply Forall_forall. intros x Hx.
  apply list_elem_of_lookup in Hx as [i Hi].
  apply lookup_take_Some in Hi as [Hi Hlt].
  rewrite lookup_drop in Hi.
  specialize (Hmin (pos + 14 + i)%nat ltac:(lia)).
  unfold occurs_at in Hmin.
  pose proof (lookup_lt_Some _ _ _ Hi) as Hlen.
  destruct (Nat.leb_spec (pos + 14 + i) (length response)); [|lia].
  simpl in Hmin. rewrite (drop_S _ x _ Hi) in Hmin. simpl in Hmin.
  intros ->. by rewrite andb_true_r in Hmin.
Qed.

End WireProofs.

Lemma unescape_undoes_escape_aux (s : list Z) :
  Wire.unescape (Wire.escape s) = List.filter (fun c => negb (c =? 0)) s.
Proof.
  induction s as [|c s IH]; [reflexivity|].
  change (Wire.escape (c :: s)) with (Wire.escape_char c ++ Wire.escape s).
  rewrite unescape_escape_char, IH. simpl.
  by destruct (c =? 0).
Qed.

(** X16.  The unescaping loop of the Unity client undoes its escaping loop:
    on the escaped form of any UTF-8 text it gives back the text, less the
    NUL characters, which the escaping drops. *)
Theorem unescape_undoes_escape :
  forall utf8Text : list Z,
    Wire.unescape (Wire.escape utf8Text)
    = List.filter (fun c => negb (c =? 0)) utf8Text.
Proof.
  exact unescape_undoes_escape_aux.
Qed.

(** X17.  The text that [RequestTranslation] takes from a reply never holds a
    quotation mark: the value of ["translated"] is cut at the first quote
    character, escaped or not, so a translation with a quotation mark in it
    cannot be received whole. *)
Theorem reply_text_never_holds_a_quote :
  forall buffer text : list Z,
    Wire.response_text buffer = Some text ->
    Forall (fun c => c <> 34) text.
Proof.
  intros buffer text. unfold Wire.response_text.
  destruct (Wire.response_field buffer) as [raw|] eqn:Hraw; [|discriminate].
  intros [= <-]. apply c_str_Forall.
  apply (unescape_no_quote (length raw)); [lia|].
  by apply (response_field_no_quote buffer).
Qed.

(** The host answers [say "hi"] with both quotation marks escaped; the client
    keeps [say \]. *)
Lemma reply_text_never_holds_a_quote_witness :
  Wire.response_text Samples.reply_say_hi = Some [115; 97; 121; 32; 92]
  /\ Forall (fun c => c <> 34) [115; 97; 121; 32; 92].
Proof.
  split; [reflexivity|].
  apply (reply_text_never_holds_a_quote Samples.reply_say_hi [115; 97; 121; 32; 92]).
  reflexivity.
Defined.

Lemma find_after_run (a b pat' rest : list Z) (x : Z) :
  Forall (fun c => c <> x) b ->
  find ((a ++ b) ++ (x :: pat') ++ rest) (x :: pat') (length a)
  = Some (length a + length b)%nat.
Proof.
  intros Hb. apply find_first; [lia | |].
  - unfold occurs_at. rewrite !length_app.
    destruct (Nat.leb_spec (length a + length b)
                (length a + length b + (length (x :: pat') + length rest))); [|lia].
    rewrite drop_app_length' by (rewrite length_app; lia).
    cbn [andb]. apply (is_prefix_app (x :: pat') rest).
  - intros q Hq. unfold occurs_at.
    rewrite drop_app_le by (rewrite length_app; lia).
    rewrite drop_app_ge by lia.
    destruct (drop (q - length a) b) as [|y tl] eqn:Hd.
    { apply (f_equal length) in Hd. rewrite length_drop in Hd. simpl in Hd. lia. }
    assert (Hy : y ∈ b).
    { apply (list_elem_of_lookup_2 _ (q - length a)).
      rewrite <- (Nat.add_0_r (q - length a)), <- lookup_drop, Hd. reflexivity. }
    rewrite Forall_forall in Hb. specialize (Hb y Hy).
    cbn [app is_prefix]. destruct (Z.eqb_spec x y); [congruence|].
    by rewrite andb_false_r.
Qed.

(** X18.  A reply in which the translation is escaped the way the client
    escapes its own requests is read back exactly, whatever precedes the key
    and follows the closing quote, provided the translation holds no quotation
    mark (the text before the key holds no quote and no NUL). *)
Theorem escaped_reply_is_read_back :
  forall pre text post : list Z,
    Forall (fun c => c <> 34) pre ->
    Forall (fun c => c <> 0) pre ->
    Forall (fun c => c <> 34) text ->
    Wire.response_text
      (pre ++ Wire.TRANSLATED_KEY ++ Wire.escape text ++ 34 :: post)
    = Some (List.filter (fun c => negb (c =? 0)) text).
Proof.
  intros pre text post Hq Hz Ht.
  unfold Wire.response_text, Wire.response_field.
  replace (pre ++ Wire.TRANSLATED_KEY ++ Wire.escape text ++ 34 :: post)
    with ((pre ++ Wire.TRANSLATED_KEY ++ Wire.escape text ++ [34]) ++ post)
    by (by rewrite <- !app_assoc).
  rewrite c_str_app.
  2:{ apply Forall_app; split; [exact Hz|].
      apply Forall_app; split; [repeat (constructor; [discriminate|]); constructor|].
      apply Forall_app; split; [apply escape_no_nul|].
      by repeat constructor. }
  set (tl := c_str post).
  assert (Hkey : find ((pre ++ Wire.TRANSLATED_KEY ++ Wire.escape text ++ [34]) ++ tl)
                   Wire.TRANSLATED_KEY 0 = Some (length pre)).
  { replace ((pre ++ Wire.TRANSLATED_KEY ++ Wire.escape text ++ [34]) ++ tl)
      with (([] ++ pre) ++ (34 :: List.tl Wire.TRANSLATED_KEY)
            ++ (Wire.escape text ++ [34] ++ tl))
      by (rewrite <- !app_assoc; reflexivity).
    exact (find_after_run [] pre (List.tl Wire.TRANSLATED_KEY)
             (Wire.escape text ++ [34] ++ tl) 34 Hq). }
  rewrite Hkey.
  assert (Hend : find ((pre ++ Wire.TRANSLATED_KEY ++ Wire.escape text ++ [34]) ++ tl)
                   [34] (length pre + 14)
                 = Some (length pre + 14 + length (Wire.escape text))%nat).
  { replace ((pre ++ Wire.TRANSLATED_KEY ++ Wire.escape text ++ [34]) ++ tl)
      with (((pre ++ Wire.TRANSLATED_KEY) ++ Wire.escape text) ++ [34] ++ tl)
      by (by rewrite <- !app_assoc).
    replace (length pre + 14)%nat with (length (pre ++ Wire.TRANSLATED_KEY))
      by (rewrite length_app; reflexivity).
    exact (find_after_run (pre ++ Wire.TRANSLATED_KEY) (Wire.escape text) [] tl 34
             (escape_no_quote text Ht)). }
  rewrite Hend. f_equal.
  replace ((pre ++ Wire.TRANSLATED_KEY ++ Wire.escape text ++ [34]) ++ tl)
    with ((pre ++ Wire.TRANSLATED_KEY) ++ Wire.escape text ++ [34] ++ tl)
    by (by rewrite <- !app_assoc).
  rewrite drop_app_length' by (rewrite length_app; reflexivity).
  replace (length pre + 14 + length (Wire.escape text) - (length pre + 14))%nat
    with (length (Wire.escape text)) by lia.
  rewrite take_app_length.
  rewrite unescape_undoes_escape_aux.
  apply c_str_no_nul.
  apply Forall_forall. intros c Hc. apply list_elem_of_In, filter_In in Hc as [_ Hc].
  by destruct (Z.eqb_spec c 0).
Qed.

(** The reply [{"translated":"Ciao"}]. *)
Lemma escaped_reply_is_read_back_witness :
  Wire.response_text
    ([123] ++ Wire.TRANSLATED_KEY ++ Wire.escape Samples.Ciao ++ 34 :: [125])
  = Some Samples.Ciao.
Proof.
  apply (escaped_reply_is_read_back [123] Samples.Ciao [125]);
    repeat (constructor; [discriminate|]); constructor.
Defined.

(** ** The Mono detours share one cache *)

(** X19.  A string answered once is in the one cache both detours share.
    After [mono_string_new_utf16] has obtained a usable translation of a
    candidate string, that string is replaced by the translation, whatever the
    pipe would do and without a change of the module state, every time it
    arrives at [mono_string_new_utf16] again, and every time it arrives at
    [mono_string_new] as UTF-8 bytes that themselves pass that detour's filter
    (3 to 500 bytes, none of [/ \ { <]).  UTF-8 bytes that fail the filter, as
    those of a string of more than 166 three-byte characters do, are passed
    to the original [mono_string_new] untranslated although the string is
    cached. *)
Theorem answered_string_is_served_by_both_detours :
  forall (mb : list Z -> option (list Z)) (st : Unity.State) (c : Unity.IPCClient)
         (units translated : list Z),
    Unity.g_TranslationEnabled st = true ->
    Unity.g_Initialized st = true ->
    spec_translatable units = true ->
    Unity.g_TranslationCache st !! units = None ->
    Unity.g_IPCClient st = Some c ->
    Unity.IsConnected c = true ->
    translated <> [] ->
    translated <> units ->
    let len := Z.of_nat (length units) in
    let first :=
      Unity.Hook_mono_string_new_utf16 (Unity.Answer (Some translated)) st
        (Some units) len in
    let served :=
      Unity.Original_mono_string_new_utf16 (Some translated)
        (Z.of_nat (length translated)) in
    first.1 = served
    /\ (forall io : Unity.PipeIO,
          Unity.Hook_mono_string_new_utf16 io first.2 (Some units) len
          = (served, first.2))
    /\ (forall (io : Unity.PipeIO) (bytes : list Z),
          mb bytes = Some units ->
          Unity.Hook_mono_string_new mb io first.2 (Some bytes)
          = if spec_translatable bytes
            then (served, first.2)
            else (Unity.Original_mono_string_new (Some bytes), first.2)).
Proof.
  intros mb st c units translated Hen Hinit Hcand Hmiss Hclient Hconn Hne Hdiff
    len first served.
  assert (Hfirst : first
                   = (served,
                      Unity.mkState true true
                        (<[units := translated]> (Unity.g_TranslationCache st))
                        (Some c))).
  { unfold first, len. rewrite Hook_mono_string_new_utf16_filter.
    rewrite Hen, Hinit, Hcand. cbn [andb].
    unfold Unity.lookup_or_request. rewrite Hmiss, Hclient, Hconn.
    unfold Unity.RequestTranslation. rewrite Hconn. cbn [negb].
    destruct translated as [|t translated]; [done|].
    destruct (str_eqb (t :: translated) units) eqn:Heq;
      [by apply str_eqb_eq in Heq|].
    cbn [negb andb length Nat.eqb]. by rewrite Hen, Hinit. }
  rewrite Hfirst. cbn [fst snd].
  assert (Hhit : forall io fallback,
             Unity.lookup_or_request io
               (Unity.mkState true true
                  (<[units := translated]> (Unity.g_TranslationCache st)) (Some c))
               units fallback
             = (served,
                Unity.mkState true true
                  (<[units := translated]> (Unity.g_TranslationCache st)) (Some c))).
  { intros io fallback. unfold Unity.lookup_or_request.
    cbn [Unity.g_TranslationCache]. rewrite lookup_insert_eq.
    by destruct translated. }
  split; [reflexivity|]. split.
  - intros io. unfold len. rewrite Hook_mono_string_new_utf16_filter.
    cbn [Unity.g_TranslationEnabled Unity.g_Initialized]. rewrite Hcand. cbn [andb].
    apply Hhit.
  - intros io bytes Hmb. rewrite Hook_mono_string_new_filter.
    cbn [Unity.g_TranslationEnabled Unity.g_Initialized]. cbn [andb].
    destruct (spec_translatable bytes); [|reflexivity].
    rewrite Hmb. apply Hhit.
Qed.

(** The connected module is asked for ["Player"] as UTF-16 and answered
    ["Giocatore"]; with a decoder that maps ASCII bytes to themselves,
    ["Player"] then is served to [mono_string_new] as well. *)
Lemma answered_string_is_served_by_both_detours_witness :
  let st := Unity.mkState true true ∅ (Some (Unity.mkClient true true)) in
  let first :=
    Unity.Hook_mono_string_new_utf16 (Unity.Answer (Some Samples.Giocatore)) st
      (Some Samples.Player) 6 in
  let served := Unity.Original_mono_string_new_utf16 (Some Samples.Giocatore) 9 in
  first.1 = served
  /\ (forall io : Unity.PipeIO,
        Unity.Hook_mono_string_new_utf16 io first.2 (Some Samples.Player) 6
        = (served, first.2))
  /\ (forall io : Unity.PipeIO,
        Unity.Hook_mono_string_new Samples.ascii_to_wide io first.2
          (Some Samples.Player)
        = (served, first.2)).
Proof.
  destruct (answered_string_is_served_by_both_detours Samples.ascii_to_wide
              (Unity.mkState true true ∅ (Some (Unity.mkClient true true)))
              (Unity.mkClient true true) Samples.Player Samples.Giocatore)
    as (Hfirst & Hutf16 & Hutf8); try reflexivity; try discriminate.
  split; [exact Hfirst|]. split; [exact Hutf16|].
  intros io. exact (Hutf8 io Samples.Player eq_refl).
Defined.

(** ** Utilities of the Unreal module *)

Section UtilsProofs.
Import Utils.

Lemma compare_at_inside (data : list Z) : forall (pattern : list Z) (i : nat),
  (i + length pattern <= length data)%nat ->
  compare_at data pattern i = Some (matches_at data pattern i).
Proof.
  induction pattern as [|p pattern IH]; intros i Hi; [reflexivity|].
  simpl in Hi. cbn [compare_at matches_at].
  destruct (p =? -1); cbn [negb orb andb]; [apply IH; lia|].
  destruct (data !! i) as [d|] eqn:Hd.
  2:{ apply lookup_ge_None in Hd. lia. }
  destruct (Z.eqb_spec d (p mod 256)) as [->|Hne]; cbn [negb].
  - rewrite bool_decide_eq_true_2 by reflexivity. apply IH. lia.
  - rewrite bool_decide_eq_false_2 by congruence. reflexivity.
Qed.

Lemma scan_finds_first (start : Z) (data pattern : list Z) (bound : nat) :
  0 <= start ->
  start + Z.of_nat (length data) <= 18446744073709551616 ->
  (0 < length pattern)%nat ->
  (bound + length pattern <= length data)%nat ->
  forall (fuel i : nat),
    (i <= bound)%nat ->
    (bound - i < fuel)%nat ->
    scan fuel start data pattern (Z.of_nat i) (Z.of_nat bound)
    = Returned (match List.find (matches_at data pattern) (seq i (bound - i)) with
                | Some i' => start + Z.of_nat i'
                | None => 0
                end).
Proof.
  intros Hs Hend Hp Hb. induction fuel as [|fuel IH]; intros i Hi Hf; [lia|].
  cbn [scan]. destruct (Z.ltb_spec (Z.of_nat i) (Z.of_nat bound)) as [Hlt|Hge].
  - rewrite Nat2Z.id, compare_at_inside by lia.
    replace (bound - i)%nat with (S (bound - S i)) by lia. cbn [seq List.find].
    destruct (matches_at data pattern i).
    + unfold wrap64. rewrite Z.mod_small by lia. reflexivity.
    + replace (wrap64 (Z.of_nat i + 1)) with (Z.of_nat (S i))
        by (unfold wrap64; rewrite Z.mod_small by lia; lia).
      apply IH; lia.
  - replace (bound - i)%nat with 0%nat by lia. reflexivity.
Qed.

Lemma hex_digit_read (d : Z) :
  0 <= d < 16 ->
  hex_value (hex_digit d) = Some d
  /\ isspace (hex_digit d) = false
  /\ (hex_digit d =? 32) = false /\ (hex_digit d =? 63) = false
  /\ (hex_digit d =? 43) = false /\ (hex_digit d =? 45) = false.
Proof.
  intros Hd.
  assert (Hcases : d = 0 \/ d = 1 \/ d = 2 \/ d = 3 \/ d = 4 \/ d = 5 \/ d = 6 \/ d = 7
                   \/ d = 8 \/ d = 9 \/ d = 10 \/ d = 11 \/ d = 12 \/ d = 13 \/ d = 14
                   \/ d = 15) by lia.
  repeat (destruct Hcases as [-> | Hcases]; [by vm_compute|]).
  subst d. by vm_compute.
Qed.

Lemma parse_print_byte (p : Z) (sig : list Z) :
  signature_element p ->
  parse_signature (print_byte p ++ sig) = cons p <$> parse_signature sig.
Proof.
  intros [-> | Hp]; [reflexivity|].
  unfold print_byte. destruct (Z.eqb_spec p (-1)); [lia|].
  destruct (hex_digit_read (p / 16)) as (Hh1 & Hs1 & H32 & H63 & H43 & H45);
    [Z.to_euclidean_division_equations; lia|].
  destruct (hex_digit_read (p mod 16)) as (Hh2 & _);
    [Z.to_euclidean_division_equations; lia|].
  cbn [app parse_signature]. rewrite H32, H63.
  unfold strtol16. rewrite Hs1, H43, H45, Hh1, Hh2.
  replace (16 * (p / 16) + p mod 16) with p
    by (Z.to_euclidean_division_equations; lia).
  reflexivity.
Qed.

Lemma find_last_of_spec (chars : list Z) : forall s : list Z,
  match find_last_of s chars with
  | Some pos =>
      exists c name,
        s = take pos s ++ c :: name
        /\ existsb (Z.eqb c) chars = true
        /\ Forall (fun x => existsb (Z.eqb x) chars = false) name
  | None => Forall (fun x => existsb (Z.eqb x) chars = false) s
  end.
Proof.
  induction s as [|c s IH]; cbn [find_last_of]; [constructor|].
  destruct (find_last_of s chars) as [pos|].
  - destruct IH as (c' & name & Hs & Hc' & Hname).
    exists c', name. cbn [take]. split; [|done].
    change ((c :: take pos s) ++ c' :: name) with (c :: (take pos s ++ c' :: name)).
    by rewrite <- Hs.
  - destruct (existsb (Z.eqb c) chars) eqn:Hc.
    + exists c, s. by rewrite take_0.
    + by constructor.
Qed.

Lemma not_separator (x : Z) :
  existsb (Z.eqb x) SEPARATORS = false -> x <> 92 /\ x <> 47.
Proof.
  unfold SEPARATORS. cbn [existsb].
  destruct (Z.eqb_spec x 92), (Z.eqb_spec x 47); cbn; (discriminate || done).
Qed.

Lemma lxor_uint64 (h c : Z) :
  0 <= h < 18446744073709551616 -> 0 <= c < 18446744073709551616 ->
  0 <= Z.lxor h c < 18446744073709551616.
Proof.
  intros Hh Hc.
  assert (Hnn : 0 <= Z.lxor h c) by (apply Z.lxor_nonneg; lia).
  split; [exact Hnn|].
  destruct (Z.eq_dec (Z.lxor h c) 0) as [->|Hnz]; [lia|].
  change 18446744073709551616 with (2 ^ 64).
  apply Z.log2_lt_pow2; [lia|].
  pose proof (Z.log2_lxor h c ltac:(lia) ltac:(lia)) as Hlog.
  assert (Hlh : Z.log2 h < 64).
  { destruct (Z.eq_dec h 0) as [->|]; [by vm_compute|].
    apply Z.log2_lt_pow2; [lia|]. change (2 ^ 64) with 18446744073709551616. lia. }
  assert (Hlc : Z.log2 c < 64).
  { destruct (Z.eq_dec c 0) as [->|]; [by vm_compute|].
    apply Z.log2_lt_pow2; [lia|]. change (2 ^ 64) with 18446744073709551616. lia. }
  lia.
Qed.

Lemma multiply_by_prime_undone (z : Z) :
  0 <= z < 18446744073709551616 ->
  wrap64 (wrap64 (z * FNV_PRIME) * FNV_PRIME_INVERSE) = z.
Proof.
  intros Hz. unfold wrap64.
  rewrite Z.mul_mod_idemp_l by lia.
  rewrite <- Z.mul_assoc, <- Z.mul_mod_idemp_r by lia.
  replace ((FNV_PRIME * FNV_PRIME_INVERSE) mod 18446744073709551616) with 1
    by (by vm_compute).
  rewrite Z.mul_1_r. by apply Z.mod_small.
Qed.

Lemma fnv_step_range (h c : Z) : 0 <= fnv_step h c < 18446744073709551616.
Proof. unfold fnv_step, wrap64. apply Z.mod_pos_bound. lia. Qed.

Lemma fnv_step_inj (h1 h2 c1 c2 : Z) :
  0 <= h1 < 18446744073709551616 -> 0 <= h2 < 18446744073709551616 ->
  code_unit c1 -> code_unit c2 ->
  fnv_step h1 c1 = fnv_step h2 c2 -> Z.lxor h1 c1 = Z.lxor h2 c2.
Proof.
  unfold code_unit. intros H1 H2 Hc1 Hc2 Heq. unfold fnv_step in Heq.
  rewrite <- (multiply_by_prime_undone (Z.lxor h1 c1)) by (apply lxor_uint64; lia).
  rewrite <- (multiply_by_prime_undone (Z.lxor h2 c2)) by (apply lxor_uint64; lia).
  by rewrite Heq.
Qed.

Lemma lxor_cancel_l (h a b : Z) : Z.lxor h a = Z.lxor h b -> a = b.
Proof.
  intros Heq. apply (f_equal (Z.lxor h)) in Heq.
  by rewrite <- !Z.lxor_assoc, Z.lxor_nilpotent, !Z.lxor_0_l in Heq.
Qed.

Lemma lxor_cancel_r (a b c : Z) : Z.lxor a c = Z.lxor b c -> a = b.
Proof. rewrite !(Z.lxor_comm _ c). apply lxor_cancel_l. Qed.

Lemma fnv_fold_apart (s : list Z) : forall h1 h2 : Z,
  0 <= h1 < 18446744073709551616 -> 0 <= h2 < 18446744073709551616 ->
  Forall code_unit s ->
  h1 <> h2 ->
  foldl fnv_step h1 s <> foldl fnv_step h2 s.
Proof.
  induction s as [|c s IH]; intros h1 h2 H1 H2 Hs Hne; [exact Hne|].
  apply Forall_cons in Hs as [Hc Hs]. cbn [foldl].
  apply IH; [apply fnv_step_range | apply fnv_step_range | exact Hs |].
  intros Heq. apply Hne.
  apply (lxor_cancel_r _ _ c). by apply fnv_step_inj.
Qed.

Lemma fnv_fold_range (s : list Z) (h : Z) :
  0 <= h < 18446744073709551616 ->
  0 <= foldl fnv_step h s < 18446744073709551616.
Proof.
  revert h. induction s as [|c s IH]; intros h Hh; [exact Hh|].
  cbn [foldl]. apply IH, fnv_step_range.
Qed.

End UtilsProofs.

(** X20.  [PatternScanEx] on a region that holds the whole pattern never
    reads outside the region and returns the address of the first offset
    below [size - patternSize] at which the pattern matches, 0 when there is
    none.  The loop stops one offset early: the last place where the pattern
    fits, offset [size - patternSize], is never examined. *)
Theorem PatternScanEx_returns_first_match_before_the_last_offset :
  forall (fuel : nat) (start : Z) (data signature pattern : list Z),
    Utils.parse_signature (c_str signature) = Some pattern ->
    pattern <> [] ->
    (length pattern <= length data)%nat ->
    0 <= start ->
    start + Z.of_nat (length data) <= 18446744073709551616 ->
    (length data - length pattern < fuel)%nat ->
    Utils.PatternScanEx fuel start data signature
    = Utils.Returned
        (match List.find (matches_at data pattern)
                 (seq 0 (length data - length pattern)) with
         | Some i => start + Z.of_nat i
         | None => 0
         end).
Proof.
  intros fuel start data signature pattern Hparse Hne Hlen Hs Hend Hfuel.
  unfold Utils.PatternScanEx. rewrite Hparse.
  destruct pattern as [|p pattern]; [done|].
  assert (Hpos : (0 < length (p :: pattern))%nat) by (simpl; lia).
  unfold wrap64. rewrite Z.mod_small by lia.
  replace (Z.of_nat (length data) - Z.of_nat (length (p :: pattern)))
    with (Z.of_nat (length data - length (p :: pattern))) by lia.
  change 0 with (Z.of_nat 0) at 1.
  rewrite (scan_finds_first start data (p :: pattern)
             (length data - length (p :: pattern)) Hs Hend Hpos ltac:(lia)
             fuel 0%nat)
    by lia.
  by rewrite Nat.sub_0_r.
Qed.

(** The five bytes [90 90 48 01 8B] at address 4096 end with a match of
    [48 ?? 8B]; it is not found. *)
Lemma PatternScanEx_returns_first_match_before_the_last_offset_witness :
  matches_at Samples.code_ending_in_match [72; -1; 139] 2 = true
  /\ Utils.PatternScanEx 3 4096 Samples.code_ending_in_match
       Samples.signature_48_any_8B
     = Utils.Returned 0.
Proof.
  split; [reflexivity|].
  apply (PatternScanEx_returns_first_match_before_the_last_offset 3 4096
           Samples.code_ending_in_match Samples.signature_48_any_8B [72; -1; 139]);
    try reflexivity; try discriminate; simpl; lia.
Defined.

(** X21.  The signature parser reads the notation of ue_types.h: a pattern of
    bytes and wildcards, written as two hexadecimal digits per byte and [??]
    per wildcard with single spaces between, parses to that pattern. *)
Theorem printed_signature_parses_back :
  forall pattern : list Z,
    Forall signature_element pattern ->
    Utils.parse_signature (print_signature pattern) = Some pattern.
Proof.
  induction 1 as [|p pattern Hp Hrest IH]; [reflexivity|].
  cbn [print_signature]. destruct pattern as [|q pattern].
  - rewrite <- (app_nil_r (print_byte p)), parse_print_byte by done. reflexivity.
  - rewrite parse_print_byte by done.
    change (Utils.parse_signature (32 :: print_signature (q :: pattern)))
      with (Utils.parse_signature (print_signature (q :: pattern))).
    by rewrite IH.
Qed.

(** The pattern [48 ?? 8B]. *)
Lemma printed_signature_parses_back_witness :
  Utils.parse_signature (print_signature [72; -1; 139]) = Some [72; -1; 139].
Proof.
  apply (printed_signature_parses_back [72; -1; 139]).
  repeat constructor; unfold signature_element; lia.
Defined.

(** X22.  [GetGameDirectory] (and [GetDllDirectory], which has the same
    body) splits the module path at its last separator: either the path is
    the returned directory, one [\] or [/], and a file name without
    separators, or the path holds no separator and is returned whole. *)
Theorem GetGameDirectory_splits_at_the_last_separator :
  forall path : list Z,
    (exists sep name,
        (sep = 92 \/ sep = 47)
        /\ path = Utils.GetGameDirectory path ++ sep :: name
        /\ Forall (fun c => c <> 92 /\ c <> 47) name)
    \/ (Utils.GetGameDirectory path = path
        /\ Forall (fun c => c <> 92 /\ c <> 47) path).
Proof.
  intros path. unfold Utils.GetGameDirectory.
  pose proof (find_last_of_spec Utils.SEPARATORS path) as Hspec.
  destruct (Utils.find_last_of path Utils.SEPARATORS) as [pos|].
  - left. destruct Hspec as (c & name & Hpath & Hc & Hname).
    exists c, name. split; [|split; [exact Hpath|]].
    + unfold Utils.SEPARATORS in Hc. cbn [existsb] in Hc.
      destruct (Z.eqb_spec c 92); [by left|].
      destruct (Z.eqb_spec c 47); [by right|]. discriminate.
    + eapply Forall_impl; [exact Hname|]. intros x Hx. by apply not_separator.
  - right. split; [reflexivity|].
    eapply Forall_impl; [exact Hspec|]. intros x Hx. by apply not_separator.
Qed.

(** X23.  [HashString] (FNV-1a over the code units) never gives the same
    hash to two strings that differ in exactly one code unit. *)
Theorem HashString_separates_strings_differing_in_one_unit :
  forall (before after : list Z) (c1 c2 : Z),
    Forall code_unit before -> Forall code_unit after ->
    code_unit c1 -> code_unit c2 ->
    c1 <> c2 ->
    Utils.HashString (before ++ c1 :: after) <> Utils.HashString (before ++ c2 :: after).
Proof.
  intros before after c1 c2 Hb Ha Hc1 Hc2 Hne.
  unfold Utils.HashString. fold fnv_step.
  rewrite !foldl_app. cbn [foldl].
  assert (Hh : 0 <= foldl fnv_step Utils.FNV_OFFSET before < 18446744073709551616)
    by (apply fnv_fold_range; unfold Utils.FNV_OFFSET; lia).
  apply fnv_fold_apart;
    [apply fnv_step_range | apply fnv_step_range | exact Ha |].
  intros Heq. apply Hne.
  apply (lxor_cancel_l (foldl fnv_step Utils.FNV_OFFSET before)).
  apply fnv_step_inj; (done || lia).
Qed.

(** ["Play"] and ["Plby"]. *)
Lemma HashString_separates_strings_differing_in_one_unit_witness :
  Utils.HashString [80; 108; 97; 121] <> Utils.HashString [80; 108; 98; 121].
Proof.
  apply (HashString_separates_strings_differing_in_one_unit [80; 108] [121] 97 98);
    repeat constructor; unfold code_unit; lia.
Defined.

(** ** Reading and writing the target *)

(** X24.  What [WriteMemory] reports as written is what [ReadMemory] then
    reads: after a [WriteMemory] that returned [true], a successful
    [ReadMemory] of the same address and length returns the bytes written. *)
Theorem written_bytes_are_read_back :
  forall (os : Injector.Oracle) (p : Injector.Process) (address : Z) (data : list Z),
    (MemoryAccess.WriteMemory os p address data).1 = true ->
    MemoryAccess.ReadMemory (Some (length data))
      (MemoryAccess.WriteMemory os p address data).2 address (Z.of_nat (length data))
    = Some data.
Proof.
  intros os p address data. unfold MemoryAccess.WriteMemory, MemoryAccess.ReadMemory.
  unfold Injector.VirtualProtectEx, Injector.WriteProcessMemory.
  destruct (Injector.protect_result os) as [oldProtect|]; cbn; [|discriminate].
  intros ->. f_equal. apply read_write_bytes.
Qed.

(** Four bytes written over the blank process. *)
Lemma written_bytes_are_read_back_witness :
  MemoryAccess.ReadMemory (Some 4%nat)
    (MemoryAccess.WriteMemory Samples.os_grants Samples.blank_process 4096 Samples.Ciao).2
    4096 4
  = Some Samples.Ciao.
Proof.
  apply (written_bytes_are_read_back Samples.os_grants Samples.blank_process 4096
           Samples.Ciao).
  reflexivity.
Defined.

(** ** Loading against the capacity *)

(** X25.  [LoadFromFile] does not look at the capacity: loading a file with
    more entries than [m_maxSize] leaves the cache above its capacity, and
    [Put] does not bring it back, since it erases one entry for every new key
    it stores. *)
Theorem loaded_cache_can_exceed_its_capacity :
  forall (order : HashOrder) (c c0 : Cache.TranslationCache) (fs : FileSystem)
         (path : list Z),
    Cache.storable (Cache.m_cache c) ->
    contents fs !! path = Some (Cache.file_bytes c) ->
    0 <= Cache.m_maxSize c0 < Z.of_nat (Cache.Size c) ->
    exists c',
      Cache.LoadFromFile c0 fs path = Cache.Loaded true c'
      /\ Cache.m_maxSize c' < Z.of_nat (Cache.Size c')
      /\ forall original translated : list Z,
           Cache.m_cache c' !! original = None ->
           Cache.Size (Cache.Put c' original translated) = Cache.Size c'.
Proof.
  intros order c c0 fs path Hst Hfile Hmax.
  exists (Cache.with_map c0 (Cache.m_cache c)).
  split; [by apply LoadFromFile_file_bytes|].
  unfold Cache.Size in *. cbn [Cache.with_map Cache.m_cache Cache.m_maxSize].
  split; [lia|].
  intros k v Hk. unfold Cache.Put.
  cbn [Cache.with_map Cache.m_cache Cache.m_maxSize].
  destruct (Z.leb_spec (Cache.m_maxSize c0) (Z.of_nat (size (Cache.m_cache c)))); [|lia].
  assert (Hne : Cache.m_cache (Cache.with_map c0 (Cache.m_cache c)) <> ∅).
  { cbn. intros Hempty. rewrite Hempty, map_size_empty in Hmax. lia. }
  destruct (EvictOldest_erases_one _ Hne) as (victim & Hin & Hev).
  unfold Cache.with_map in Hev. cbn in Hev. unfold Cache.with_map.
  rewrite Hev. cbn.
  rewrite map_size_insert_None by (by apply lookup_delete_None; right).
  rewrite map_size_delete_Some by exact Hin.
  assert (size (Cache.m_cache c) <> 0)%nat by lia. lia.
Qed.

(** The three sample entries are loaded into a cache of capacity two. *)
Lemma loaded_cache_can_exceed_its_capacity_witness :
  let c := @Cache.run canonical_order Samples.three_puts (Cache.new 10000) in
  exists c',
    Cache.LoadFromFile (Cache.new 2)
      (Samples.disk_with (@Cache.file_bytes canonical_order c)) Samples.cache_path
    = Cache.Loaded true c'
    /\ Cache.m_maxSize c' < Z.of_nat (Cache.Size c')
    /\ forall original translated : list Z,
         Cache.m_cache c' !! original = None ->
         Cache.Size (@Cache.Put canonical_order c' original translated) = Cache.Size c'.
Proof.
  apply (loaded_cache_can_exceed_its_capacity canonical_order
           (@Cache.run canonical_order Samples.three_puts (Cache.new 10000))
           (Cache.new 2)
           (Samples.disk_with
              (@Cache.file_bytes canonical_order
                 (@Cache.run canonical_order Samples.three_puts (Cache.new 10000))))
           Samples.cache_path).
  - split; [by vm_compute|].
    intros k v Hkv. apply elem_of_map_to_list in Hkv.
    vm_compute in Hkv.
    repeat (apply elem_of_cons in Hkv as [[= -> ->]|Hkv]);
      [| | |by apply elem_of_nil in Hkv];
      (split; (split; [by vm_compute | repeat (constructor; [lia|]); constructor])).
  - apply lookup_singleton_eq.
  - by vm_compute.
Defined.

(** ** Start and stop of the pipeline *)

(** X26.  What the cache holds at shutdown is what the next start loads:
    when an initialised pipeline with an enabled cache, a non-empty cache path
    that can be written and storable contents is shut down, a later
    [InitializeTranslator] with the same path, in a new process with whatever
    cache object and configuration it starts from, succeeds with exactly the
    mapping of the old session in its cache. *)
Theorem cache_survives_a_restart :
  forall (order : HashOrder) (st : Session.State)
         (config cfg0 : Session.TranslatorConfig) (c0 : Cache.TranslationCache),
    Session.g_initialized st = true ->
    Session.cacheEnabled (Session.g_config st) = true ->
    Session.cachePath (Session.g_config st) <> [] ->
    writable (Session.disk st) (Session.cachePath (Session.g_config st)) = true ->
    Cache.storable (Cache.m_cache (Session.globalCache st)) ->
    Session.cacheEnabled config = true ->
    Session.cachePath config = Session.cachePath (Session.g_config st) ->
    let stopped := Session.ShutdownTranslator st in
    Session.g_initialized stopped = false
    /\ exists st',
         Session.InitializeTranslator
           (Session.mkSession cfg0 false c0 (Session.disk stopped)) config
         = Some st'
         /\ Session.g_initialized st' = true
         /\ Cache.m_cache (Session.globalCache st')
            = Cache.m_cache (Session.globalCache st).
Proof.
  intros order st config cfg0 c0 Hinit Hen Hpath Hw Hst Hen' Hpath' stopped.
  assert (Hstopped : stopped
                     = Session.mkSession (Session.g_config st) false
                         (Session.globalCache st)
                         (mkFS (<[Session.cachePath (Session.g_config st)
                                  := Cache.file_bytes (Session.globalCache st)]>
                                  (contents (Session.disk st)))
                            (writable (Session.disk st)))).
  { unfold stopped, Session.ShutdownTranslator, Session.SaveCache.
    rewrite Hinit, Hen. cbn [negb].
    destruct (Session.cachePath (Session.g_config st)) as [|x path] eqn:Hp; [done|].
    unfold Cache.SaveToFile. rewrite Hw. reflexivity. }
  rewrite Hstopped. split; [reflexivity|].
  exists (Session.mkSession config true
            (Cache.with_map c0 (Cache.m_cache (Session.globalCache st)))
            (mkFS (<[Session.cachePath (Session.g_config st)
                     := Cache.file_bytes (Session.globalCache st)]>
                     (contents (Session.disk st)))
               (writable (Session.disk st)))).
  split; [|split; reflexivity].
  unfold Session.InitializeTranslator, Session.LoadCache.
  cbn [Session.g_config Session.disk Session.globalCache Session.g_initialized].
  rewrite Hen', Hpath'.
  destruct (Session.cachePath (Session.g_config st)) as [|x path] eqn:Hp; [done|].
  cbn [length Nat.eqb negb andb].
  rewrite (LoadFromFile_file_bytes (Session.globalCache st) c0) by
    (done || apply lookup_insert_eq).
  reflexivity.
Qed.

(** A session holding the three sample entries stops and a new one starts on
    the same disk. *)
Lemma cache_survives_a_restart_witness :
  let cfg := Session.mkConfig true true Samples.cache_path in
  let c := @Cache.run canonical_order Samples.three_puts (Cache.new 10000) in
  let st := Session.mkSession cfg true c Samples.empty_disk in
  let stopped := @Session.ShutdownTranslator canonical_order st in
  Session.g_initialized stopped = false
  /\ exists st',
       Session.InitializeTranslator
         (Session.mkSession (Session.mkConfig true true []) false (Cache.new 10000)
            (Session.disk stopped)) cfg
       = Some st'
       /\ Session.g_initialized st' = true
       /\ Cache.m_cache (Session.globalCache st') = Cache.m_cache c.
Proof.
  apply (cache_survives_a_restart canonical_order
           (Session.mkSession (Session.mkConfig true true Samples.cache_path) true
              (@Cache.run canonical_order Samples.three_puts (Cache.new 10000))
              Samples.empty_disk)
           (Session.mkConfig true true Samples.cache_path)
           (Session.mkConfig true true []) (Cache.new 10000));
    try reflexivity; try discriminate.
  split; [by vm_compute|].
  intros k v Hkv. apply elem_of_map_to_list in Hkv.
  vm_compute in Hkv.
  repeat (apply elem_of_cons in Hkv as [[= -> ->]|Hkv]);
    [| | |by apply elem_of_nil in Hkv];
    (split; (split; [by vm_compute | repeat (constructor; [lia|]); constructor])).
Defined.

(** ** What the Unreal detour leaves in the engine string *)

(** X27.  When the Unreal detour substitutes a translation (one that holds no
    NUL and fits the allocation of the [FString]), the engine string reads as
    the translation: its [Len()] is the length of the translation, its first
    [Len()] code units are the translation, and a NUL follows them. *)
Theorem substituted_FString_reads_as_the_translation :
  forall (order : HashOrder) (env : Translator.Env) (st st' : Translator.State)
         (r : Hooks.FString) (data translated : list Z),
    Hooks.Data r = Some data ->
    0 < Hooks.Len r ->
    let originalText := take (Z.to_nat (Hooks.Len r)) data in
    Hooks.passes_guard originalText = true ->
    Translator.Translate env st originalText = (translated, st') ->
    translated <> originalText ->
    translated <> [] ->
    Forall (fun c => c <> 0) translated ->
    Z.of_nat (length translated) < Hooks.ArrayMax r <= Z.of_nat (length data) ->
    Hooks.ArrayMax r < 2147483648 ->
    exists r' data',
      Hooks.Hooked_FText_ToString env st (Some r) = (Some r', st')
      /\ Hooks.Data r' = Some data'
      /\ Hooks.Len r' = Z.of_nat (length translated)
      /\ take (Z.to_nat (Hooks.Len r')) data' = translated
      /\ data' !! Z.to_nat (Hooks.Len r') = Some 0
      /\ length data' = length data.
Proof.
  intros order env st st' r data translated Hdata Hlen originalText Hguard Htr
    Hdiff Hne Hnul Hfit Hmax.
  unfold Hooks.Hooked_FText_ToString. rewrite Hdata.
  destruct (Z.ltb_spec 0 (Hooks.Len r)); [|lia].
  fold originalText. rewrite Hguard, Htr.
  destruct (str_eqb translated originalText) eqn:Heq; [by apply str_eqb_eq in Heq|].
  destruct (Nat.eqb_spec (length translated) 0) as [Hz|_];
    [by apply length_zero_iff_nil in Hz|].
  cbn [negb andb]. set (tr := translated) in *.
  unfold wrap64. rewrite Z.mod_small by lia.
  destruct (Z.ltb_spec (Z.of_nat (length tr)) (Hooks.ArrayMax r)); [|lia].
  set (n := Z.to_nat (Hooks.ArrayMax r)).
  assert (Hcopy : strcpy_s (take n data) tr
                  = (tr ++ [0]) ++ drop (length tr + 1) (take n data)).
  { unfold strcpy_s. rewrite c_str_no_nul by exact Hnul.
    rewrite length_app, length_take. cbn [length].
    destruct (Nat.leb_spec (length tr + 1) (n `min` length data)); [reflexivity|lia]. }
  eexists _, _. split; [reflexivity|].
  cbn [Hooks.Data]. split; [reflexivity|].
  assert (HLen : Hooks.Len
                   (Hooks.mkFString
                      (Some (strcpy_s (take n data) tr ++ drop n data))
                      (Hooks.to_int32 (Z.of_nat (length tr) + 1)) (Hooks.ArrayMax r))
                 = Z.of_nat (length tr)).
  { unfold Hooks.Len, Hooks.to_int32. cbn [Hooks.ArrayNum].
    rewrite Z.mod_small by lia.
    destruct (Z.ltb_spec 0 (Z.of_nat (length tr) + 1 + 2147483648 - 2147483648)); lia. }
  rewrite HLen, Nat2Z.id, Hcopy. split; [reflexivity|].
  rewrite <- !app_assoc. split; [by rewrite take_app_length|].
  split.
  - rewrite lookup_app_r by lia. by rewrite Nat.sub_diag.
  - rewrite !length_app, !length_drop, length_take. cbn [length]. lia.
Qed.

(** The engine string ["a/b"] of the sample pipeline becomes ["x-y"]. *)
Lemma substituted_FString_reads_as_the_translation_witness :
  exists r' data',
    @Hooks.Hooked_FText_ToString canonical_order Samples.env_timeout
      Samples.translator_knowing_a_slash_b (Some Samples.fstring_a_slash_b)
    = (Some r',
       (@Translator.Translate canonical_order Samples.env_timeout
          Samples.translator_knowing_a_slash_b Samples.a_slash_b).2)
    /\ Hooks.Data r' = Some data'
    /\ Hooks.Len r' = 3
    /\ take (Z.to_nat (Hooks.Len r')) data' = Samples.x_dash_y
    /\ data' !! Z.to_nat (Hooks.Len r') = Some 0
    /\ length data' = 8%nat.
Proof.
  apply (substituted_FString_reads_as_the_translation canonical_order
           Samples.env_timeout Samples.translator_knowing_a_slash_b
           (@Translator.Translate canonical_order Samples.env_timeout
              Samples.translator_knowing_a_slash_b Samples.a_slash_b).2
           Samples.fstring_a_slash_b
           [97; 47; 98; 0; 0; 0; 0; 0] Samples.x_dash_y);
    try reflexivity; try discriminate.
  - repeat (constructor; [discriminate|]); constructor.
  - simpl. lia.
Defined.

(** ** The FText detour of the second Unreal module *)

Section UETextProofs.
Import UEText.

Lemma TranslateText_cache_ok (x : Exchange) (st : State) (originalText : list Z) :
  Unity.cache_ok (g_TranslationCache st) ->
  Unity.cache_ok (g_TranslationCache (TranslateText x st originalText).2).
Proof.
  intros Hok. unfold TranslateText.
  destruct (negb _ || _); [exact Hok|].
  destruct (g_TranslationCache st !! originalText); [exact Hok|].
  destruct (g_IPCClient st) as [[|]|]; try exact Hok.
  destruct (Nat.eqb_spec (length (returned x)) 0) as [|Hlen]; [exact Hok|].
  destruct (str_eqb (returned x) originalText) eqn:Heq; [exact Hok|].
  cbn. apply cache_ok_insert; [exact Hok | | ].
  - intros Hnil. by rewrite Hnil in Hlen.
  - intros Hsame. rewrite Hsame, str_eqb_refl in Heq. discriminate.
Qed.

Lemma UEText_step_cache_ok (st : State) (ev : Event) :
  Unity.cache_ok (g_TranslationCache st) ->
  Unity.cache_ok (g_TranslationCache (step st ev)).
Proof.
  intros Hok. destruct ev as [connected|x str|x text| | |]; cbn [step].
  - by destruct (g_IPCClient st) as [[|]|].
  - unfold Hook_FText_FromString. destruct str as [original|]; [|exact Hok].
    destruct (0 <? length original)%nat; [|exact Hok].
    pose proof (TranslateText_cache_ok x st original Hok) as Hok'.
    destruct (TranslateText x st original) as [translated st'].
    by destruct (negb _).
  - by apply TranslateText_cache_ok.
  - exact Hok.
  - apply cache_ok_empty.
  - apply cache_ok_empty.
Qed.

Lemma UEText_run_cache_ok (events : list Event) : forall st : State,
  Unity.cache_ok (g_TranslationCache st) ->
  Unity.cache_ok (g_TranslationCache (run events st)).
Proof.
  unfold run. induction events as [|ev events IH]; intros st Hok; [exact Hok|].
  cbn [foldl]. by apply IH, UEText_step_cache_ok.
Qed.

End UETextProofs.

(** X28.  In the second Unreal module, whatever happened before (requests,
    toggles, cache clearing, reconnections), [TranslateText] never turns a
    non-empty text into the empty string, and [Hook_FText_FromString] hands
    the engine either the intercepted string itself or the C string of a
    non-empty translation that differs from it. *)
Theorem FText_detour_never_substitutes_an_empty_translation :
  forall (events : list UEText.Event) (x : UEText.Exchange) (original : list Z),
    original <> [] ->
    let st := UEText.run events UEText.initial in
    (UEText.TranslateText x st original).1 <> []
    /\ ((UEText.Hook_FText_FromString x st (Some original)).1 = Some original
        \/ exists translated,
             translated <> [] /\ translated <> original
             /\ (UEText.Hook_FText_FromString x st (Some original)).1
                = Some (c_str translated)).
Proof.
  intros events x original Hne st.
  assert (Hok : Unity.cache_ok (UEText.g_TranslationCache st)).
  { apply UEText_run_cache_ok. apply cache_ok_empty. }
  assert (Htr : (UEText.TranslateText x st original).1 <> []).
  { unfold UEText.TranslateText.
    destruct (negb _ || _); [exact Hne|].
    destruct (UEText.g_TranslationCache st !! original) as [second|] eqn:Hhit.
    - by destruct (Hok _ _ Hhit).
    - destruct (UEText.g_IPCClient st) as [[|]|]; try exact Hne.
      destruct (Nat.eqb_spec (length (UEText.returned x)) 0) as [|Hlen];
        [exact Hne|].
      destruct (negb (str_eqb _ _)); cbn; [|exact Hne].
      intros Hnil. by rewrite Hnil in Hlen. }
  split; [exact Htr|].
  unfold UEText.Hook_FText_FromString.
  destruct original as [|c original]; [done|]. cbn [length Nat.ltb Nat.leb].
  destruct (UEText.TranslateText x st (c :: original)) as [translated st'] eqn:Hcall.
  cbn [fst] in Htr.
  destruct (str_eqb translated (c :: original)) eqn:Heq; cbn [negb fst].
  - by left.
  - right. exists translated. split; [exact Htr|]. split; [|reflexivity].
    intros Hsame. rewrite Hsame, str_eqb_refl in Heq. discriminate.
Qed.

(** The module connects, is asked for ["Play"] and answered ["Gioca"]; the
    detour is then called on ["Play"] again. *)
Lemma FText_detour_never_substitutes_an_empty_translation_witness :
  let st :=
    UEText.run
      [UEText.EvConnect true;
       UEText.EvFromString (UEText.mkExchange Samples.Gioca true) (Some Samples.Play)]
      UEText.initial in
  (UEText.TranslateText (UEText.mkExchange [] true) st Samples.Play).1 <> []
  /\ ((UEText.Hook_FText_FromString (UEText.mkExchange [] true) st
         (Some Samples.Play)).1 = Some Samples.Play
      \/ exists translated,
           translated <> [] /\ translated <> Samples.Play
           /\ (UEText.Hook_FText_FromString (UEText.mkExchange [] true) st
                 (Some Samples.Play)).1
              = Some (c_str translated)).
Proof.
  apply (FText_detour_never_substitutes_an_empty_translation
           [UEText.EvConnect true;
            UEText.EvFromString (UEText.mkExchange Samples.Gioca true)
              (Some Samples.Play)]
           (UEText.mkExchange [] true) Samples.Play).
  discriminate.
Defined.
